(** * HipSTR: PCR duplicate removal and per-locus read analysis

    A shallow embedding of [src/pcr_duplicates.cpp] and of
    [GenotyperBamProcessor::analyze_reads_and_phasing], with the properties
    of the specification stated and proved over it.

    Conventions of the embedding:
    - [int32_t] and [int] values are integers in [Z]; every arithmetic
      operation the code performs on them is followed by [wrap32];
    - [double] values are binary64 floats ([PrimFloat.float]);
    - [std::vector] is [list], indexed with stdpp's lookup; an access out of
      range is the outcome [Undefined];
    - [std::map<std::string, std::string>] is [gmap string string];
    - [printErrorAndDie] ends the run: outcome [Fatal];
    - the collaborators whose code is outside the two files (BaseQuality,
      ExtractCigar, the two genotypers, std::sort) are parameters;
    - [assert] ends the run with [AssertFail] unless the build defines
      NDEBUG, which is a parameter of the model. *)

From Stdlib Require Import ZArith Lia Floats.
From stdpp Require Import gmap strings list sorting.

Local Open Scope Z_scope.

(** ** Outcomes of a run *)

Inductive result (A : Type) : Type :=
| Ok (a : A)
| Fatal (msg : string)
| AssertFail
| Undefined.
Arguments Ok {A} a.
Arguments Fatal {A} msg.
Arguments AssertFail {A}.
Arguments Undefined {A}.

Global Instance result_bind : MBind result := λ A B k r,
  match r with
  | Ok a => k a
  | Fatal msg => Fatal msg
  | AssertFail => AssertFail
  | Undefined => Undefined
  end.

(** Modelled from the spec: [printErrorAndDie], whose code is outside the
    two files, reports the message and ends the whole run at once. *)
Definition printErrorAndDie {A : Type} (msg : string) : result A := Fatal msg.

(** [assert(c)]: checked unless NDEBUG is defined. *)
Definition assert (NDEBUG c : bool) : result unit :=
  if NDEBUG then Ok tt else if c then Ok tt else AssertFail.

(** [v[i]] on a vector. *)
Definition at_index {A : Type} (v : list A) (i : nat) : result A :=
  match v !! i with
  | Some a => Ok a
  | None => Undefined
  end.

(** A loop whose body may end the run. *)
Fixpoint for_each {A S : Type} (body : S → A → result S) (l : list A) (s : S) : result S :=
  match l with
  | [] => Ok s
  | a :: l' => s' ← body s a ; for_each body l' s'
  end.

(** [v[i][j]] *)
Definition at_index2 {A : Type} (v : list (list A)) (i j : nat) : result A :=
  row ← at_index v i; at_index row j.

(** [v[i].push_back(x)] and [v[i].clear()] *)
Definition push_back {A : Type} (i : nat) (x : A) (v : list (list A)) : list (list A) :=
  alter (λ row, row ++ [x]) i v.

Definition clear {A : Type} (i : nat) (v : list (list A)) : result (list (list A)) :=
  _ ← at_index v i; Ok (<[i := []]> v).

(** The number of reads in a vector of vectors. *)
Definition count_reads {A : Type} (v : list (list A)) : Z :=
  Z.of_nat (sum_list (length <$> v)).

(** ** 32-bit signed arithmetic *)

Definition wrap32 (z : Z) : Z := (z + 2 ^ 31) mod 2 ^ 32 - 2 ^ 31.

Definition int32_range (z : Z) : Prop := - 2 ^ 31 ≤ z < 2 ^ 31.

(** [x++] on an [int]. *)
Definition incr32 (z : Z) : Z := wrap32 (z + 1).

(** ** Alignments (BamTools::BamAlignment)

    Only the members the two source files read are kept.  [RG] is the value
    of the alignment's RG tag: [None] when [GetTagType("RG", _)] fails. *)

Record CigarOp : Type := { op_Type : Ascii.ascii; op_Length : Z }.

Record BamAlignment : Type := {
  Name : string;
  Position : Z;
  Qualities : string;
  Filename : string;
  CigarData : list CigarOp;
  RG : option string
}.

(** The default-constructed alignment (all members empty, Position -1). *)
Definition BamAlignment_default : BamAlignment :=
  {| Name := ""; Position := -1; Qualities := ""; Filename := "";
     CigarData := []; RG := None |}.

(** Messages written to the log streams. *)
Inductive log_msg : Type :=
| MsgRemovedDuplicates (dup_count : Z)
| MsgSkippingLocus (total min_total : Z)
| MsgExcludingRead (name : string)
| MsgNoStutterModel (chrom : string) (start stop : Z)
| MsgBuildingEM
| MsgTrainingEM
| MsgLearnedModel
| MsgTrainingFailed (chrom : string) (start stop inf_reads : Z)
| MsgLocusTiming (with_genotyping with_seq_genotyper : bool).

(** * Duplicate removal: pcr_duplicates.cpp *)

Module PcrDuplicates.

(** [BaseQuality] is declared outside the two files; the code uses its
    [sum_log_prob_correct] only. *)
Record BaseQuality : Type := { sum_log_prob_correct : string → float }.

Record ReadPair : Type := {
  min_read_start_ : Z;
  max_read_start_ : Z;
  aln_1_ : BamAlignment;
  aln_2_ : BamAlignment;
  library_ : string
}.

(** [ReadPair(aln_1, library)] *)
Definition ReadPair_single (aln_1 : BamAlignment) (library : string) : ReadPair :=
  {| aln_1_ := aln_1;
     aln_2_ := BamAlignment_default;
     min_read_start_ := -1;
     max_read_start_ := Position aln_1;
     library_ := library |}.

(** [ReadPair(aln_1, aln_2, library)] *)
Definition ReadPair_paired (aln_1 aln_2 : BamAlignment) (library : string) : ReadPair :=
  {| aln_1_ := aln_1;
     aln_2_ := aln_2;
     min_read_start_ := Z.min (Position aln_1) (Position aln_2);
     max_read_start_ := Z.max (Position aln_1) (Position aln_2);
     library_ := library |}.

Definition aln_one (p : ReadPair) : BamAlignment := aln_1_ p.
Definition aln_two (p : ReadPair) : BamAlignment := aln_2_ p.

Definition single_ended (p : ReadPair) : bool := min_read_start_ p =? -1.

(** [this->duplicate(pair)] *)
Definition duplicate (this pair : ReadPair) : bool :=
  match String.compare (library_ this) (library_ pair) with Eq => true | _ => false end
  && (min_read_start_ this =? min_read_start_ pair)
  && (max_read_start_ this =? max_read_start_ pair).

(** [*this < pair] *)
Definition ReadPair_lt (this pair : ReadPair) : bool :=
  match String.compare (library_ this) (library_ pair) with
  | Lt => true
  | Gt => false
  | Eq =>
      if negb (min_read_start_ this =? min_read_start_ pair)
      then min_read_start_ this <? min_read_start_ pair
      else max_read_start_ this <? max_read_start_ pair
  end.

Global Instance ReadPair_inhabited : Inhabited ReadPair :=
  populate (ReadPair_single BamAlignment_default "").

(** [get_library(aln, rg_to_library)] *)
Definition get_library (aln : BamAlignment) (rg_to_library : gmap string string) : result string :=
  match RG aln with
  | None => printErrorAndDie "Failed to retrieve BAM alignment's RG tag"
  | Some rg =>
      match rg_to_library !! rg with
      | None =>
          printErrorAndDie
            ("No library found for read group " +:+ rg +:+ " in BAM file headers")
      | Some lib => Ok lib
      end
  end.

(** [rg_to_library[key]]: [std::map::operator[]] inserts an empty string
    for a key that is absent and returns it. *)
Definition map_subscript (rg_to_library : gmap string string) (key : string)
  : string * gmap string string :=
  match rg_to_library !! key with
  | Some lib => (lib, rg_to_library)
  | None => (""%string, <[key := ""%string]> rg_to_library)
  end.

(** [use_bam_rgs ? get_library(aln, rg_to_library) : rg_to_library[aln.Filename]] *)
Definition resolve_library (use_bam_rgs : bool) (aln : BamAlignment)
    (rg_to_library : gmap string string) : result (string * gmap string string) :=
  if use_bam_rgs
  then lib ← get_library aln rg_to_library ; Ok (lib, rg_to_library)
  else Ok (map_subscript rg_to_library (Filename aln)).

(** The state [remove_pcr_duplicates] works on: the map and the three
    vectors it receives by reference, its local [dup_count] and the log
    stream. *)
Record state : Type := {
  rg_to_library : gmap string string;
  paired_strs_by_rg : list (list BamAlignment);
  mate_pairs_by_rg : list (list BamAlignment);
  unpaired_strs_by_rg : list (list BamAlignment);
  dup_count : Z;
  logger : list log_msg
}.

Section RemovePcrDuplicates.

(** [std::sort] with [ReadPair::operator<]: what it returns is fixed by the
    standard only up to the order of equivalent elements, so the sorting
    function is a parameter, with the standard's two guarantees. *)
Variable std_sort : list ReadPair → list ReadPair.

Variable NDEBUG : bool.
Variable base_quality : BaseQuality.
Variable use_bam_rgs : bool.

(** Body of the first loop over [j] (lines 79-82). *)
Definition add_paired (i : nat) (s : state) (acc : list ReadPair * gmap string string)
    (j : nat) : result (list ReadPair * gmap string string) :=
  aln_1 ← at_index2 (paired_strs_by_rg s) i j;
  '(library, m) ← resolve_library use_bam_rgs aln_1 acc.2;
  aln_2 ← at_index2 (mate_pairs_by_rg s) i j;
  Ok (acc.1 ++ [ReadPair_paired aln_1 aln_2 library], m).

(** Body of the second loop over [j] (lines 83-86). *)
Definition add_unpaired (i : nat) (s : state) (acc : list ReadPair * gmap string string)
    (j : nat) : result (list ReadPair * gmap string string) :=
  aln_1 ← at_index2 (unpaired_strs_by_rg s) i j;
  '(library, m) ← resolve_library use_bam_rgs aln_1 acc.2;
  Ok (acc.1 ++ [ReadPair_single aln_1 library], m).

(** The scan over the sorted pairs (lines 94-121) updates [best_index],
    the vectors of read group [i] and [dup_count]. *)
Record scan_state : Type := {
  best_index : nat;
  scan_paired : list (list BamAlignment);
  scan_mates : list (list BamAlignment);
  scan_unpaired : list (list BamAlignment);
  scan_dup_count : Z
}.

(** Lines 105-110 and 116-121: keep [read_pairs[best_index]]. *)
Definition keep_best (i : nat) (read_pairs : list ReadPair) (c : scan_state) : scan_state :=
  let best := read_pairs !!! best_index c in
  if single_ended best
  then {| best_index := best_index c;
          scan_paired := scan_paired c;
          scan_mates := scan_mates c;
          scan_unpaired := push_back i (aln_one best) (scan_unpaired c);
          scan_dup_count := scan_dup_count c |}
  else {| best_index := best_index c;
          scan_paired := push_back i (aln_one best) (scan_paired c);
          scan_mates := push_back i (aln_two best) (scan_mates c);
          scan_unpaired := scan_unpaired c;
          scan_dup_count := scan_dup_count c |}.

Definition set_best_index (j : nat) (c : scan_state) : scan_state :=
  {| best_index := j;
     scan_paired := scan_paired c;
     scan_mates := scan_mates c;
     scan_unpaired := scan_unpaired c;
     scan_dup_count := scan_dup_count c |}.

Definition count_duplicate (c : scan_state) : scan_state :=
  {| best_index := best_index c;
     scan_paired := scan_paired c;
     scan_mates := scan_mates c;
     scan_unpaired := scan_unpaired c;
     scan_dup_count := incr32 (scan_dup_count c) |}.

Definition quality (p : ReadPair) : float :=
  sum_log_prob_correct base_quality (Qualities (aln_one p)).

(** Body of the loop over [j] (lines 96-112); [x > y] on doubles is
    [y <? x]. *)
Definition scan_step (i : nat) (read_pairs : list ReadPair) (c : scan_state) (j : nat)
    : scan_state :=
  if duplicate (read_pairs !!! j) (read_pairs !!! best_index c)
  then
    let c' := count_duplicate c in
    if (quality (read_pairs !!! best_index c) <? quality (read_pairs !!! j))%float
    then set_best_index j c'
    else c'
  else set_best_index j (keep_best i read_pairs c).

(** Lines 94-121. *)
Definition scan (i : nat) (read_pairs : list ReadPair) (c : scan_state) : scan_state :=
  keep_best i read_pairs
    (fold_left (scan_step i read_pairs) (seq 1 (length read_pairs - 1)) c).

(** Body of the loop over the read groups (lines 76-121). *)
Definition process_read_group (s : state) (i : nat) : result state :=
  (* the assertion of line 76 reads the two vectors only when it is checked *)
  _ ← (if NDEBUG then Ok tt
       else strs ← at_index (paired_strs_by_rg s) i;
            mates ← at_index (mate_pairs_by_rg s) i;
            assert NDEBUG (length strs =? length mates)%nat);
  strs ← at_index (paired_strs_by_rg s) i;
  acc1 ← for_each (add_paired i s) (seq 0 (length strs)) ([], rg_to_library s);
  unpaired ← at_index (unpaired_strs_by_rg s) i;
  acc2 ← for_each (add_unpaired i s) (seq 0 (length unpaired)) acc1;
  let read_pairs := std_sort acc2.1 in
  paired' ← clear i (paired_strs_by_rg s);
  mates' ← clear i (mate_pairs_by_rg s);
  unpaired' ← clear i (unpaired_strs_by_rg s);
  if (length read_pairs =? 0)%nat
  then Ok {| rg_to_library := acc2.2;
             paired_strs_by_rg := paired';
             mate_pairs_by_rg := mates';
             unpaired_strs_by_rg := unpaired';
             dup_count := dup_count s;
             logger := logger s |}
  else
    let c := scan i read_pairs
               {| best_index := 0;
                  scan_paired := paired';
                  scan_mates := mates';
                  scan_unpaired := unpaired';
                  scan_dup_count := dup_count s |} in
    Ok {| rg_to_library := acc2.2;
          paired_strs_by_rg := scan_paired c;
          mate_pairs_by_rg := scan_mates c;
          unpaired_strs_by_rg := scan_unpaired c;
          dup_count := scan_dup_count c;
          logger := logger s |}.

(** [remove_pcr_duplicates]; the state it returns holds the three vectors
    and the map as the caller finds them afterwards. *)
Definition remove_pcr_duplicates (rg_to_library : gmap string string)
    (paired_strs_by_rg mate_pairs_by_rg unpaired_strs_by_rg : list (list BamAlignment))
    (logger : list log_msg) : result state :=
  _ ← assert NDEBUG
        ((length paired_strs_by_rg =? length mate_pairs_by_rg)%nat
         && (length paired_strs_by_rg =? length unpaired_strs_by_rg)%nat);
  s ← for_each process_read_group (seq 0 (length paired_strs_by_rg))
        {| rg_to_library := rg_to_library;
           paired_strs_by_rg := paired_strs_by_rg;
           mate_pairs_by_rg := mate_pairs_by_rg;
           unpaired_strs_by_rg := unpaired_strs_by_rg;
           dup_count := 0;
           logger := logger |};
  Ok {| rg_to_library := PcrDuplicates.rg_to_library s;
        paired_strs_by_rg := PcrDuplicates.paired_strs_by_rg s;
        mate_pairs_by_rg := PcrDuplicates.mate_pairs_by_rg s;
        unpaired_strs_by_rg := PcrDuplicates.unpaired_strs_by_rg s;
        dup_count := dup_count s;
        logger := PcrDuplicates.logger s ++ [MsgRemovedDuplicates (dup_count s)] |}.

End RemovePcrDuplicates.

(** ** Notions the statements about duplicate removal use *)

(** The signature duplicates are compared by. *)
Definition signature (p : ReadPair) : string * Z * Z :=
  (library_ p, min_read_start_ p, max_read_start_ p).

(** Three-way comparison of signatures, of which [operator<] and
    [duplicate] are the "less" and "equal" cases. *)
Definition signature_compare (a b : ReadPair) : comparison :=
  match String.compare (library_ a) (library_ b) with
  | Eq =>
      match min_read_start_ a ?= min_read_start_ b with
      | Eq => max_read_start_ a ?= max_read_start_ b
      | c => c
      end
  | c => c
  end.

(** "Not after": the relation a sorted vector satisfies between an element
    and the next. *)
Definition not_after (a b : ReadPair) : Prop := ReadPair_lt b a = false.

Global Instance not_after_dec a b : Decision (not_after a b).
Proof. unfold not_after. apply _. Defined.

(** The pairs the scan keeps, in the order it keeps them, when it stands at
    [best] and still has [rest] to read. *)
Fixpoint retained_from (base_quality : BaseQuality) (best : ReadPair)
    (rest : list ReadPair) : list ReadPair :=
  match rest with
  | [] => [best]
  | p :: rest' =>
      if duplicate p best
      then retained_from base_quality
             (if (quality base_quality best <? quality base_quality p)%float then p else best)
             rest'
      else best :: retained_from base_quality p rest'
  end.

Definition retained (base_quality : BaseQuality) (read_pairs : list ReadPair) : list ReadPair :=
  match read_pairs with
  | [] => []
  | p :: rest => retained_from base_quality p rest
  end.

(** The number of times the scan counts a duplicate. *)
Fixpoint removed_from (base_quality : BaseQuality) (best : ReadPair)
    (rest : list ReadPair) : nat :=
  match rest with
  | [] => 0
  | p :: rest' =>
      if duplicate p best
      then S (removed_from base_quality
                (if (quality base_quality best <? quality base_quality p)%float then p else best)
                rest')
      else removed_from base_quality p rest'
  end.

(** What a list of kept pairs adds to the three vectors of a read group. *)
Definition paired_of (kept : list ReadPair) : list BamAlignment :=
  aln_one <$> filter (λ p, single_ended p = false) kept.
Definition mates_of (kept : list ReadPair) : list BamAlignment :=
  aln_two <$> filter (λ p, single_ended p = false) kept.
Definition unpaired_of (kept : list ReadPair) : list BamAlignment :=
  aln_one <$> filter (λ p, single_ended p = true) kept.

Definition append_row {A : Type} (i : nat) (l : list A) (v : list (list A)) : list (list A) :=
  alter (λ row, row ++ l) i v.

(** Where a pair handed to the scan comes from: an STR read and the mate at
    the same index, or an unpaired STR read. *)
Definition built_from (strs mates unpaired : list BamAlignment) (p : ReadPair) : Prop :=
  (∃ j aln_1 aln_2 library,
      strs !! j = Some aln_1 ∧ mates !! j = Some aln_2 ∧
      p = ReadPair_paired aln_1 aln_2 library)
  ∨ (∃ aln_1 library, aln_1 ∈ unpaired ∧ p = ReadPair_single aln_1 library).

(** What one iteration of the loop over the read groups does. *)
Definition group_post (std_sort : list ReadPair → list ReadPair)
    (base_quality : BaseQuality) (s s' : state) (i : nat) (strs mates unpaired : list BamAlignment)
    (built : list ReadPair) : Prop :=
  paired_strs_by_rg s !! i = Some strs
  ∧ mate_pairs_by_rg s !! i = Some mates
  ∧ unpaired_strs_by_rg s !! i = Some unpaired
  ∧ (length built = length strs + length unpaired)%nat
  ∧ Forall (built_from strs mates unpaired) built
  ∧ paired_strs_by_rg s' =
      <[i := paired_of (retained base_quality (std_sort built))]> (paired_strs_by_rg s)
  ∧ mate_pairs_by_rg s' =
      <[i := mates_of (retained base_quality (std_sort built))]> (mate_pairs_by_rg s)
  ∧ unpaired_strs_by_rg s' =
      <[i := unpaired_of (retained base_quality (std_sort built))]> (unpaired_strs_by_rg s)
  ∧ dup_count s' =
      Nat.iter (length (std_sort built) - length (retained base_quality (std_sort built)))
        incr32 (dup_count s)
  ∧ logger s' = logger s.

(** The state after the first [n] read groups, against the state [s0] the
    loop started from. *)
Definition groups_post (std_sort : list ReadPair → list ReadPair)
    (base_quality : BaseQuality) (s0 s : state) (n : nat) : Prop :=
  length (paired_strs_by_rg s) = length (paired_strs_by_rg s0)
  ∧ length (mate_pairs_by_rg s) = length (mate_pairs_by_rg s0)
  ∧ length (unpaired_strs_by_rg s) = length (unpaired_strs_by_rg s0)
  ∧ (∀ i, (n ≤ i)%nat →
       paired_strs_by_rg s !! i = paired_strs_by_rg s0 !! i
       ∧ mate_pairs_by_rg s !! i = mate_pairs_by_rg s0 !! i
       ∧ unpaired_strs_by_rg s !! i = unpaired_strs_by_rg s0 !! i)
  ∧ (∀ i, (i < n)%nat →
       ∃ strs mates unpaired built,
         paired_strs_by_rg s0 !! i = Some strs
         ∧ mate_pairs_by_rg s0 !! i = Some mates
         ∧ unpaired_strs_by_rg s0 !! i = Some unpaired
         ∧ Forall (built_from strs mates unpaired) built
         ∧ paired_strs_by_rg s !! i
           = Some (paired_of (retained base_quality (std_sort built)))
         ∧ mate_pairs_by_rg s !! i
           = Some (mates_of (retained base_quality (std_sort built)))
         ∧ unpaired_strs_by_rg s !! i
           = Some (unpaired_of (retained base_quality (std_sort built))))
  ∧ dup_count s =
      wrap32 (dup_count s0
              + count_reads (take n (paired_strs_by_rg s0))
              + count_reads (take n (unpaired_strs_by_rg s0))
              - count_reads (take n (paired_strs_by_rg s))
              - count_reads (take n (unpaired_strs_by_rg s)))
  ∧ count_reads (take n (paired_strs_by_rg s)) + count_reads (take n (unpaired_strs_by_rg s))
    ≤ count_reads (take n (paired_strs_by_rg s0))
      + count_reads (take n (unpaired_strs_by_rg s0))
  ∧ logger s = logger s0.

End PcrDuplicates.

(** * Per-locus analysis: GenotyperBamProcessor::analyze_reads_and_phasing *)

Module Genotyper.

(** [Region] is declared outside the two files; its accessors return
    [int32_t] ([start], [stop]) and [int] ([period]). *)
Record Region : Type := {
  chrom : string;
  start : Z;
  stop : Z;
  period : Z
}.

(** What the function does that is visible outside it, in order: lines
    written to the log, and calls to the collaborators whose code is outside
    the two files. *)
Inductive event : Type :=
| Log (msg : log_msg)
| FindStutterModel (region : Region)
| NewEMStutterGenotyper
| Train
| WriteModel
| SetStutterModel
| LengthGenotype
| LengthWriteVcfRecord
| NewSeqStutterGenotyper
| SeqWriteAlleles
| SeqGenotype
| SeqWriteVcfRecord.

Section AnalyzeReadsAndPhasing.

(** The collaborators.  [ExtractCigar] returns the value it stores in
    [bp_diff] when it returns true; [train] and the two [genotype] methods
    return their flag and the object as they leave it. *)
Variable StutterModel : Type.
Variable EMStutterGenotyper : Type.
Variable SeqStutterGenotyper : Type.
Variable ExtractCigar : list CigarOp → Z → Z → Z → option Z.
Variable new_EMStutterGenotyper :
  string → Z → Z → bool → list (list Z) → list (list float) → list (list float) →
  list string → Z → Z → EMStutterGenotyper.
Variable train : EMStutterGenotyper → Z → float → float → bool → bool * EMStutterGenotyper.
Variable get_stutter_model : EMStutterGenotyper → StutterModel.
Variable set_stutter_model : EMStutterGenotyper → StutterModel → EMStutterGenotyper.
Variable length_genotype : EMStutterGenotyper → bool → bool * EMStutterGenotyper.
Variable new_SeqStutterGenotyper :
  Region → bool → list (list BamAlignment) → list (list float) → list (list float) →
  list string → string → StutterModel → bool → SeqStutterGenotyper.
Variable seq_genotype : SeqStutterGenotyper → bool * SeqStutterGenotyper.

Variable NDEBUG : bool.

(** The members of the processor the function only reads.  The dictionary
    of stutter models is keyed by the coordinates of a region. *)
Record config : Type := {
  MIN_TOTAL_READS : Z;
  MAX_EM_ITER : Z;
  ABS_LL_CONVERGE : float;
  FRAC_LL_CONVERGE : float;
  read_stutter_models_ : bool;
  use_seq_aligner_ : bool;
  output_stutter_models_ : bool;
  output_alleles_ : bool;
  output_str_gts_ : bool;
  recalc_stutter_model_ : bool;
  have_ref_vcf_ : bool;
  haploid_chroms_ : gset string;
  stutter_models_ : gmap (string * Z * Z) StutterModel
}.

(** The members it writes: the four counters, and the streams and files it
    writes to, kept as one trace.  The [clock()] readings and the timing
    members computed from them are left out. *)
Record processor : Type := {
  num_em_converge_ : Z;
  num_em_fail_ : Z;
  num_genotype_success_ : Z;
  num_genotype_fail_ : Z;
  trace : list event
}.

Definition emit (ev : event) (p : processor) : processor :=
  {| num_em_converge_ := num_em_converge_ p;
     num_em_fail_ := num_em_fail_ p;
     num_genotype_success_ := num_genotype_success_ p;
     num_genotype_fail_ := num_genotype_fail_ p;
     trace := trace p ++ [ev] |}.

Definition incr_em_converge (p : processor) : processor :=
  {| num_em_converge_ := incr32 (num_em_converge_ p);
     num_em_fail_ := num_em_fail_ p;
     num_genotype_success_ := num_genotype_success_ p;
     num_genotype_fail_ := num_genotype_fail_ p;
     trace := trace p |}.

Definition incr_em_fail (p : processor) : processor :=
  {| num_em_converge_ := num_em_converge_ p;
     num_em_fail_ := incr32 (num_em_fail_ p);
     num_genotype_success_ := num_genotype_success_ p;
     num_genotype_fail_ := num_genotype_fail_ p;
     trace := trace p |}.

Definition incr_genotype_success (p : processor) : processor :=
  {| num_em_converge_ := num_em_converge_ p;
     num_em_fail_ := num_em_fail_ p;
     num_genotype_success_ := incr32 (num_genotype_success_ p);
     num_genotype_fail_ := num_genotype_fail_ p;
     trace := trace p |}.

Definition incr_genotype_fail (p : processor) : processor :=
  {| num_em_converge_ := num_em_converge_ p;
     num_em_fail_ := num_em_fail_ p;
     num_genotype_success_ := num_genotype_success_ p;
     num_genotype_fail_ := incr32 (num_genotype_fail_ p);
     trace := trace p |}.

(** Lines 12-14: [total_reads += alignments[i].size()]. *)
Definition count_total_reads (alignments : list (list BamAlignment)) : Z :=
  fold_left (λ total_reads row, wrap32 (total_reads + Z.of_nat (length row))) alignments 0.

(** The locals of lines 21-27, with the processor the warnings go to. *)
Record extraction : Type := {
  str_bp_lengths : list (list Z);
  str_log_p1s : list (list float);
  str_log_p2s : list (list float);
  inf_reads : Z;
  skip_count : Z;
  ex_processor : processor
}.

Definition extraction_init (n : nat) (p : processor) : extraction :=
  {| str_bp_lengths := replicate n [];
     str_log_p1s := replicate n [];
     str_log_p2s := replicate n [];
     inf_reads := 0;
     skip_count := 0;
     ex_processor := p |}.

(** [-(int)(region.stop()-region.start()+1)] *)
Definition min_bp_diff (region : Region) : Z :=
  wrap32 (- wrap32 (wrap32 (stop region - start region) + 1)).

(** Body of the loop over [j] (lines 31-48). *)
Definition extract_read (region : Region) (log_p1s log_p2s : list (list float))
    (i j : nat) (aln : BamAlignment) (e : extraction) : result extraction :=
  match ExtractCigar (CigarData aln) (Position aln)
          (wrap32 (start region - period region))
          (wrap32 (stop region + period region)) with
  | Some bp_diff =>
      if bp_diff <? min_bp_diff region
      then Ok {| str_bp_lengths := str_bp_lengths e;
                 str_log_p1s := str_log_p1s e;
                 str_log_p2s := str_log_p2s e;
                 inf_reads := inf_reads e;
                 skip_count := skip_count e;
                 ex_processor := emit (Log (MsgExcludingRead (Name aln))) (ex_processor e) |}
      else if (length log_p1s =? 0)%nat
      then Ok {| str_bp_lengths := push_back i bp_diff (str_bp_lengths e);
                 str_log_p1s := push_back i 0%float (str_log_p1s e);
                 str_log_p2s := push_back i 0%float (str_log_p2s e);
                 inf_reads := incr32 (inf_reads e);
                 skip_count := skip_count e;
                 ex_processor := ex_processor e |}
      else
        log_p1 ← at_index2 log_p1s i j;
        log_p2 ← at_index2 log_p2s i j;
        Ok {| str_bp_lengths := push_back i bp_diff (str_bp_lengths e);
              str_log_p1s := push_back i log_p1 (str_log_p1s e);
              str_log_p2s := push_back i log_p2 (str_log_p2s e);
              inf_reads := incr32 (inf_reads e);
              skip_count := skip_count e;
              ex_processor := ex_processor e |}
  | None =>
      Ok {| str_bp_lengths := str_bp_lengths e;
            str_log_p1s := str_log_p1s e;
            str_log_p2s := str_log_p2s e;
            inf_reads := inf_reads e;
            skip_count := incr32 (skip_count e);
            ex_processor := ex_processor e |}
  end.

(** Lines 28-51. *)
Definition extract_lengths (cfg : config) (region : Region)
    (alignments : list (list BamAlignment)) (log_p1s log_p2s : list (list float))
    (e : extraction) : result extraction :=
  if negb (read_stutter_models_ cfg) || negb (use_seq_aligner_ cfg)
  then
    for_each
      (λ e i,
         row ← at_index alignments i;
         for_each
           (λ e j, aln ← at_index2 alignments i j;
                   extract_read region log_p1s log_p2s i j aln e)
           (seq 0 (length row)) e)
      (seq 0 (length alignments)) e
  else Ok e.

(** Lines 12-56: the function either returns early or goes on with what it
    extracted. *)
Inductive prepared : Type :=
| Skipped (p : processor)
| Proceed (e : extraction).

Definition prepare_locus (cfg : config) (region : Region)
    (alignments : list (list BamAlignment)) (log_p1s log_p2s : list (list float))
    (rg_names : list string) (p : processor) : result prepared :=
  let total_reads := count_total_reads alignments in
  if total_reads <? MIN_TOTAL_READS cfg
  then Ok (Skipped (emit (Log (MsgSkippingLocus total_reads (MIN_TOTAL_READS cfg))) p))
  else
    _ ← assert NDEBUG
          ((length alignments =? length log_p1s)%nat
           && (length alignments =? length log_p2s)%nat
           && (length alignments =? length rg_names)%nat);
    e ← extract_lengths cfg region alignments log_p1s log_p2s
          (extraction_init (length alignments) p);
    if wrap32 (total_reads - skip_count e) <? MIN_TOTAL_READS cfg
    then Ok (Skipped (emit (Log (MsgSkippingLocus (wrap32 (total_reads - skip_count e))
                                   (MIN_TOTAL_READS cfg)))
                        (ex_processor e)))
    else Ok (Proceed e).

Definition new_length_genotyper (region : Region) (haploid : bool) (e : extraction)
    (rg_names : list string) : EMStutterGenotyper :=
  new_EMStutterGenotyper (chrom region) (start region) (stop region) haploid
    (str_bp_lengths e) (str_log_p1s e) (str_log_p2s e) rg_names (period region) 0.

(** Lines 59-90: the stutter model and the length genotyper, if any, and
    the processor afterwards. *)
Definition acquire_stutter_model (cfg : config) (region : Region) (haploid : bool)
    (e : extraction) (rg_names : list string)
    : option StutterModel * option EMStutterGenotyper * processor :=
  let p := ex_processor e in
  if read_stutter_models_ cfg
  then
    let p := emit (FindStutterModel region) p in
    match stutter_models_ cfg !! (chrom region, start region, stop region) with
    | Some model => (Some model, None, p)
    | None =>
        (None, None,
         emit (Log (MsgNoStutterModel (chrom region) (start region) (stop region))) p)
    end
  else
    let p := emit (Log MsgBuildingEM) p in
    let length_genotyper := new_length_genotyper region haploid e rg_names in
    let p := emit NewEMStutterGenotyper p in
    let p := emit (Log MsgTrainingEM) p in
    let '(trained, length_genotyper) :=
      train length_genotyper (MAX_EM_ITER cfg) (ABS_LL_CONVERGE cfg) (FRAC_LL_CONVERGE cfg)
        false in
    let p := emit Train p in
    if trained
    then
      let p := if output_stutter_models_ cfg then emit WriteModel p else p in
      let p := incr_em_converge p in
      (Some (get_stutter_model length_genotyper), Some length_genotyper,
       emit (Log MsgLearnedModel) p)
    else
      let p := incr_em_fail p in
      (None, Some length_genotyper,
       emit (Log (MsgTrainingFailed (chrom region) (start region) (stop region)
                    (inf_reads e))) p).

(** Lines 96-144: the block guarded by [stutter_model != NULL]. *)
Definition genotype_locus (cfg : config) (region : Region) (haploid : bool)
    (alignments : list (list BamAlignment)) (log_p1s log_p2s : list (list float))
    (rg_names : list string) (chrom_seq : string) (e : extraction)
    (stutter_model : StutterModel) (length_genotyper : option EMStutterGenotyper)
    (p : processor) : result processor :=
  if use_seq_aligner_ cfg
  then
    let seq_genotyper :=
      new_SeqStutterGenotyper region haploid alignments log_p1s log_p2s rg_names chrom_seq
        stutter_model (have_ref_vcf_ cfg) in
    let p := emit NewSeqStutterGenotyper p in
    let p := if output_alleles_ cfg then emit SeqWriteAlleles p else p in
    if output_str_gts_ cfg
    then
      let '(ok, seq_genotyper) := seq_genotype seq_genotyper in
      let p := emit SeqGenotype p in
      if ok
      then
        let p := incr_genotype_success p in
        let p := if output_str_gts_ cfg then emit SeqWriteVcfRecord p else p in
        if recalc_stutter_model_ cfg
        then printErrorAndDie "recalc_stutter_model option not yet implemented"
        else Ok p
      else Ok (incr_genotype_fail p)
    else Ok p
  else
    let '(length_genotyper, p) :=
      match length_genotyper with
      | Some g => (g, p)
      | None =>
          (set_stutter_model (new_length_genotyper region haploid e rg_names) stutter_model,
           emit SetStutterModel (emit NewEMStutterGenotyper p))
      end in
    if output_str_gts_ cfg
    then
      let '(ok, length_genotyper) := length_genotype length_genotyper false in
      let p := emit LengthGenotype p in
      if ok
      then
        let p := incr_genotype_success p in
        Ok (if output_str_gts_ cfg then emit LengthWriteVcfRecord p else p)
      else Ok (incr_genotype_fail p)
    else Ok p.

(** [GenotyperBamProcessor::analyze_reads_and_phasing] *)
Definition analyze_reads_and_phasing (cfg : config)
    (alignments : list (list BamAlignment)) (log_p1s log_p2s : list (list float))
    (rg_names : list string) (region : Region) (ref_allele chrom_seq : string)
    (p : processor) : result processor :=
  r ← prepare_locus cfg region alignments log_p1s log_p2s rg_names p;
  match r with
  | Skipped p => Ok p
  | Proceed e =>
      let haploid := bool_decide (chrom region ∈ haploid_chroms_ cfg) in
      let '(stutter_model, length_genotyper, p) :=
        acquire_stutter_model cfg region haploid e rg_names in
      p ← match stutter_model with
          | Some model =>
              genotype_locus cfg region haploid alignments log_p1s log_p2s rg_names chrom_seq
                e model length_genotyper p
          | None => Ok p
          end;
      Ok (emit (Log (MsgLocusTiming (bool_decide (is_Some stutter_model))
                       (bool_decide (is_Some stutter_model) && use_seq_aligner_ cfg))) p)
  end.

End AnalyzeReadsAndPhasing.

Arguments MIN_TOTAL_READS {StutterModel} c.
Arguments MAX_EM_ITER {StutterModel} c.
Arguments ABS_LL_CONVERGE {StutterModel} c.
Arguments FRAC_LL_CONVERGE {StutterModel} c.
Arguments read_stutter_models_ {StutterModel} c.
Arguments use_seq_aligner_ {StutterModel} c.
Arguments output_stutter_models_ {StutterModel} c.
Arguments output_alleles_ {StutterModel} c.
Arguments output_str_gts_ {StutterModel} c.
Arguments recalc_stutter_model_ {StutterModel} c.
Arguments have_ref_vcf_ {StutterModel} c.
Arguments haploid_chroms_ {StutterModel} c.
Arguments stutter_models_ {StutterModel} c.

(** The processor keeps its counters while lengths are extracted, and its
    trace only grows by warnings about excluded reads. *)
Definition only_warnings (p p' : processor) : Prop :=
  num_em_converge_ p' = num_em_converge_ p
  ∧ num_em_fail_ p' = num_em_fail_ p
  ∧ num_genotype_success_ p' = num_genotype_success_ p
  ∧ num_genotype_fail_ p' = num_genotype_fail_ p
  ∧ ∃ excluded, trace p' = trace p ++ ((λ name, Log (MsgExcludingRead name)) <$> excluded).

(** Without phasing log-likelihoods every length comes with two zeros. *)
Definition equal_likelihoods (e : extraction) : Prop :=
  ∀ i lengths,
    str_bp_lengths e !! i = Some lengths →
    str_log_p1s e !! i = Some (replicate (length lengths) 0%float)
    ∧ str_log_p2s e !! i = Some (replicate (length lengths) 0%float).

End Genotyper.

(** * Worked inputs

    A read group in which two pairs start at the same places and three
    unpaired reads at the same place, all of the library "lib1"; the summed
    log-probability of a read is minus the length of its quality string.
    [std::sort] is stdpp's merge sort here. *)

Import PcrDuplicates.

(** The number of duplicate sets among pairs of the given signatures, in
    the words of the specification: the signatures that more than one pair
    has. *)
Definition duplicate_sets (signatures : list (string * Z * Z)) : Z :=
  Z.of_nat (length (filter (λ sg, (1 < length (filter (λ sg', sg' = sg) signatures))%nat)
                      (remove_dups signatures))).

Module Examples.

Import PcrDuplicates Genotyper.

Definition std_sort : list ReadPair → list ReadPair := merge_sort not_after.

Definition base_quality : BaseQuality :=
  {| sum_log_prob_correct :=
       λ qualities, (- of_uint63 (Uint63.of_Z (Z.of_nat (String.length qualities))))%float |}.

Definition read (name : string) (position : Z) (qualities : string) (rg : option string)
  : BamAlignment :=
  {| Name := name; Position := position; Qualities := qualities;
     Filename := "sample.bam"; CigarData := []; RG := rg |}.

Definition rg_to_library : gmap string string := {[ "rg1"%string := "lib1"%string ]}.

Definition str_a := read "a" 5 "II" (Some "rg1"%string).
Definition str_b := read "b" 5 "I" (Some "rg1"%string).
Definition mate_a := read "a" 9 "II" (Some "rg1"%string).
Definition mate_b := read "b" 9 "I" (Some "rg1"%string).
Definition str_c := read "c" 7 "I" (Some "rg1"%string).
Definition str_d := read "d" 7 "I" (Some "rg1"%string).
Definition str_e := read "e" 7 "I" (Some "rg1"%string).
Definition untagged := read "u" 3 "I" None.


(** Collaborators: the length difference is minus the start position, the
    training never converges, both genotypers succeed. *)
Definition ExtractCigar (cigar : list CigarOp) (pos region_start region_stop : Z) : option Z :=
  Some (- pos).
Definition new_EMStutterGenotyper (chrom : string) (start stop : Z) (haploid : bool)
    (lengths : list (list Z)) (log_p1s log_p2s : list (list float)) (rg_names : list string)
    (period init : Z) : unit := tt.
Definition train (g : unit) (max_iter : Z) (abs_ll frac_ll : float) (flag : bool)
  : bool * unit := (false, g).
Definition get_stutter_model (g : unit) : unit := tt.
Definition set_stutter_model (g : unit) (model : unit) : unit := tt.
Definition length_genotype (g : unit) (use_pop_freqs : bool) : bool * unit := (true, g).
Definition new_SeqStutterGenotyper (region : Region) (haploid : bool)
    (alignments : list (list BamAlignment)) (log_p1s log_p2s : list (list float))
    (rg_names : list string) (chrom_seq : string) (model : unit) (panel : bool) : unit := tt.
Definition seq_genotype (g : unit) : bool * unit := (true, g).

Definition pair_a : ReadPair := ReadPair_paired str_a mate_a "lib1".
Definition pair_b : ReadPair := ReadPair_paired str_b mate_b "lib1".
Definition single_c : ReadPair := ReadPair_single str_c "lib1".

Definition scan0 : scan_state :=
  {| best_index := 0;
     scan_paired := [[]]; scan_mates := [[]]; scan_unpaired := [[]];
     scan_dup_count := 0 |}.

Definition region : Region := {| chrom := "chr1"; start := 10; stop := 13; period := 2 |}.

Definition cfg (min_total_reads : Z) (read_models seq_aligner : bool) : config unit :=
  {| MIN_TOTAL_READS := min_total_reads;
     MAX_EM_ITER := 100;
     ABS_LL_CONVERGE := 0.5%float;
     FRAC_LL_CONVERGE := 0.25%float;
     read_stutter_models_ := read_models;
     use_seq_aligner_ := seq_aligner;
     output_stutter_models_ := false;
     output_alleles_ := false;
     output_str_gts_ := true;
     recalc_stutter_model_ := false;
     have_ref_vcf_ := false;
     haploid_chroms_ := ∅;
     stutter_models_ := ∅ |}.

Definition processor0 : processor :=
  {| num_em_converge_ := 0; num_em_fail_ := 0;
     num_genotype_success_ := 0; num_genotype_fail_ := 0; trace := [] |}.

Definition at4 := read "r4" 4 "I" (Some "rg1"%string).
Definition at5 := read "r5" 5 "I" (Some "rg1"%string).

Definition extraction0 : extraction := extraction_init 1 processor0.

Definition extraction4 : extraction :=
  {| str_bp_lengths := [[-4]];
     str_log_p1s := [[(-1)%float]];
     str_log_p2s := [[(-2)%float]];
     inf_reads := 1;
     skip_count := 0;
     ex_processor := processor0 |}.

End Examples.

(** * Further notions

    What the further properties of the two functions are stated with. *)

(** The library [remove_pcr_duplicates] gives a read, read off the map it
    was called with: the library of the read group of the RG tag, or of the
    file name, and the empty library where [operator[]] finds none. *)
Definition library_of (use_bam_rgs : bool) (m : gmap string string) (aln : BamAlignment)
  : string :=
  if use_bam_rgs
  then match RG aln with
       | Some rg => default ""%string (m !! rg)
       | None => ""%string
       end
  else default ""%string (m !! Filename aln).

(** The vector [read_pairs] of a read group before it is sorted. *)
Definition read_pairs_of (use_bam_rgs : bool) (m : gmap string string)
    (strs mates unpaired : list BamAlignment) : list ReadPair :=
  zip_with (λ aln_1 aln_2, ReadPair_paired aln_1 aln_2 (library_of use_bam_rgs m aln_1))
    strs mates
  ++ ((λ aln_1, ReadPair_single aln_1 (library_of use_bam_rgs m aln_1)) <$> unpaired).

(** Two maps in which [operator[]] reads the same libraries. *)
Definition same_libraries (m m' : gmap string string) : Prop :=
  ∀ key, default ""%string (m' !! key) = default ""%string (m !! key).

(** What the two loops that build [read_pairs] do to the map. *)
Definition map_grows (use_bam_rgs : bool) (m0 m m' : gmap string string) (reads : list BamAlignment) : Prop :=
  same_libraries m0 m'
  ∧ m ⊆ m'
  ∧ (use_bam_rgs = true → m' = m)
  ∧ (use_bam_rgs = false → ∀ aln, aln ∈ reads → is_Some (m' !! Filename aln))
  ∧ (∀ key, is_Some (m' !! key) →
       is_Some (m !! key) ∨ ∃ aln, aln ∈ reads ∧ key = Filename aln).


(** The vector [read_pairs] of read group [i], and the number of pairs the
    scan discards from a vector once it is sorted. *)
Definition group_read_pairs (use_bam_rgs : bool) (m : gmap string string)
    (strs_by_rg mates_by_rg unpaired_by_rg : list (list BamAlignment)) (i : nat)
  : list ReadPair :=
  match strs_by_rg !! i, mates_by_rg !! i, unpaired_by_rg !! i with
  | Some strs, Some mates, Some unpaired => read_pairs_of use_bam_rgs m strs mates unpaired
  | _, _, _ => []
  end.

Definition discarded (std_sort : list ReadPair → list ReadPair) (base_quality : BaseQuality)
    (read_pairs : list ReadPair) : nat :=
  length (std_sort read_pairs) - length (retained base_quality (std_sort read_pairs)).

(** One iteration of the loop over the read groups, with the libraries read
    off the map [m0] the function was called with. *)
Definition group_exact (std_sort : list ReadPair → list ReadPair)
    (base_quality : BaseQuality) (use_bam_rgs : bool) (m0 : gmap string string)
    (s s' : state) (i : nat) (strs mates unpaired : list BamAlignment) : Prop :=
  let read_pairs := std_sort (read_pairs_of use_bam_rgs m0 strs mates unpaired) in
  paired_strs_by_rg s !! i = Some strs
  ∧ mate_pairs_by_rg s !! i = Some mates
  ∧ unpaired_strs_by_rg s !! i = Some unpaired
  ∧ (length strs ≤ length mates)%nat
  ∧ paired_strs_by_rg s' =
      <[i := paired_of (retained base_quality read_pairs)]> (paired_strs_by_rg s)
  ∧ mate_pairs_by_rg s' =
      <[i := mates_of (retained base_quality read_pairs)]> (mate_pairs_by_rg s)
  ∧ unpaired_strs_by_rg s' =
      <[i := unpaired_of (retained base_quality read_pairs)]> (unpaired_strs_by_rg s)
  ∧ dup_count s' =
      Nat.iter (discarded std_sort base_quality
                  (read_pairs_of use_bam_rgs m0 strs mates unpaired))
        incr32 (dup_count s)
  ∧ logger s' = logger s
  ∧ map_grows use_bam_rgs m0 (rg_to_library s) (rg_to_library s') (strs ++ unpaired).

(** The loop over the first [n] read groups. *)
Definition groups_exact (std_sort : list ReadPair → list ReadPair)
    (base_quality : BaseQuality) (use_bam_rgs : bool) (s0 s : state) (n : nat) : Prop :=
  let m0 := rg_to_library s0 in
  same_libraries m0 (rg_to_library s)
  ∧ m0 ⊆ rg_to_library s
  ∧ (use_bam_rgs = true → rg_to_library s = m0)
  ∧ logger s = logger s0
  ∧ (∀ i, (i < n)%nat →
       ∃ strs mates unpaired,
         let read_pairs := std_sort (read_pairs_of use_bam_rgs m0 strs mates unpaired) in
         paired_strs_by_rg s0 !! i = Some strs
         ∧ mate_pairs_by_rg s0 !! i = Some mates
         ∧ unpaired_strs_by_rg s0 !! i = Some unpaired
         ∧ (length strs ≤ length mates)%nat
         ∧ paired_strs_by_rg s !! i = Some (paired_of (retained base_quality read_pairs))
         ∧ mate_pairs_by_rg s !! i = Some (mates_of (retained base_quality read_pairs))
         ∧ unpaired_strs_by_rg s !! i = Some (unpaired_of (retained base_quality read_pairs))
         ∧ (use_bam_rgs = false →
            ∀ aln, aln ∈ strs ++ unpaired → is_Some (rg_to_library s !! Filename aln)))
  ∧ (∀ key, is_Some (rg_to_library s !! key) →
       is_Some (m0 !! key)
       ∨ ∃ i strs unpaired aln,
           (i < n)%nat
           ∧ paired_strs_by_rg s0 !! i = Some strs
           ∧ unpaired_strs_by_rg s0 !! i = Some unpaired
           ∧ aln ∈ strs ++ unpaired ∧ key = Filename aln)
  ∧ dup_count s =
      Nat.iter
        (sum_list ((λ i, discarded std_sort base_quality
                           (group_read_pairs use_bam_rgs m0 (paired_strs_by_rg s0)
                              (mate_pairs_by_rg s0) (unpaired_strs_by_rg s0) i))
                   <$> seq 0 n))
        incr32 (dup_count s0).

(** A read for which line 80 or 84 finds a library without ending the run:
    with [use_bam_rgs] it has an RG tag and its read group an entry in the
    map; without, [operator[]] always gives one. *)
Definition has_library (use_bam_rgs : bool) (m : gmap string string) (aln : BamAlignment)
  : Prop :=
  use_bam_rgs = true → ∃ rg library, RG aln = Some rg ∧ m !! rg = Some library.

(** Vectors of the sizes the assertions of lines 74 and 76 ask for. *)
Definition well_sized (strs_by_rg mates_by_rg unpaired_by_rg : list (list BamAlignment))
  : Prop :=
  length strs_by_rg = length mates_by_rg
  ∧ length strs_by_rg = length unpaired_by_rg
  ∧ Forall2 (λ strs mates, length strs = length mates) strs_by_rg mates_by_rg.

(** ** Notions the further statements about the analysis of a locus use *)

Section ExtractionNotions.

Import Genotyper.

Variable ExtractCigar : list CigarOp → Z → Z → Z → option Z.

(** What line 32 stores in [bp_diff] for a read, where [ExtractCigar]
    returns true. *)
Definition bp_diff_of (region : Region) (aln : BamAlignment) : option Z :=
  ExtractCigar (CigarData aln) (Position aln)
    (wrap32 (start region - period region)) (wrap32 (stop region + period region)).

(** The three ways through the body of the loop (lines 33-48): the read
    gives a length, is excluded with a warning, or is skipped. *)
Definition informative (region : Region) (aln : BamAlignment) : option Z :=
  match bp_diff_of region aln with
  | Some bp_diff => if bp_diff <? min_bp_diff region then None else Some bp_diff
  | None => None
  end.

Definition excluded (region : Region) (aln : BamAlignment) : bool :=
  match bp_diff_of region aln with
  | Some bp_diff => bp_diff <? min_bp_diff region
  | None => false
  end.

Definition without_size (region : Region) (aln : BamAlignment) : bool :=
  match bp_diff_of region aln with
  | Some _ => false
  | None => true
  end.

(** The lengths line 39 pushes for the reads of a row, and the indices below
    [n] of the reads that give one. *)
Definition lengths_of (region : Region) (row : list BamAlignment) : list Z :=
  omap (informative region) row.

Definition informative_indices (region : Region) (row : list BamAlignment) (n : nat)
  : list nat :=
  filter (λ j, is_Some (row !! j ≫= informative region)) (seq 0 n).

(** Lines 40-45: the value pushed for read [j] of read group [i] from a
    vector of phasing log-likelihoods; the test is on [log_p1s] for both
    vectors. *)
Definition phase_of (log_p1s log_ps : list (list float)) (i j : nat) (log_p : float)
  : Prop :=
  if (length log_p1s =? 0)%nat then log_p = 0%float
  else log_ps !! i ≫= (.!! j) = Some log_p.

Definition excluded_warnings (region : Region) (reads : list BamAlignment) : list event :=
  (λ aln, Log (MsgExcludingRead (Name aln)))
    <$> filter (λ aln, excluded region aln = true) reads.

(** The extraction after the first [n] reads of row [i], from the
    extraction before the row. *)
Definition extracted (region : Region) (log_p1s log_p2s : list (list float))
    (row : list BamAlignment) (i n : nat) (e e' : extraction) : Prop :=
  ∃ new1 new2,
    str_bp_lengths e'
    = alter (λ lengths, lengths ++ omap (informative region) (take n row)) i
        (str_bp_lengths e)
    ∧ str_log_p1s e' = alter (λ log_ps, log_ps ++ new1) i (str_log_p1s e)
    ∧ str_log_p2s e' = alter (λ log_ps, log_ps ++ new2) i (str_log_p2s e)
    ∧ Forall2 (phase_of log_p1s log_p1s i) (informative_indices region row n) new1
    ∧ Forall2 (phase_of log_p1s log_p2s i) (informative_indices region row n) new2
    ∧ inf_reads e'
      = Nat.iter (length (omap (informative region) (take n row))) incr32 (inf_reads e)
    ∧ skip_count e'
      = Nat.iter (length (filter (λ aln, without_size region aln = true) (take n row)))
          incr32 (skip_count e)
    ∧ trace (ex_processor e')
      = trace (ex_processor e) ++ excluded_warnings region (take n row).

End ExtractionNotions.

Section TraceNotions.

Import Genotyper.

(** Kinds of entries of the trace: what the sequence-based genotyper does,
    what is done to genotype by length, what the training does, what is
    done with a model of the dictionary, and the writing of a VCF record
    with genotypes. *)
Definition seq_genotyper_event (ev : event) : bool :=
  match ev with
  | NewSeqStutterGenotyper | SeqWriteAlleles | SeqGenotype | SeqWriteVcfRecord => true
  | _ => false
  end.

Definition length_genotyping_event (ev : event) : bool :=
  match ev with
  | SetStutterModel | LengthGenotype | LengthWriteVcfRecord => true
  | _ => false
  end.

Definition training_event (ev : event) : bool :=
  match ev with
  | Train | WriteModel
  | Log MsgBuildingEM | Log MsgTrainingEM | Log MsgLearnedModel
  | Log (MsgTrainingFailed _ _ _ _) => true
  | _ => false
  end.

Definition loaded_model_event (ev : event) : bool :=
  match ev with
  | FindStutterModel _ | Log (MsgNoStutterModel _ _ _) | SetStutterModel => true
  | _ => false
  end.

Definition genotypes_record_event (ev : event) : bool :=
  match ev with
  | SeqWriteVcfRecord | LengthWriteVcfRecord => true
  | _ => false
  end.

(** A trace without entries of a kind. *)
Definition without (kind : event → bool) (evs : list event) : Prop :=
  Forall (λ ev, kind ev = false) evs.

(** The counters after a run that changes none of them. *)
Definition same_counters (p p' : processor) : Prop :=
  num_em_converge_ p' = num_em_converge_ p
  ∧ num_em_fail_ p' = num_em_fail_ p
  ∧ num_genotype_success_ p' = num_genotype_success_ p
  ∧ num_genotype_fail_ p' = num_genotype_fail_ p.

(** Two counters of which at most one is incremented, once. *)
Definition at_most_one_incremented (a a' b b' : Z) : Prop :=
  (a' = a ∧ b' = b) ∨ (a' = incr32 a ∧ b' = b) ∨ (a' = a ∧ b' = incr32 b).

(** The line the function ends its log with. *)
Definition closing_line (msg : log_msg) : bool :=
  match msg with
  | MsgSkippingLocus _ _ | MsgLocusTiming _ _ => true
  | _ => false
  end.

End TraceNotions.

(** * Further worked inputs *)

Module MoreExamples.

Import PcrDuplicates Genotyper Examples.

(** One read group: two pairs of one signature, three unpaired reads of
    another; and what duplicate removal returns for it, with the library
    looked up by read group and by file name. *)
Definition strs_by_rg : list (list BamAlignment) := [[str_a; str_b]].
Definition mates_by_rg : list (list BamAlignment) := [[mate_a; mate_b]].
Definition unpaired_by_rg : list (list BamAlignment) := [[str_c; str_d; str_e]].

Definition out_by_rg : state :=
  {| PcrDuplicates.rg_to_library := rg_to_library;
     paired_strs_by_rg := [[str_b]];
     mate_pairs_by_rg := [[mate_b]];
     unpaired_strs_by_rg := [[str_e]];
     dup_count := 3;
     logger := [MsgRemovedDuplicates 3] |}.

Definition out_by_file : state :=
  {| PcrDuplicates.rg_to_library := {[ "sample.bam"%string := ""%string ]};
     paired_strs_by_rg := [[str_b]];
     mate_pairs_by_rg := [[mate_b]];
     unpaired_strs_by_rg := [[str_e]];
     dup_count := 3;
     logger := [MsgRemovedDuplicates 3] |}.

(** What a second pass returns. *)
Definition out_again : state :=
  {| PcrDuplicates.rg_to_library := rg_to_library;
     paired_strs_by_rg := [[str_b]];
     mate_pairs_by_rg := [[mate_b]];
     unpaired_strs_by_rg := [[str_e]];
     dup_count := 0;
     logger := [MsgRemovedDuplicates 0] |}.

(** Two read groups without duplicates, the second one empty. *)
Definition out_distinct : state :=
  {| PcrDuplicates.rg_to_library := rg_to_library;
     paired_strs_by_rg := [[str_a]; []];
     mate_pairs_by_rg := [[mate_a]; []];
     unpaired_strs_by_rg := [[str_c]; []];
     dup_count := 0;
     logger := [MsgRemovedDuplicates 0] |}.

(** A pair whose STR read starts at -1. *)
Definition str_m := read "m" (-1) "I" (Some "rg1"%string).

Definition out_unmapped : state :=
  {| PcrDuplicates.rg_to_library := rg_to_library;
     paired_strs_by_rg := [[]];
     mate_pairs_by_rg := [[]];
     unpaired_strs_by_rg := [[str_m]];
     dup_count := 0;
     logger := [MsgRemovedDuplicates 0] |}.

(** An [ExtractCigar] that gives no size for a read that starts before 0. *)
Definition ExtractCigar_mapped (cigar : list CigarOp) (pos region_start region_stop : Z)
  : option Z :=
  if pos <? 0 then None else Some (- pos).

(** A processor that reads its models from a dictionary with a model for
    [region]. *)
Definition cfg_loaded (seq_aligner recalc : bool) : config unit :=
  {| MIN_TOTAL_READS := 1;
     MAX_EM_ITER := 100;
     ABS_LL_CONVERGE := 0.5%float;
     FRAC_LL_CONVERGE := 0.25%float;
     read_stutter_models_ := true;
     use_seq_aligner_ := seq_aligner;
     output_stutter_models_ := false;
     output_alleles_ := true;
     output_str_gts_ := true;
     recalc_stutter_model_ := recalc;
     have_ref_vcf_ := false;
     haploid_chroms_ := ∅;
     stutter_models_ := {[ ("chr1"%string, 10, 13) := tt ]} |}.

(** The phasing log-likelihoods of a read group of two reads, and what the
    extraction makes of the reads [at4] and [at5] with them. *)
Definition log_p1s : list (list float) := [[(-1)%float; (-3)%float]].
Definition log_p2s : list (list float) := [[(-2)%float; (-4)%float]].

Definition extraction45 : extraction :=
  {| str_bp_lengths := [[-4]];
     str_log_p1s := [[(-1)%float]];
     str_log_p2s := [[(-2)%float]];
     inf_reads := 1;
     skip_count := 0;
     ex_processor :=
       {| num_em_converge_ := 0; num_em_fail_ := 0;
          num_genotype_success_ := 0; num_genotype_fail_ := 0;
          trace := [Log (MsgExcludingRead "r5")] |} |}.

(** The extraction of [at4] and [str_m], for which there is no size. *)
Definition extraction4m : extraction :=
  {| str_bp_lengths := [[-4]];
     str_log_p1s := [[(-1)%float]];
     str_log_p2s := [[(-2)%float]];
     inf_reads := 1;
     skip_count := 1;
     ex_processor := processor0 |}.

(** The collaborators of [Examples] as one call. *)
Definition analyze (cfg : config unit) (alignments : list (list BamAlignment))
    (log_p1s log_p2s : list (list float)) : result processor :=
  analyze_reads_and_phasing unit unit unit ExtractCigar new_EMStutterGenotyper train
    get_stutter_model set_stutter_model length_genotype new_SeqStutterGenotyper seq_genotype
    false cfg alignments log_p1s log_p2s ["rg1"%string] region "" "" processor0.

End MoreExamples.

(** * Reasoning about outcomes *)

Lemma bind_Ok {A B} (r : result A) (k : A → result B) b :
  r ≫= k = Ok b → ∃ a, r = Ok a ∧ k a = Ok b.
Proof. destruct r; simpl; try done. eauto. Qed.

Lemma at_index_Ok {A} (v : list A) i a : at_index v i = Ok a ↔ v !! i = Some a.
Proof. unfold at_index. destruct (v !! i); split; congruence. Qed.

Lemma for_each_app {A S} (body : S → A → result S) l1 l2 s :
  for_each body (l1 ++ l2) s = (for_each body l1 s ≫= for_each body l2).
Proof.
  revert s. induction l1 as [|a l1 IH]; intros s; simpl; [done|].
  destruct (body s a); simpl; auto.
Qed.

Lemma wrap32_range z : int32_range (wrap32 z).
Proof.
  unfold int32_range, wrap32.
  pose proof (Z.mod_pos_bound (z + 2 ^ 31) (2 ^ 32)). lia.
Qed.

Lemma wrap32_id z : int32_range z → wrap32 z = z.
Proof. unfold int32_range, wrap32. intros H. rewrite Z.mod_small; lia. Qed.

Lemma wrap32_add_l a b : wrap32 (wrap32 a + b) = wrap32 (a + b).
Proof.
  unfold wrap32.
  replace (((a + 2 ^ 31) mod 2 ^ 32 - 2 ^ 31 + b + 2 ^ 31))
    with ((a + 2 ^ 31) mod 2 ^ 32 + b) by lia.
  rewrite Zplus_mod_idemp_l. f_equal. f_equal. lia.
Qed.

Lemma iter_incr32 n z : int32_range z → Nat.iter n incr32 z = wrap32 (z + Z.of_nat n).
Proof.
  intros Hz. induction n as [|n IH].
  - simpl. rewrite Z.add_0_r. by rewrite wrap32_id.
  - rewrite Nat.iter_succ, IH. unfold incr32. rewrite wrap32_add_l. f_equal. lia.
Qed.

(** * Properties of duplicate removal *)

Import PcrDuplicates.

Section ScanFacts.

Variable base_quality : BaseQuality.
Variable i : nat.

Lemma append_row_nil {A} (v : list (list A)) : append_row i [] v = v.
Proof. unfold append_row. apply list_alter_id. intros row. by rewrite app_nil_r. Qed.

Lemma append_row_app {A} (l1 l2 : list A) v :
  append_row i (l1 ++ l2) v = append_row i l2 (append_row i l1 v).
Proof.
  unfold append_row. rewrite list_alter_alter_eq.
  apply list_alter_ext; [|done]. intros row _. simpl. by rewrite app_assoc.
Qed.

Lemma push_back_append_row {A} (x : A) v : push_back i x v = append_row i [x] v.
Proof. done. Qed.

Lemma keep_best_spec read_pairs c :
  let best := read_pairs !!! best_index c in
  keep_best i read_pairs c =
    {| best_index := best_index c;
       scan_paired := append_row i (paired_of [best]) (scan_paired c);
       scan_mates := append_row i (mates_of [best]) (scan_mates c);
       scan_unpaired := append_row i (unpaired_of [best]) (scan_unpaired c);
       scan_dup_count := scan_dup_count c |}.
Proof.
  intros best. unfold keep_best, paired_of, mates_of, unpaired_of. fold best.
  rewrite !filter_cons, !filter_nil.
  destruct (single_ended best) eqn:E; simpl;
    repeat (case_decide; try congruence); simpl;
    by rewrite ?append_row_nil, ?push_back_append_row.
Qed.

Lemma paired_of_cons p kept : paired_of (p :: kept) = paired_of [p] ++ paired_of kept.
Proof. unfold paired_of. by rewrite <- fmap_app, <- filter_app. Qed.
Lemma mates_of_cons p kept : mates_of (p :: kept) = mates_of [p] ++ mates_of kept.
Proof. unfold mates_of. by rewrite <- fmap_app, <- filter_app. Qed.
Lemma unpaired_of_cons p kept : unpaired_of (p :: kept) = unpaired_of [p] ++ unpaired_of kept.
Proof. unfold unpaired_of. by rewrite <- fmap_app, <- filter_app. Qed.

(** The loop of the scan, started anywhere in the vector, followed by the
    final [keep_best], adds the pairs of [retained_from] and counts the
    duplicates of [removed_from]. *)
Lemma scan_loop_spec rest : ∀ done c,
  (best_index c < length done)%nat →
  let read_pairs := done ++ rest in
  let best := read_pairs !!! best_index c in
  let c' := keep_best i read_pairs
              (fold_left (scan_step base_quality i read_pairs)
                 (seq (length done) (length rest)) c) in
  scan_paired c' = append_row i (paired_of (retained_from base_quality best rest)) (scan_paired c)
  ∧ scan_mates c' = append_row i (mates_of (retained_from base_quality best rest)) (scan_mates c)
  ∧ scan_unpaired c' =
      append_row i (unpaired_of (retained_from base_quality best rest)) (scan_unpaired c)
  ∧ scan_dup_count c' =
      Nat.iter (removed_from base_quality best rest) incr32 (scan_dup_count c).
Proof.
  induction rest as [|p rest IH]; intros done c Hlt.
  - simpl. rewrite keep_best_spec. simpl. done.
  - intros read_pairs best c'.
    assert (Hp : read_pairs !!! length done = p).
    { unfold read_pairs. by rewrite list_lookup_total_middle. }
    assert (Heq : read_pairs = (done ++ [p]) ++ rest).
    { unfold read_pairs. by rewrite <- app_assoc. }
    pose (c1 := scan_step base_quality i read_pairs c (length done)).
    assert (Hc' : c' = keep_best i ((done ++ [p]) ++ rest)
              (fold_left (scan_step base_quality i ((done ++ [p]) ++ rest))
                 (seq (length (done ++ [p])) (length rest)) c1)).
    { unfold c', c1. rewrite <- Heq. rewrite length_app. simpl.
      by rewrite Nat.add_1_r. }
    assert (Hlt1 : (best_index c1 < length (done ++ [p]))%nat).
    { rewrite length_app. simpl. unfold c1, scan_step.
      repeat case_match; simpl; lia. }
    specialize (IH (done ++ [p]) c1 Hlt1). simpl in IH. rewrite <- Hc', <- Heq in IH.
    destruct IH as (IH1 & IH2 & IH3 & IH4).
    rewrite IH1, IH2, IH3, IH4. clear IH1 IH2 IH3 IH4 Hc'.
    simpl. unfold c1, scan_step. rewrite Hp. fold best.
    destruct (duplicate p best) eqn:Hd.
    + destruct (quality base_quality best <? quality base_quality p)%float eqn:Hq;
        simpl; rewrite ?Hp; fold best; rewrite <- ?Nat.iter_succ_r; done.
    + simpl. rewrite Hp, keep_best_spec. simpl. fold best.
      rewrite (paired_of_cons best (retained_from _ _ _)),
        (mates_of_cons best (retained_from _ _ _)),
        (unpaired_of_cons best (retained_from _ _ _)).
      by rewrite !append_row_app.
Qed.

Lemma scan_spec p rest c :
  best_index c = 0%nat →
  let c' := scan base_quality i (p :: rest) c in
  scan_paired c' = append_row i (paired_of (retained base_quality (p :: rest))) (scan_paired c)
  ∧ scan_mates c' = append_row i (mates_of (retained base_quality (p :: rest))) (scan_mates c)
  ∧ scan_unpaired c' =
      append_row i (unpaired_of (retained base_quality (p :: rest))) (scan_unpaired c)
  ∧ scan_dup_count c' = Nat.iter (removed_from base_quality p rest) incr32 (scan_dup_count c).
Proof.
  intros Hb. pose proof (scan_loop_spec rest [p] c) as H. simpl in H.
  rewrite Hb in H. simpl in H. unfold scan. simpl. rewrite Nat.sub_0_r.
  apply H. lia.
Qed.

End ScanFacts.

(** ** The order of [ReadPair::operator<] *)

Section OrderFacts.

Lemma ascii_compare_eq a b : Ascii.compare a b = Eq → a = b.
Proof. apply Ascii.compare_eq_iff. Qed.

Lemma ascii_compare_lt_trans a b c :
  Ascii.compare a b = Lt → Ascii.compare b c = Lt → Ascii.compare a c = Lt.
Proof.
  unfold Ascii.compare. rewrite !N.compare_lt_iff. apply N.lt_trans.
Qed.

Lemma ascii_compare_refl a : Ascii.compare a a = Eq.
Proof. unfold Ascii.compare. apply N.compare_refl. Qed.

Lemma string_compare_refl s : String.compare s s = Eq.
Proof. induction s as [|a s IH]; simpl; [done|]. by rewrite ascii_compare_refl. Qed.

Lemma string_compare_lt_trans s1 : ∀ s2 s3,
  String.compare s1 s2 = Lt → String.compare s2 s3 = Lt → String.compare s1 s3 = Lt.
Proof.
  induction s1 as [|a s1 IH]; intros [|b s2] [|c s3]; simpl; try done.
  destruct (Ascii.compare a b) eqn:Hab; try done;
    destruct (Ascii.compare b c) eqn:Hbc; try done; intros H1 H2.
  - apply ascii_compare_eq in Hab, Hbc. subst.
    rewrite ascii_compare_refl. eauto.
  - apply ascii_compare_eq in Hab. subst. by rewrite Hbc.
  - apply ascii_compare_eq in Hbc. subst. by rewrite Hab.
  - by rewrite (ascii_compare_lt_trans a b c).
Qed.

Lemma ReadPair_lt_compare a b :
  ReadPair_lt a b = match signature_compare a b with Lt => true | _ => false end.
Proof.
  unfold ReadPair_lt, signature_compare.
  destruct (String.compare _ _); try done.
  destruct (Z.compare_spec (min_read_start_ a) (min_read_start_ b)) as [E|E|E].
  - rewrite E, Z.eqb_refl. simpl.
    destruct (Z.compare_spec (max_read_start_ a) (max_read_start_ b)); lia.
  - destruct (Z.eqb_spec (min_read_start_ a) (min_read_start_ b)); simpl; lia.
  - destruct (Z.eqb_spec (min_read_start_ a) (min_read_start_ b)); simpl; lia.
Qed.

Lemma duplicate_compare a b :
  duplicate a b = match signature_compare a b with Eq => true | _ => false end.
Proof.
  unfold duplicate, signature_compare.
  destruct (String.compare _ _); try done. simpl.
  destruct (Z.compare_spec (min_read_start_ a) (min_read_start_ b)) as [E|E|E].
  - rewrite E, Z.eqb_refl. simpl.
    destruct (Z.compare_spec (max_read_start_ a) (max_read_start_ b)); lia.
  - destruct (Z.eqb_spec (min_read_start_ a) (min_read_start_ b)); simpl; lia.
  - destruct (Z.eqb_spec (min_read_start_ a) (min_read_start_ b)); simpl; lia.
Qed.

Lemma signature_compare_eq a b : signature_compare a b = Eq ↔ signature a = signature b.
Proof.
  unfold signature_compare, signature. split.
  - destruct (String.compare _ _) eqn:Hl; try done.
    apply String.compare_eq_iff in Hl.
    destruct (Z.compare_spec (min_read_start_ a) (min_read_start_ b)); try done.
    intros ?%Z.compare_eq. congruence.
  - intros [= -> -> ->]. by rewrite string_compare_refl, !Z.compare_refl.
Qed.

Lemma signature_compare_antisym a b :
  signature_compare a b = CompOpp (signature_compare b a).
Proof.
  unfold signature_compare. rewrite String.compare_antisym.
  destruct (String.compare (library_ b) (library_ a)); simpl; try done.
  rewrite (Z.compare_antisym (min_read_start_ b)).
  destruct (min_read_start_ b ?= min_read_start_ a); simpl; try done.
  apply Z.compare_antisym.
Qed.

Lemma signature_compare_lt_trans a b c :
  signature_compare a b = Lt → signature_compare b c = Lt → signature_compare a c = Lt.
Proof.
  unfold signature_compare.
  destruct (String.compare (library_ a) (library_ b)) eqn:Hab; try done;
    destruct (String.compare (library_ b) (library_ c)) eqn:Hbc; try done.
  - apply String.compare_eq_iff in Hab, Hbc. rewrite Hab, Hbc, string_compare_refl.
    destruct (Z.compare_spec (min_read_start_ a) (min_read_start_ b)),
      (Z.compare_spec (min_read_start_ b) (min_read_start_ c)),
      (Z.compare_spec (min_read_start_ a) (min_read_start_ c));
      intros Hlt1 Hlt2; try discriminate; try done; try (exfalso; lia);
      rewrite ?Z.compare_lt_iff in *; lia.
  - apply String.compare_eq_iff in Hab. by rewrite Hab, Hbc.
  - apply String.compare_eq_iff in Hbc. by rewrite <- Hbc, Hab.
  - by rewrite (string_compare_lt_trans _ _ _ Hab Hbc).
Qed.

Lemma signature_compare_signature a a' b b' :
  signature a = signature a' → signature b = signature b' →
  signature_compare a b = signature_compare a' b'.
Proof. unfold signature, signature_compare. by intros [= -> -> ->] [= -> -> ->]. Qed.

Lemma duplicate_signature a b : duplicate a b = true ↔ signature a = signature b.
Proof.
  rewrite duplicate_compare, <- signature_compare_eq.
  by destruct (signature_compare a b).
Qed.

Lemma duplicate_false_signature a b : duplicate a b = false ↔ signature a ≠ signature b.
Proof.
  rewrite <- duplicate_signature. by destruct (duplicate a b).
Qed.

Lemma not_after_compare a b : not_after a b ↔ signature_compare a b ≠ Gt.
Proof.
  unfold not_after. rewrite ReadPair_lt_compare, (signature_compare_antisym b a).
  by destruct (signature_compare a b).
Qed.

Global Instance not_after_trans : Transitive not_after.
Proof.
  intros a b c. rewrite !not_after_compare. intros Hab Hbc.
  destruct (signature_compare a b) eqn:E1; try done.
  - apply signature_compare_eq in E1.
    by rewrite (signature_compare_signature a b c c).
  - destruct (signature_compare b c) eqn:E2; try done.
    + apply signature_compare_eq in E2.
      by rewrite (signature_compare_signature a a c b), E1.
    + by rewrite (signature_compare_lt_trans a b c).
Qed.

Global Instance not_after_total : Total not_after.
Proof.
  intros a b. rewrite !not_after_compare, (signature_compare_antisym b a).
  destruct (signature_compare a b); simpl; auto.
Qed.

Lemma not_after_refl a : not_after a a.
Proof. by destruct (total not_after a a). Qed.

Lemma not_after_antisym a b : not_after a b → not_after b a → signature a = signature b.
Proof.
  rewrite !not_after_compare, (signature_compare_antisym b a), <- signature_compare_eq.
  by destruct (signature_compare a b).
Qed.

End OrderFacts.

(** ** What the scan keeps *)

Section RetainedFacts.

Variable base_quality : BaseQuality.

Lemma retained_from_elem rest : ∀ best x,
  x ∈ retained_from base_quality best rest → x ∈ best :: rest.
Proof.
  induction rest as [|p rest IH]; intros best x; simpl.
  - done.
  - destruct (duplicate p best).
    + intros H. apply IH in H. rewrite !elem_of_cons.
      destruct (_ <? _)%float; apply elem_of_cons in H as [->|H]; auto.
    + rewrite !elem_of_cons. intros [->|H]; [auto|].
      apply IH, elem_of_cons in H as [->|H]; auto.
Qed.

Lemma retained_elem read_pairs x :
  x ∈ retained base_quality read_pairs → x ∈ read_pairs.
Proof. destruct read_pairs; simpl; [done|]. apply retained_from_elem. Qed.

Lemma retained_from_length rest : ∀ best,
  (length (retained_from base_quality best rest) + removed_from base_quality best rest
   = S (length rest))%nat.
Proof.
  induction rest as [|p rest IH]; intros best; simpl; [done|].
  destruct (duplicate p best); simpl.
  - rewrite Nat.add_succ_r. by rewrite IH.
  - by rewrite IH.
Qed.

Lemma kept_length kept :
  (length (paired_of kept) + length (unpaired_of kept) = length kept)%nat.
Proof.
  unfold paired_of, unpaired_of. rewrite !length_fmap.
  induction kept as [|p kept IH]; [done|].
  rewrite !filter_cons. destruct (single_ended p);
    repeat (case_decide; try congruence); simpl; lia.
Qed.

Lemma mates_of_length kept : length (mates_of kept) = length (paired_of kept).
Proof. unfold mates_of, paired_of. by rewrite !length_fmap. Qed.

(** In a sorted vector the kept pairs have pairwise different signatures. *)
Lemma retained_from_NoDup rest : ∀ best,
  Forall (not_after best) rest → StronglySorted not_after rest →
  NoDup (signature <$> retained_from base_quality best rest).
Proof.
  induction rest as [|p rest IH]; intros best Hbest Hsorted; simpl.
  - apply NoDup_singleton.
  - apply Forall_cons in Hbest as [Hp Hbest].
    apply StronglySorted_inv in Hsorted as [Hsorted Hrest].
    destruct (duplicate p best) eqn:Hd.
    + apply IH; [|done]. destruct (_ <? _)%float; [done|].
      apply duplicate_signature in Hd.
      eapply Forall_impl; [exact Hrest|]. intros x.
      rewrite !not_after_compare.
      by rewrite (signature_compare_signature best p x x).
    + rewrite fmap_cons. apply NoDup_cons. split; [|by apply IH].
      intros (x & Hx & Hin)%list_elem_of_fmap.
      apply retained_from_elem in Hin.
      apply duplicate_false_signature in Hd. apply Hd. rewrite Hx.
      apply not_after_antisym.
      * apply elem_of_cons in Hin as [->|Hin]; [apply not_after_refl|].
        by eapply (proj1 (Forall_forall _ _) Hrest).
      * rewrite not_after_compare, (signature_compare_signature x best p p),
          <- not_after_compare; done.
Qed.

Lemma retained_NoDup read_pairs :
  Sorted not_after read_pairs → NoDup (signature <$> retained base_quality read_pairs).
Proof.
  intros H%Sorted_StronglySorted; [|apply _].
  destruct read_pairs as [|p rest]; simpl; [apply NoDup_nil_2|].
  apply StronglySorted_inv in H as [? ?]. by apply retained_from_NoDup.
Qed.

End RetainedFacts.

(** ** One read group *)

Section GroupFacts.

Variable std_sort : list ReadPair → list ReadPair.
Variable NDEBUG : bool.
Variable base_quality : BaseQuality.
Variable use_bam_rgs : bool.

Lemma append_row_clear {A} i (l : list A) v : append_row i l (<[i := []]> v) = <[i := l]> v.
Proof.
  unfold append_row. revert i. induction v as [|row v IH]; intros [|i]; simpl; try done.
  f_equal. apply IH.
Qed.

Lemma at_index2_Ok {A} (v : list (list A)) i j a :
  at_index2 v i j = Ok a ↔ ∃ row, v !! i = Some row ∧ row !! j = Some a.
Proof.
  unfold at_index2. split.
  - intros H. apply bind_Ok in H as (row & Ha & H). apply at_index_Ok in Ha, H. eauto.
  - intros (row & H1 & H2). apply at_index_Ok in H1, H2. by rewrite H1.
Qed.

Lemma clear_Ok {A} i (v v' : list (list A)) :
  clear i v = Ok v' → v' = <[i := []]> v ∧ (i < length v)%nat.
Proof.
  unfold clear. intros H. apply bind_Ok in H as (row & Ha & H).
  apply at_index_Ok, lookup_lt_Some in Ha.
  split; congruence.
Qed.

Lemma add_paired_loop s i strs mates unpaired n : ∀ a acc acc',
  paired_strs_by_rg s !! i = Some strs →
  mate_pairs_by_rg s !! i = Some mates →
  for_each (add_paired use_bam_rgs i s) (seq a n) acc = Ok acc' →
  ∃ new, acc'.1 = acc.1 ++ new ∧ length new = n ∧
         Forall (built_from strs mates unpaired) new.
Proof.
  induction n as [|n IH]; intros a acc acc' Hs Hm H; simpl in H.
  - exists []. rewrite app_nil_r. split_and!; [congruence|done|constructor].
  - apply bind_Ok in H as (acc1 & Hb & H). unfold add_paired in Hb.
    apply bind_Ok in Hb as (a1 & Ha1 & Hb).
    apply bind_Ok in Hb as ([library m] & Hlib & Hb).
    apply bind_Ok in Hb as (a3 & Ha3 & Hb). injection Hb as <-.
    apply at_index2_Ok in Ha1 as (row1 & Hr1 & Ha1), Ha3 as (row3 & Hr3 & Ha3).
    rewrite Hs in Hr1. rewrite Hm in Hr3. injection Hr1 as <-. injection Hr3 as <-.
    destruct (IH _ _ _ Hs Hm H) as (new & Hnew & Hlen & Hall). simpl in Hnew.
    exists (ReadPair_paired a1 a3 library :: new).
    rewrite Hnew, <- app_assoc. split_and!; [done|simpl; lia|].
    constructor; [|done]. left. eauto 10.
Qed.

Lemma add_unpaired_loop s i strs mates unpaired n : ∀ a acc acc',
  unpaired_strs_by_rg s !! i = Some unpaired →
  for_each (add_unpaired use_bam_rgs i s) (seq a n) acc = Ok acc' →
  ∃ new, acc'.1 = acc.1 ++ new ∧ length new = n ∧
         Forall (built_from strs mates unpaired) new.
Proof.
  induction n as [|n IH]; intros a acc acc' Hu H; simpl in H.
  - exists []. rewrite app_nil_r. split_and!; [congruence|done|constructor].
  - apply bind_Ok in H as (acc1 & Hb & H). unfold add_unpaired in Hb.
    apply bind_Ok in Hb as (a1 & Ha1 & Hb).
    apply bind_Ok in Hb as ([library m] & Hlib & Hb). injection Hb as <-.
    apply at_index2_Ok in Ha1 as (row1 & Hr1 & Ha1).
    rewrite Hu in Hr1. injection Hr1 as <-.
    destruct (IH _ _ _ Hu H) as (new & Hnew & Hlen & Hall). simpl in Hnew.
    exists (ReadPair_single a1 library :: new).
    rewrite Hnew, <- app_assoc. split_and!; [done|simpl; lia|].
    constructor; [|done]. right. exists a1, library. split; [|done].
    by eapply list_elem_of_lookup_2.
Qed.

Lemma process_read_group_spec s i s' :
  process_read_group std_sort NDEBUG base_quality use_bam_rgs s i = Ok s' →
  ∃ strs mates unpaired built,
    group_post std_sort base_quality s s' i strs mates unpaired built.
Proof.
  unfold process_read_group. intros H.
  apply bind_Ok in H as (? & _ & H).
  apply bind_Ok in H as (strs & Hs & H).
  apply bind_Ok in H as (acc1 & Hl1 & H).
  apply bind_Ok in H as (unpaired & Hu & H).
  apply bind_Ok in H as (acc2 & Hl2 & H).
  apply bind_Ok in H as (v1 & Hi1 & H).
  apply bind_Ok in H as (v2 & Hi2 & H).
  apply bind_Ok in H as (v3 & Hi3 & H).
  apply at_index_Ok in Hs, Hu.
  apply clear_Ok in Hi1 as [-> Hi1], Hi2 as [-> Hi2], Hi3 as [-> Hi3].
  destruct (lookup_lt_is_Some_2 _ _ Hi2) as [mates Hm].
  destruct (add_paired_loop _ _ _ _ unpaired _ _ _ _ Hs Hm Hl1) as (new1 & E1 & L1 & F1).
  destruct (add_unpaired_loop _ _ strs mates _ _ _ _ _ Hu Hl2) as (new2 & E2 & L2 & F2).
  simpl in E1. rewrite E1 in E2. clear E1.
  exists strs, mates, unpaired, (new1 ++ new2). rewrite E2 in H. clear E2.
  assert (Hlen : (length (new1 ++ new2) = length strs + length unpaired)%nat)
    by (rewrite length_app; lia).
  assert (Hall : Forall (built_from strs mates unpaired) (new1 ++ new2))
    by by apply Forall_app.
  unfold group_post.
  destruct (std_sort (new1 ++ new2)) as [|p rest] eqn:Hsort; simpl in H;
    injection H as <-; simpl.
  - done.
  - destruct (scan_spec base_quality i p rest
        {| best_index := 0;
           scan_paired := <[i:=[]]> (paired_strs_by_rg s);
           scan_mates := <[i:=[]]> (mate_pairs_by_rg s);
           scan_unpaired := <[i:=[]]> (unpaired_strs_by_rg s);
           scan_dup_count := dup_count s |} eq_refl) as (S1 & S2 & S3 & S4).
    simpl in S1, S2, S3, S4. rewrite S1, S2, S3, S4, !append_row_clear.
    split_and!; try done.
    f_equal. pose proof (retained_from_length base_quality rest p). lia.
Qed.

End GroupFacts.

(** ** The loop over the read groups *)

Section LoopFacts.

Variable std_sort : list ReadPair → list ReadPair.
Hypothesis std_sort_permutation : ∀ l, std_sort l ≡ₚ l.
Variable NDEBUG : bool.
Variable base_quality : BaseQuality.
Variable use_bam_rgs : bool.

Lemma count_reads_app {A} (v w : list (list A)) :
  count_reads (v ++ w) = count_reads v + count_reads w.
Proof.
  unfold count_reads. rewrite fmap_app, sum_list_with_app. apply Nat2Z.inj_add.
Qed.

Lemma count_reads_nonneg {A} (v : list (list A)) : 0 ≤ count_reads v.
Proof. unfold count_reads. lia. Qed.

Lemma count_reads_snoc {A} (v : list (list A)) row :
  count_reads (v ++ [row]) = count_reads v + Z.of_nat (length row).
Proof. rewrite count_reads_app. unfold count_reads. simpl. lia. Qed.

Lemma retained_length_le read_pairs :
  (length (retained base_quality read_pairs) ≤ length read_pairs)%nat.
Proof.
  destruct read_pairs as [|p rest]; simpl; [done|].
  pose proof (retained_from_length base_quality rest p). lia.
Qed.

Lemma take_S_insert {A} (v : list A) n x :
  (n < length v)%nat → take (S n) (<[n := x]> v) = take n v ++ [x].
Proof.
  intros Hn. rewrite (take_S_r _ _ x) by by apply list_lookup_insert_eq.
  by rewrite take_insert_ge.
Qed.

Lemma loop_spec n : ∀ s0 s,
  int32_range (dup_count s0) →
  for_each (process_read_group std_sort NDEBUG base_quality use_bam_rgs) (seq 0 n) s0 = Ok s →
  groups_post std_sort base_quality s0 s n.
Proof.
  induction n as [|n IH]; intros s0 s Hrange H.
  - simpl in H. injection H as <-. unfold groups_post. rewrite !take_0.
    unfold count_reads. simpl.
    replace (dup_count s0 + Z.of_nat 0 + Z.of_nat 0 - Z.of_nat 0 - Z.of_nat 0)
      with (dup_count s0) by lia.
    rewrite wrap32_id by done. split_and!; try done. intros; lia.
  - rewrite seq_S, for_each_app in H. apply bind_Ok in H as (s1 & H1 & H). simpl in H.
    apply bind_Ok in H as (s2 & H2 & H). injection H as ->.
    apply (IH _ _ Hrange) in H1 as (L1 & L2 & L3 & Hge & Hlt & Hdup & Hcnt & Hlog).
    apply process_read_group_spec in H2
      as (strs & mates & unpaired & built & G1 & G2 & G3 & G4 & G5 & G6 & G7 & G8 & G9 & G10).
    pose proof (lookup_lt_Some _ _ _ G1) as Hn1.
    pose proof (lookup_lt_Some _ _ _ G2) as Hn2.
    pose proof (lookup_lt_Some _ _ _ G3) as Hn3.
    destruct (Hge n (le_n n)) as (U1 & U2 & U3).
    unfold groups_post. rewrite G6, G7, G8, !length_insert.
    split_and!; try done.
    + intros i Hi. rewrite !list_lookup_insert_ne by lia. apply Hge. lia.
    + intros i Hi. destruct (decide (i = n)) as [->|Hne].
      * exists strs, mates, unpaired, built. rewrite !list_lookup_insert_eq by done.
        split_and!; congruence.
      * rewrite !list_lookup_insert_ne by done. apply Hlt. lia.
    + rewrite G9, iter_incr32 by (rewrite Hdup; apply wrap32_range).
      rewrite Hdup, wrap32_add_l. f_equal.
      rewrite !take_S_insert by done.
      rewrite (take_S_r (paired_strs_by_rg s0) n strs) by congruence.
      rewrite (take_S_r (unpaired_strs_by_rg s0) n unpaired) by congruence.
      rewrite !count_reads_snoc.
      pose proof (retained_length_le (std_sort built)) as Hle.
      pose proof (kept_length (retained base_quality (std_sort built))) as Hk.
      pose proof (Permutation_length (std_sort_permutation built)) as Hp.
      lia.
    + rewrite !take_S_insert by done.
      rewrite (take_S_r (paired_strs_by_rg s0) n strs) by congruence.
      rewrite (take_S_r (unpaired_strs_by_rg s0) n unpaired) by congruence.
      rewrite !count_reads_snoc.
      pose proof (retained_length_le (std_sort built)) as Hle.
      pose proof (kept_length (retained base_quality (std_sort built))) as Hk.
      pose proof (Permutation_length (std_sort_permutation built)) as Hp.
      lia.
    + congruence.
Qed.

End LoopFacts.

(** ** [remove_pcr_duplicates] *)

Section RemovePcrDuplicatesFacts.

Variable std_sort : list ReadPair → list ReadPair.
Hypothesis std_sort_permutation : ∀ l, std_sort l ≡ₚ l.
Hypothesis std_sort_sorted : ∀ l, Sorted not_after (std_sort l).
Variable NDEBUG : bool.
Variable base_quality : BaseQuality.
Variable use_bam_rgs : bool.

Lemma remove_pcr_duplicates_spec m strs_by_rg mates_by_rg unpaired_by_rg log out :
  remove_pcr_duplicates std_sort NDEBUG base_quality use_bam_rgs
    m strs_by_rg mates_by_rg unpaired_by_rg log = Ok out →
  ∃ s,
    groups_post std_sort base_quality
      {| rg_to_library := m;
         paired_strs_by_rg := strs_by_rg;
         mate_pairs_by_rg := mates_by_rg;
         unpaired_strs_by_rg := unpaired_by_rg;
         dup_count := 0;
         logger := log |} s (length strs_by_rg)
    ∧ paired_strs_by_rg out = paired_strs_by_rg s
    ∧ mate_pairs_by_rg out = mate_pairs_by_rg s
    ∧ unpaired_strs_by_rg out = unpaired_strs_by_rg s
    ∧ logger out = log ++ [MsgRemovedDuplicates (dup_count s)].
Proof.
  unfold remove_pcr_duplicates. intros H.
  apply bind_Ok in H as (? & _ & H). apply bind_Ok in H as (s & Hs & H).
  injection H as <-. exists s. simpl.
  eapply loop_spec in Hs as Hpost; [|done|done].
  split_and!; try done. f_equal.
  by destruct Hpost as (_ & _ & _ & _ & _ & _ & _ & ->).
Qed.

Lemma built_from_retained strs mates unpaired built p :
  Forall (built_from strs mates unpaired) built →
  p ∈ retained base_quality (std_sort built) →
  built_from strs mates unpaired p.
Proof.
  intros Hall Hp%retained_elem. rewrite std_sort_permutation in Hp.
  by eapply (proj1 (Forall_forall _ _) Hall).
Qed.

Lemma kept_lookup kept k a b :
  paired_of kept !! k = Some a → mates_of kept !! k = Some b →
  ∃ p, p ∈ kept ∧ single_ended p = false ∧ a = aln_one p ∧ b = aln_two p.
Proof.
  unfold paired_of, mates_of. rewrite !list_lookup_fmap.
  destruct (filter _ kept !! k) as [p|] eqn:Hp; simpl; [|done].
  intros [= <-] [= <-]. exists p.
  apply list_elem_of_lookup_2, list_elem_of_filter in Hp as [? ?]. done.
Qed.

(** C9. After [remove_pcr_duplicates] returns, in every read group the
    vector of paired STR reads and the vector of mates have the same
    length, and the mate at an index is the alignment that was at the index
    of that STR read in the input mate vector. *)
Theorem mates_stay_with_their_reads
    m strs_by_rg mates_by_rg unpaired_by_rg log out i strs' mates' :
  remove_pcr_duplicates std_sort NDEBUG base_quality use_bam_rgs
    m strs_by_rg mates_by_rg unpaired_by_rg log = Ok out →
  paired_strs_by_rg out !! i = Some strs' →
  mate_pairs_by_rg out !! i = Some mates' →
  length strs' = length mates'
  ∧ ∀ k aln_1 aln_2,
      strs' !! k = Some aln_1 → mates' !! k = Some aln_2 →
      ∃ strs mates j,
        strs_by_rg !! i = Some strs ∧ mates_by_rg !! i = Some mates
        ∧ strs !! j = Some aln_1 ∧ mates !! j = Some aln_2.
Proof.
  intros (s & Hpost & E1 & E2 & E3 & _)%remove_pcr_duplicates_spec H1 H2.
  rewrite E1 in H1. rewrite E2 in H2.
  destruct Hpost as (L1 & _ & _ & _ & Hlt & _). simpl in *.
  apply lookup_lt_Some in H1 as Hi. rewrite L1 in Hi.
  destruct (Hlt i Hi) as (strs & mates & unpaired & built & G1 & G2 & G3 & G4 & G5 & G6 & G7).
  rewrite H1 in G5. rewrite H2 in G6. injection G5 as ->. injection G6 as ->.
  split; [by rewrite mates_of_length|].
  intros k aln_1 aln_2 Hk1 Hk2.
  destruct (kept_lookup _ _ _ _ Hk1 Hk2) as (p & Hp & Hse & -> & ->).
  eapply built_from_retained in Hp; [|done].
  destruct Hp as [(j & a1 & a2 & library & Hj1 & Hj2 & ->)|(a1 & library & _ & ->)].
  - exists strs, mates, j. done.
  - done.
Qed.

(** C5 (amended). The count [remove_pcr_duplicates] reports is the number
    of read pairs it discards: the pairs and unpaired reads it received
    minus those it returns, so a set of k duplicates adds k - 1. *)
Theorem dup_count_counts_discarded_pairs
    m strs_by_rg mates_by_rg unpaired_by_rg log out :
  count_reads strs_by_rg + count_reads unpaired_by_rg < 2 ^ 31 →
  remove_pcr_duplicates std_sort NDEBUG base_quality use_bam_rgs
    m strs_by_rg mates_by_rg unpaired_by_rg log = Ok out →
  logger out =
    log ++ [MsgRemovedDuplicates
              (count_reads strs_by_rg + count_reads unpaired_by_rg
               - count_reads (paired_strs_by_rg out)
               - count_reads (unpaired_strs_by_rg out))].
Proof.
  intros Hsmall (s & Hpost & E1 & E2 & E3 & ->)%remove_pcr_duplicates_spec.
  rewrite E1, E3.
  destruct Hpost as (L1 & _ & L3 & Hge & _ & Hdup & Hcnt & _). simpl in *.
  assert (Ht : ∀ (v v0 : list (list BamAlignment)),
             (∀ i, (length strs_by_rg ≤ i)%nat → v !! i = v0 !! i) →
             count_reads v - count_reads (take (length strs_by_rg) v)
             = count_reads v0 - count_reads (take (length strs_by_rg) v0)).
  { intros v v0 Hsame.
    rewrite <- (take_drop (length strs_by_rg) v) at 1.
    rewrite <- (take_drop (length strs_by_rg) v0) at 1.
    rewrite !count_reads_app.
    assert (drop (length strs_by_rg) v = drop (length strs_by_rg) v0) as ->; [|lia].
    apply list_eq. intros k. rewrite !lookup_drop. apply Hsame. lia. }
  pose proof (Ht _ _ (λ i Hi, proj1 (Hge i Hi))) as T1.
  pose proof (Ht _ _ (λ i Hi, proj2 (proj2 (Hge i Hi)))) as T3.
  rewrite (firstn_all strs_by_rg) in *.
  pose proof (count_reads_nonneg (take (length strs_by_rg) (paired_strs_by_rg s))).
  pose proof (count_reads_nonneg (take (length strs_by_rg) (unpaired_strs_by_rg s))).
  pose proof (count_reads_nonneg (take (length strs_by_rg) unpaired_by_rg)).
  pose proof (count_reads_nonneg (drop (length strs_by_rg) unpaired_by_rg)).
  pose proof (count_reads_app (take (length strs_by_rg) unpaired_by_rg)
                (drop (length strs_by_rg) unpaired_by_rg)) as Hu.
  rewrite take_drop in Hu.
  rewrite Hdup, wrap32_id by (unfold int32_range; lia).
  repeat (f_equal; try lia).
Qed.

End RemovePcrDuplicatesFacts.

(** ** Order of binary64 floats *)

Section FloatOrder.

Lemma SFltb_SFleb_trans x y z :
  SFltb x y = true → SFleb y z = true → SFltb x z = true.
Proof.
  unfold SFltb, SFleb.
  destruct x as [sx|sx| |sx mx ex], y as [sy|sy| |sy my ey], z as [sz|sz| |sz mz ez];
    simpl; try done;
    repeat match goal with s : bool |- _ => destruct s end; simpl; try done;
    rewrite ?Pos.compare_cont_spec; simpl;
    repeat match goal with
    | |- context [(?a ?= ?b)%Z] => destruct (Z.compare_spec a b); simpl; try done
    | |- context [(?a ?= ?b)%positive] => destruct (Pos.compare_spec a b); simpl; try done
    end; try lia.
Qed.

Lemma SFltb_SFleb x y : SFltb x y = true → SFleb x y = true.
Proof. unfold SFltb, SFleb. by destruct (SFcompare x y) as [[]|]. Qed.

Lemma SFltb_irrefl x : SFltb x x = false.
Proof.
  unfold SFltb. destruct x as [sx|sx| |sx mx ex]; simpl; try done;
    repeat match goal with s : bool |- _ => destruct s end; simpl; try done;
    rewrite ?Pos.compare_cont_spec, Z.compare_refl; simpl; by rewrite ?Pos.compare_refl.
Qed.

Lemma float_lt_le_trans (x y z : float) :
  (x <? y)%float = true → (y <=? z)%float = true → (x <? z)%float = true.
Proof. rewrite !ltb_spec, leb_spec. apply SFltb_SFleb_trans. Qed.

Lemma float_lt_le (x y : float) : (x <? y)%float = true → (x <=? y)%float = true.
Proof. rewrite ltb_spec, leb_spec. apply SFltb_SFleb. Qed.

Lemma float_lt_irrefl (x : float) : (x <? x)%float = false.
Proof. rewrite ltb_spec. apply SFltb_irrefl. Qed.

(** Moving to a strictly better quality keeps what was known about the
    qualities seen before. *)
Lemma float_better_le (b p x : float) :
  (b <? p)%float = true → (b <=? x)%float = false → (p <=? x)%float = false.
Proof.
  intros Hbp Hbx. destruct (p <=? x)%float eqn:Hpx; [|done].
  by rewrite (float_lt_le _ _ (float_lt_le_trans _ _ _ Hbp Hpx)) in Hbx.
Qed.

Lemma float_better_lt (b p x : float) :
  (b <? p)%float = true → (b <? x)%float = false → (p <=? x)%float = false.
Proof.
  intros Hbp Hbx. destruct (p <=? x)%float eqn:Hpx; [|done].
  by rewrite (float_lt_le_trans _ _ _ Hbp Hpx) in Hbx.
Qed.

Lemma float_better_self (b p : float) :
  (b <? p)%float = true → (p <=? b)%float = false.
Proof.
  intros Hbp. destruct (p <=? b)%float eqn:Hpb; [|done].
  pose proof (float_lt_le_trans _ _ _ Hbp Hpb) as H. by rewrite float_lt_irrefl in H.
Qed.

Lemma float_not_le_not_lt (x y : float) :
  (x <=? y)%float = false → (x <? y)%float = false.
Proof.
  intros H. destruct (x <? y)%float eqn:E; [|done]. by rewrite (float_lt_le _ _ E) in H.
Qed.

End FloatOrder.

(** ** The pair kept from a set of duplicates *)

Section DuplicateSets.

Variable base_quality : BaseQuality.

Local Abbreviation quality := (quality base_quality).
Local Abbreviation retained_from := (retained_from base_quality).
Local Abbreviation retained := (retained base_quality).

(** The scan does not carry a set over a change of signature. *)
Lemma retained_from_split l1 : ∀ best p l2,
  (∀ x, last (best :: l1) = Some x → signature p ≠ signature x) →
  retained_from best (l1 ++ p :: l2) = retained_from best l1 ++ retained_from p l2.
Proof.
  induction l1 as [|q l1 IH]; intros best p l2 Hlast; simpl.
  - assert (duplicate p best = false) as ->; [|done].
    apply duplicate_false_signature. by apply Hlast.
  - destruct (duplicate q best) eqn:Hd.
    + apply IH. intros x Hx. apply duplicate_signature in Hd.
      destruct l1 as [|q' l1].
      * simpl in Hx. injection Hx as <-.
        destruct (_ <? _)%float; [by apply Hlast|].
        rewrite <- Hd. by apply Hlast.
      * apply Hlast. by rewrite !last_cons_cons in *.
    + simpl. f_equal. apply IH. intros x Hx. apply Hlast.
      by rewrite last_cons_cons.
Qed.

Lemma retained_split before p after :
  (∀ x, last before = Some x → signature p ≠ signature x) →
  retained (before ++ p :: after) = retained before ++ retained (p :: after).
Proof.
  destruct before as [|b before]; [done|]. simpl. apply retained_from_split.
Qed.

(** Within a set of duplicates the scan ends on the first pair of the best
    quality. *)
Lemma retained_from_set rest : ∀ done best kb,
  done !! kb = Some best →
  (∀ j p, (j < kb)%nat → done !! j = Some p → (quality best <=? quality p)%float = false) →
  (∀ j p, (kb < j)%nat → done !! j = Some p → (quality best <? quality p)%float = false) →
  (∀ p, p ∈ rest → signature p = signature best) →
  ∃ k best',
    (done ++ rest) !! k = Some best'
    ∧ retained_from best rest = [best']
    ∧ (∀ j p, (j < k)%nat → (done ++ rest) !! j = Some p →
         (quality best' <=? quality p)%float = false)
    ∧ (∀ j p, (k < j)%nat → (done ++ rest) !! j = Some p →
         (quality best' <? quality p)%float = false).
Proof.
  induction rest as [|p rest IH]; intros done best kb Hkb Hbefore Hafter Hsig.
  - exists kb, best. rewrite app_nil_r. done.
  - assert (Hd : duplicate p best = true).
    { apply duplicate_signature, Hsig. by left. }
    simpl. rewrite Hd. pose proof (lookup_lt_Some _ _ _ Hkb) as Hlt.
    replace (done ++ p :: rest) with ((done ++ [p]) ++ rest) by by rewrite <- app_assoc.
    destruct (quality best <? quality p)%float eqn:Hq.
    + apply (IH (done ++ [p]) p (length done)).
      * by rewrite list_lookup_middle.
      * intros j x Hj Hx. rewrite lookup_app_l in Hx by done.
        destruct (Nat.lt_trichotomy j kb) as [Hc|[->|Hc]].
        -- eapply float_better_le; [done|]. by eapply Hbefore.
        -- rewrite Hkb in Hx. injection Hx as <-. by apply float_better_self.
        -- eapply float_better_lt; [done|]. by eapply Hafter.
      * intros j x Hj Hx. apply lookup_lt_Some in Hx.
        rewrite length_app in Hx. simpl in Hx. lia.
      * intros x Hx. rewrite (Hsig x) by by right. symmetry. apply Hsig. by left.
    + apply (IH (done ++ [p]) best kb).
      * by rewrite lookup_app_l.
      * intros j x Hj Hx. rewrite lookup_app_l in Hx by lia. by eapply Hbefore.
      * intros j x Hj Hx. destruct (decide (j < length done)%nat) as [Hc|Hc].
        -- rewrite lookup_app_l in Hx by done. by eapply Hafter.
        -- pose proof (lookup_lt_Some _ _ _ Hx) as Hjl. rewrite length_app in Hjl.
           simpl in Hjl. assert (j = length done) as -> by lia.
           rewrite list_lookup_middle in Hx by done. by injection Hx as <-.
      * intros x Hx. apply Hsig. by right.
Qed.

Lemma retained_set p rest :
  (∀ x, x ∈ rest → signature x = signature p) →
  ∃ k best,
    (p :: rest) !! k = Some best
    ∧ retained (p :: rest) = [best]
    ∧ (∀ j x, (j < k)%nat → (p :: rest) !! j = Some x →
         (quality best <=? quality x)%float = false)
    ∧ (∀ x, x ∈ p :: rest → (quality best <? quality x)%float = false).
Proof.
  intros Hsig.
  destruct (retained_from_set rest [p] p 0%nat) as (k & best & Hk & Hret & Hb & Ha);
    try done.
  { intros j x Hj. lia. }
  { intros [|j] x Hj Hx; [lia|done]. }
  exists k, best. simpl in *. split_and!; try done.
  intros x (j & Hj)%list_elem_of_lookup_1.
  destruct (Nat.lt_trichotomy j k) as [Hc|[->|Hc]].
  - apply float_not_le_not_lt. by eapply Hb.
  - rewrite Hk in Hj. injection Hj as <-. apply float_lt_irrefl.
  - by eapply Ha.
Qed.

Lemma scan_retained i read_pairs c :
  read_pairs ≠ [] → best_index c = 0%nat →
  let c' := scan base_quality i read_pairs c in
  scan_paired c' = append_row i (paired_of (retained read_pairs)) (scan_paired c)
  ∧ scan_mates c' = append_row i (mates_of (retained read_pairs)) (scan_mates c)
  ∧ scan_unpaired c' = append_row i (unpaired_of (retained read_pairs)) (scan_unpaired c).
Proof.
  intros Hne Hc. destruct read_pairs as [|p rest]; [done|].
  destruct (scan_spec base_quality i p rest c Hc) as (S1 & S2 & S3 & _). done.
Qed.

(** C2. Take the sorted vector as a set of duplicates (a maximal run of
    pairs of one signature) between what is [before] and [after] it.  The
    scan keeps one pair [best] of the set: no pair of the set has a greater
    summed log-probability than [best], every pair of the set that stands
    before [best] has a strictly smaller one, and what the scan adds to the
    vectors of the read group is what it keeps before the set, then [best],
    then what it keeps after the set. *)
Theorem best_quality_pair_is_retained i before set after c :
  set ≠ [] →
  (∀ p q, p ∈ set → q ∈ set → signature p = signature q) →
  (∀ x p, last before = Some x → p ∈ set → signature p ≠ signature x) →
  (∀ p y, p ∈ set → head after = Some y → signature y ≠ signature p) →
  best_index c = 0%nat →
  ∃ k best,
    set !! k = Some best
    ∧ (∀ p, p ∈ set → (quality best <? quality p)%float = false)
    ∧ (∀ j p, (j < k)%nat → set !! j = Some p → (quality best <=? quality p)%float = false)
    ∧ let kept := retained before ++ best :: retained after in
      let c' := scan base_quality i (before ++ set ++ after) c in
      scan_paired c' = append_row i (paired_of kept) (scan_paired c)
      ∧ scan_mates c' = append_row i (mates_of kept) (scan_mates c)
      ∧ scan_unpaired c' = append_row i (unpaired_of kept) (scan_unpaired c).
Proof.
  intros Hne Hsame Hbefore Hafter Hc.
  destruct set as [|p rest]; [done|].
  destruct (retained_set p rest) as (k & best & Hk & Hret & Hearlier & Hmax).
  { intros x Hx. apply Hsame; [by right|by left]. }
  exists k, best. split_and!; try done.
  assert (Hkept : retained (before ++ (p :: rest) ++ after)
                  = retained before ++ best :: retained after).
  { rewrite <- app_comm_cons, retained_split by (intros x Hx; apply (Hbefore x p Hx); by left).
    f_equal. destruct after as [|y after].
    - by rewrite app_nil_r, Hret.
    - simpl. rewrite retained_from_split.
      + simpl in Hret. by rewrite Hret.
      + intros x Hx. apply (Hafter x y); [|done].
        apply last_Some_elem_of in Hx. done. }
  intros kept c'. unfold kept, c'. rewrite <- Hkept.
  apply scan_retained; [|done]. by destruct before.
Qed.

End DuplicateSets.

(** ** Reads without a library *)

Section LibraryFacts.

Variable std_sort : list ReadPair → list ReadPair.
Variable NDEBUG : bool.
Variable base_quality : BaseQuality.

Lemma get_library_cases aln m :
  (∃ library, get_library aln m = Ok library) ∨ (∃ msg, get_library aln m = Fatal msg).
Proof.
  unfold get_library. destruct (RG aln) as [rg|]; [|eauto].
  destruct (m !! rg); eauto.
Qed.

Lemma add_paired_loop_rg s i strs mates n : ∀ a acc,
  paired_strs_by_rg s !! i = Some strs →
  mate_pairs_by_rg s !! i = Some mates →
  length strs = length mates →
  (a + n ≤ length strs)%nat →
  (∃ acc', for_each (add_paired true i s) (seq a n) acc = Ok acc'
           ∧ acc'.2 = acc.2
           ∧ ∀ j aln, (a ≤ j < a + n)%nat → strs !! j = Some aln →
               ∃ library, get_library aln acc.2 = Ok library)
  ∨ (∃ msg, for_each (add_paired true i s) (seq a n) acc = Fatal msg).
Proof.
  induction n as [|n IH]; intros a acc Hs Hm Hlen Hn; simpl.
  - left. exists acc. split_and!; try done. intros; lia.
  - destruct (lookup_lt_is_Some_2 strs a) as [aln_1 H1]; [lia|].
    destruct (lookup_lt_is_Some_2 mates a) as [aln_2 H2]; [lia|].
    destruct (get_library_cases aln_1 acc.2) as [[library Hl]|[msg Hl]].
    2:{ right. exists msg. unfold add_paired.
        rewrite (proj2 (at_index2_Ok (paired_strs_by_rg s) i a aln_1)) by eauto. simpl. by rewrite Hl. }
    assert (add_paired true i s acc a
            = Ok (acc.1 ++ [ReadPair_paired aln_1 aln_2 library], acc.2)) as ->.
    { unfold add_paired. rewrite (proj2 (at_index2_Ok (paired_strs_by_rg s) i a aln_1)) by eauto. simpl.
      rewrite Hl. simpl. by rewrite (proj2 (at_index2_Ok (mate_pairs_by_rg s) i a aln_2)) by eauto. }
    simpl.
    destruct (IH (S a) (acc.1 ++ [ReadPair_paired aln_1 aln_2 library], acc.2) Hs Hm Hlen)
      as [(acc' & Hacc & Hmap & Hgood)|[msg Hmsg]]; [lia| |eauto].
    left. exists acc'. split_and!; try done.
    intros j aln Hj Hjl. destruct (decide (j = a)) as [->|Hne].
    + rewrite H1 in Hjl. injection Hjl as <-. eauto.
    + apply (Hgood j); [lia|done].
Qed.

Lemma add_unpaired_loop_rg s i unpaired n : ∀ a acc,
  unpaired_strs_by_rg s !! i = Some unpaired →
  (a + n ≤ length unpaired)%nat →
  (∃ acc', for_each (add_unpaired true i s) (seq a n) acc = Ok acc'
           ∧ acc'.2 = acc.2
           ∧ ∀ j aln, (a ≤ j < a + n)%nat → unpaired !! j = Some aln →
               ∃ library, get_library aln acc.2 = Ok library)
  ∨ (∃ msg, for_each (add_unpaired true i s) (seq a n) acc = Fatal msg).
Proof.
  induction n as [|n IH]; intros a acc Hu Hn; simpl.
  - left. exists acc. split_and!; try done. intros; lia.
  - destruct (lookup_lt_is_Some_2 unpaired a) as [aln_1 H1]; [lia|].
    destruct (get_library_cases aln_1 acc.2) as [[library Hl]|[msg Hl]].
    2:{ right. exists msg. unfold add_unpaired.
        rewrite (proj2 (at_index2_Ok _ i a aln_1)) by eauto. simpl. by rewrite Hl. }
    assert (add_unpaired true i s acc a
            = Ok (acc.1 ++ [ReadPair_single aln_1 library], acc.2)) as ->.
    { unfold add_unpaired. rewrite (proj2 (at_index2_Ok _ i a aln_1)) by eauto. simpl.
      by rewrite Hl. }
    simpl.
    destruct (IH (S a) (acc.1 ++ [ReadPair_single aln_1 library], acc.2) Hu)
      as [(acc' & Hacc & Hmap & Hgood)|[msg Hmsg]]; [lia| |eauto].
    left. exists acc'. split_and!; try done.
    intros j aln Hj Hjl. destruct (decide (j = a)) as [->|Hne].
    + rewrite H1 in Hjl. injection Hjl as <-. eauto.
    + apply (Hgood j); [lia|done].
Qed.

Lemma process_read_group_rg s i strs mates unpaired :
  paired_strs_by_rg s !! i = Some strs →
  mate_pairs_by_rg s !! i = Some mates →
  unpaired_strs_by_rg s !! i = Some unpaired →
  length strs = length mates →
  (∃ s', process_read_group std_sort NDEBUG base_quality true s i = Ok s'
         ∧ rg_to_library s' = rg_to_library s
         ∧ ∀ aln, aln ∈ strs ∨ aln ∈ unpaired →
             ∃ library, get_library aln (rg_to_library s) = Ok library)
  ∨ (∃ msg, process_read_group std_sort NDEBUG base_quality true s i = Fatal msg).
Proof.
  intros Hs Hm Hu Hlen. unfold process_read_group.
  pose proof (proj2 (at_index_Ok _ _ _) Hs) as Es.
  pose proof (proj2 (at_index_Ok _ _ _) Hm) as Em.
  pose proof (proj2 (at_index_Ok _ _ _) Hu) as Eu.
  rewrite Es, Em, Eu. simpl.
  assert ((if NDEBUG then Ok () else assert NDEBUG (length strs =? length mates)%nat) = Ok ())
    as ->.
  { unfold assert. destruct NDEBUG; [done|]. by rewrite Hlen, Nat.eqb_refl. }
  simpl.
  destruct (add_paired_loop_rg s i strs mates (length strs) 0 ([], rg_to_library s))
    as [(acc1 & -> & Hmap1 & Hgood1)|[msg ->]]; try done; [|eauto]. simpl.
  destruct (add_unpaired_loop_rg s i unpaired (length unpaired) 0 acc1)
    as [(acc2 & -> & Hmap2 & Hgood2)|[msg ->]]; try done; [|eauto]. simpl.
  unfold clear. rewrite Es, Em, Eu. simpl. left. simpl in Hmap1, Hgood1.
  destruct (length (std_sort acc2.1) =? 0)%nat; eexists; (split; [done|]); simpl;
    (split; [congruence|]);
    intros aln [(j & Hj)%list_elem_of_lookup_1|(j & Hj)%list_elem_of_lookup_1];
    pose proof (lookup_lt_Some _ _ _ Hj);
    solve [ apply (Hgood1 j); [lia|done]
          | rewrite <- Hmap1; apply (Hgood2 j); [lia|done] ].
Qed.

Lemma loop_frame use_bam_rgs n : ∀ s0 s,
  for_each (process_read_group std_sort NDEBUG base_quality use_bam_rgs) (seq 0 n) s0 = Ok s →
  ∀ i, (n ≤ i)%nat →
    paired_strs_by_rg s !! i = paired_strs_by_rg s0 !! i
    ∧ mate_pairs_by_rg s !! i = mate_pairs_by_rg s0 !! i
    ∧ unpaired_strs_by_rg s !! i = unpaired_strs_by_rg s0 !! i.
Proof.
  induction n as [|n IH]; intros s0 s H i Hi.
  - simpl in H. by injection H as <-.
  - rewrite seq_S, for_each_app in H. apply bind_Ok in H as (s1 & H1 & H). simpl in H.
    apply bind_Ok in H as (s2 & H2 & H). injection H as ->.
    apply process_read_group_spec in H2
      as (strs & mates & unpaired & built & _ & _ & _ & _ & _ & G6 & G7 & G8 & _).
    rewrite G6, G7, G8, !list_lookup_insert_ne by lia.
    apply (IH _ _ H1). lia.
Qed.

Lemma loop_rg n : ∀ s0,
  (n ≤ length (paired_strs_by_rg s0))%nat →
  length (paired_strs_by_rg s0) = length (mate_pairs_by_rg s0) →
  length (paired_strs_by_rg s0) = length (unpaired_strs_by_rg s0) →
  Forall2 (λ strs mates, length strs = length mates)
    (paired_strs_by_rg s0) (mate_pairs_by_rg s0) →
  (∃ s, for_each (process_read_group std_sort NDEBUG base_quality true) (seq 0 n) s0 = Ok s
        ∧ rg_to_library s = rg_to_library s0
        ∧ ∀ i strs unpaired aln,
            (i < n)%nat →
            paired_strs_by_rg s0 !! i = Some strs →
            unpaired_strs_by_rg s0 !! i = Some unpaired →
            aln ∈ strs ∨ aln ∈ unpaired →
            ∃ library, get_library aln (rg_to_library s0) = Ok library)
  ∨ (∃ msg,
       for_each (process_read_group std_sort NDEBUG base_quality true) (seq 0 n) s0
       = Fatal msg).
Proof.
  induction n as [|n IH]; intros s0 Hn L2 L3 Hall.
  - left. exists s0. split_and!; try done. intros; lia.
  - rewrite seq_S, for_each_app.
    destruct (IH s0) as [(s1 & H1 & Hmap & Hgood)|[msg ->]]; try done; [lia| |eauto].
    rewrite H1. simpl.
    destruct (loop_frame _ _ _ _ H1 n (le_n n)) as (F1 & F2 & F3).
    destruct (lookup_lt_is_Some_2 (paired_strs_by_rg s0) n) as [strs Hs]; [lia|].
    destruct (lookup_lt_is_Some_2 (mate_pairs_by_rg s0) n) as [mates Hm]; [lia|].
    destruct (lookup_lt_is_Some_2 (unpaired_strs_by_rg s0) n) as [unpaired Hu]; [lia|].
    pose proof (Forall2_lookup_lr _ _ _ _ _ _ Hall Hs Hm) as Hlen.
    rewrite <- F1 in Hs. rewrite <- F2 in Hm. rewrite <- F3 in Hu.
    destruct (process_read_group_rg s1 n strs mates unpaired Hs Hm Hu Hlen)
      as [(s2 & -> & Hmap2 & Hgood2)|[msg ->]]; [|eauto].
    left. exists s2. split_and!; [done|congruence|].
    intros i strs' unpaired' aln Hi Hs' Hu' Hin.
    destruct (decide (i = n)) as [->|Hne].
    + rewrite <- Hmap. apply Hgood2.
      rewrite F1, Hs' in Hs. rewrite F3, Hu' in Hu. congruence.
    + apply (Hgood i strs' unpaired'); [lia|done..].
Qed.

(** C6 (amended). With [use_bam_rgs] set and vectors of the sizes the
    assertions ask for, a read of any read group that has no RG tag, or
    whose read group has no library in the map, ends the run with a fatal
    error. *)
Theorem missing_library_is_fatal
    m strs_by_rg mates_by_rg unpaired_by_rg log i strs unpaired aln :
  length strs_by_rg = length mates_by_rg →
  length strs_by_rg = length unpaired_by_rg →
  Forall2 (λ strs mates, length strs = length mates) strs_by_rg mates_by_rg →
  strs_by_rg !! i = Some strs →
  unpaired_by_rg !! i = Some unpaired →
  aln ∈ strs ∨ aln ∈ unpaired →
  RG aln = None ∨ (∃ rg, RG aln = Some rg ∧ m !! rg = None) →
  ∃ msg,
    remove_pcr_duplicates std_sort NDEBUG base_quality true
      m strs_by_rg mates_by_rg unpaired_by_rg log = Fatal msg.
Proof.
  intros L2 L3 Hall Hs Hu Hin Hbad. unfold remove_pcr_duplicates.
  assert (assert NDEBUG
            ((length strs_by_rg =? length mates_by_rg)%nat
             && (length strs_by_rg =? length unpaired_by_rg)%nat) = Ok ()) as ->.
  { unfold assert. destruct NDEBUG; [done|]. by rewrite <- L2, <- L3, Nat.eqb_refl. }
  simpl.
  destruct (loop_rg (length strs_by_rg)
              {| rg_to_library := m;
                 paired_strs_by_rg := strs_by_rg;
                 mate_pairs_by_rg := mates_by_rg;
                 unpaired_strs_by_rg := unpaired_by_rg;
                 dup_count := 0;
                 logger := log |})
    as [(s & _ & _ & Hgood)|[msg ->]]; try done; [|eauto].
  exfalso. simpl in Hgood.
  destruct (Hgood i strs unpaired aln) as [library Hlib]; try done.
  { by eapply lookup_lt_Some. }
  unfold get_library in Hlib.
  destruct Hbad as [Hnone|(rg & Hrg & Hnone)].
  - by rewrite Hnone in Hlib.
  - by rewrite Hrg, Hnone in Hlib.
Qed.

End LibraryFacts.

(** * Properties of the per-locus analysis *)

Import Genotyper.

Section AnalysisFacts.

Variable StutterModel : Type.
Variable EMStutterGenotyper : Type.
Variable SeqStutterGenotyper : Type.
Variable ExtractCigar : list CigarOp → Z → Z → Z → option Z.
Variable new_EMStutterGenotyper :
  string → Z → Z → bool → list (list Z) → list (list float) → list (list float) →
  list string → Z → Z → EMStutterGenotyper.
Variable train : EMStutterGenotyper → Z → float → float → bool → bool * EMStutterGenotyper.
Variable get_stutter_model : EMStutterGenotyper → StutterModel.
Variable set_stutter_model : EMStutterGenotyper → StutterModel → EMStutterGenotyper.
Variable length_genotype : EMStutterGenotyper → bool → bool * EMStutterGenotyper.
Variable new_SeqStutterGenotyper :
  Region → bool → list (list BamAlignment) → list (list float) → list (list float) →
  list string → string → StutterModel → bool → SeqStutterGenotyper.
Variable seq_genotype : SeqStutterGenotyper → bool * SeqStutterGenotyper.
Variable NDEBUG : bool.

Local Abbreviation extract_read := (extract_read ExtractCigar).
Local Abbreviation extract_lengths := (extract_lengths StutterModel ExtractCigar).
Local Abbreviation prepare_locus := (prepare_locus StutterModel ExtractCigar NDEBUG).
Local Abbreviation acquire_stutter_model :=
  (acquire_stutter_model StutterModel EMStutterGenotyper new_EMStutterGenotyper train
     get_stutter_model).
Local Abbreviation new_length_genotyper :=
  (new_length_genotyper EMStutterGenotyper new_EMStutterGenotyper).
Local Abbreviation analyze_reads_and_phasing :=
  (analyze_reads_and_phasing StutterModel EMStutterGenotyper SeqStutterGenotyper
     ExtractCigar new_EMStutterGenotyper train get_stutter_model set_stutter_model
     length_genotype new_SeqStutterGenotyper seq_genotype NDEBUG).

Implicit Types (cfg : config StutterModel) (region : Region) (p : processor)
  (e : extraction) (alignments : list (list BamAlignment))
  (log_p1s log_p2s : list (list float)) (rg_names : list string).

Lemma for_each_invariant {A S} (body : S → A → result S) (I : S → Prop) l : ∀ s s',
  (∀ s a s', I s → body s a = Ok s' → I s') →
  I s → for_each body l s = Ok s' → I s'.
Proof.
  induction l as [|a l IH]; intros s s' Hbody Hs H; simpl in H.
  - by injection H as <-.
  - apply bind_Ok in H as (s1 & H1 & H). eauto.
Qed.

Lemma count_reads_cons {A} (row : list A) v :
  count_reads (row :: v) = Z.of_nat (length row) + count_reads v.
Proof.
  change (row :: v) with ([row] ++ v). rewrite count_reads_app. f_equal.
  unfold count_reads. simpl. f_equal. lia.
Qed.

Lemma count_total_reads_spec alignments :
  count_total_reads alignments = wrap32 (count_reads alignments).
Proof.
  unfold count_total_reads.
  assert (∀ a, fold_left (λ total_reads row, wrap32 (total_reads + Z.of_nat (length row)))
                 alignments (wrap32 a)
               = wrap32 (a + count_reads alignments)) as H.
  { induction alignments as [|row v IH]; intros a; simpl.
    - unfold count_reads. simpl. by rewrite Z.add_0_r.
    - rewrite wrap32_add_l, IH, count_reads_cons. f_equal. lia. }
  specialize (H 0). by rewrite (wrap32_id 0) in H by (unfold int32_range; lia).
Qed.

(** C3. When the reads of all read groups together are fewer than
    MIN_TOTAL_READS, [analyze_reads_and_phasing] returns with the four
    counters as they were and one more line in the log: no stutter model is
    looked up or trained and nothing is genotyped. *)
Theorem too_few_reads_skips_locus
    cfg alignments log_p1s log_p2s rg_names region ref_allele chrom_seq p :
  int32_range (MIN_TOTAL_READS cfg) →
  count_reads alignments < MIN_TOTAL_READS cfg →
  analyze_reads_and_phasing cfg alignments log_p1s log_p2s rg_names region
    ref_allele chrom_seq p
  = Ok {| num_em_converge_ := num_em_converge_ p;
          num_em_fail_ := num_em_fail_ p;
          num_genotype_success_ := num_genotype_success_ p;
          num_genotype_fail_ := num_genotype_fail_ p;
          trace := trace p ++ [Log (MsgSkippingLocus (count_reads alignments)
                                      (MIN_TOTAL_READS cfg))] |}.
Proof.
  intros Hmin Hfew.
  unfold Genotyper.analyze_reads_and_phasing, Genotyper.prepare_locus.
  rewrite count_total_reads_spec, wrap32_id.
  - by rewrite (proj2 (Z.ltb_lt _ _) Hfew).
  - pose proof (count_reads_nonneg alignments). unfold int32_range in *. lia.
Qed.

(** C10. With stutter models read from file and the sequence-based
    genotyper in use, the extraction loop does not run: whatever the reads,
    it leaves its state as it is, so a locus that passed the first check on
    the number of reads goes on with no read skipped or excluded and nothing
    logged. *)
Theorem loaded_models_and_seq_genotyper_skip_extraction
    cfg alignments log_p1s log_p2s rg_names region p :
  read_stutter_models_ cfg = true →
  use_seq_aligner_ cfg = true →
  (∀ e, extract_lengths cfg region alignments log_p1s log_p2s e = Ok e)
  ∧ (¬ count_total_reads alignments < MIN_TOTAL_READS cfg →
     prepare_locus cfg region alignments log_p1s log_p2s rg_names p
     = (_ ← assert NDEBUG
              ((length alignments =? length log_p1s)%nat
               && (length alignments =? length log_p2s)%nat
               && (length alignments =? length rg_names)%nat);
        Ok (Proceed (extraction_init (length alignments) p)))).
Proof.
  intros Hread Hseq.
  assert (Hskip : ∀ e, extract_lengths cfg region alignments log_p1s log_p2s e = Ok e).
  { intros e. unfold Genotyper.extract_lengths. by rewrite Hread, Hseq. }
  split; [done|]. intros Hpass. unfold Genotyper.prepare_locus.
  rewrite (proj2 (Z.ltb_ge _ _)) by lia.
  destruct (assert _ _); simpl; try done.
  rewrite Hskip. simpl. rewrite Z.sub_0_r.
  rewrite count_total_reads_spec, wrap32_id by apply wrap32_range.
  rewrite <- count_total_reads_spec. by rewrite (proj2 (Z.ltb_ge _ _)) by lia.
Qed.

Lemma wrap32_congr a k : wrap32 (a + k * 2 ^ 32) = wrap32 a.
Proof.
  unfold wrap32. replace (a + k * 2 ^ 32 + 2 ^ 31) with (a + 2 ^ 31 + k * 2 ^ 32) by lia.
  by rewrite Z_mod_plus_full.
Qed.

Lemma wrap32_opp a : wrap32 (- wrap32 a) = wrap32 (- a).
Proof.
  assert (∃ k, wrap32 a = a + k * 2 ^ 32) as [k ->].
  { exists (- ((a + 2 ^ 31) / 2 ^ 32)). unfold wrap32.
    pose proof (Z.div_mod (a + 2 ^ 31) (2 ^ 32)). lia. }
  replace (- (a + k * 2 ^ 32)) with (- a + (- k) * 2 ^ 32) by lia.
  apply wrap32_congr.
Qed.

Lemma min_bp_diff_spec region :
  int32_range (- (stop region - start region + 1)) →
  min_bp_diff region = - (stop region - start region + 1).
Proof.
  intros H. unfold min_bp_diff. by rewrite wrap32_add_l, wrap32_opp, wrap32_id.
Qed.

(** C7. For a read whose length difference [ExtractCigar] computes: a
    difference equal to minus the length of the reference allele is kept
    (it is appended to the lengths of the read group, with the phasing
    log-likelihoods of the read, and counted as informative); a
    difference one below it is excluded, with a warning in the log and
    nothing else changed. *)
Theorem bp_diff_at_the_exclusion_threshold
    region log_p1s log_p2s i j aln e bp_diff :
  int32_range (- (stop region - start region + 1)) →
  ExtractCigar (CigarData aln) (Position aln)
    (wrap32 (start region - period region)) (wrap32 (stop region + period region))
  = Some bp_diff →
  (bp_diff = - (stop region - start region + 1) →
   extract_read region log_p1s log_p2s i j aln e
   = (log_p ← (if (length log_p1s =? 0)%nat then Ok (0%float, 0%float)
               else log_p1 ← at_index2 log_p1s i j;
                    log_p2 ← at_index2 log_p2s i j;
                    Ok (log_p1, log_p2));
      Ok {| str_bp_lengths := push_back i bp_diff (str_bp_lengths e);
            str_log_p1s := push_back i log_p.1 (str_log_p1s e);
            str_log_p2s := push_back i log_p.2 (str_log_p2s e);
            inf_reads := incr32 (inf_reads e);
            skip_count := skip_count e;
            ex_processor := ex_processor e |}))
  ∧ (bp_diff = - (stop region - start region + 1) - 1 →
     extract_read region log_p1s log_p2s i j aln e
     = Ok {| str_bp_lengths := str_bp_lengths e;
             str_log_p1s := str_log_p1s e;
             str_log_p2s := str_log_p2s e;
             inf_reads := inf_reads e;
             skip_count := skip_count e;
             ex_processor :=
               {| num_em_converge_ := num_em_converge_ (ex_processor e);
                  num_em_fail_ := num_em_fail_ (ex_processor e);
                  num_genotype_success_ := num_genotype_success_ (ex_processor e);
                  num_genotype_fail_ := num_genotype_fail_ (ex_processor e);
                  trace := trace (ex_processor e) ++ [Log (MsgExcludingRead (Name aln))] |} |}).
Proof.
  intros Hrange Hcigar. unfold Genotyper.extract_read. rewrite Hcigar.
  rewrite (min_bp_diff_spec _ Hrange). split; intros ->.
  - rewrite Z.ltb_irrefl. destruct (length log_p1s =? 0)%nat; [done|].
    destruct (at_index2 log_p1s i j); simpl; try done.
    destruct (at_index2 log_p2s i j); simpl; done.
  - by rewrite (proj2 (Z.ltb_lt _ _)) by lia.
Qed.

Lemma only_warnings_refl p : only_warnings p p.
Proof. unfold only_warnings. split_and!; try done. exists []. by rewrite app_nil_r. Qed.

Lemma extract_read_only_warnings p region log_p1s log_p2s i j aln e e' :
  only_warnings p (ex_processor e) →
  extract_read region log_p1s log_p2s i j aln e = Ok e' →
  only_warnings p (ex_processor e').
Proof.
  intros Hw. unfold Genotyper.extract_read.
  destruct (ExtractCigar _ _ _ _) as [bp_diff|]; [|by intros [= <-]].
  destruct (bp_diff <? _).
  - intros [= <-]. simpl. destruct Hw as (? & ? & ? & ? & excluded & Ht).
    unfold only_warnings. simpl. split_and!; try done.
    exists (excluded ++ [Name aln]). by rewrite Ht, fmap_app, app_assoc.
  - destruct (length log_p1s =? 0)%nat; [by intros [= <-]|].
    intros H. apply bind_Ok in H as (? & _ & H). apply bind_Ok in H as (? & _ & H).
    by injection H as <-.
Qed.

Lemma extract_lengths_only_warnings p cfg region alignments log_p1s log_p2s e e' :
  only_warnings p (ex_processor e) →
  extract_lengths cfg region alignments log_p1s log_p2s e = Ok e' →
  only_warnings p (ex_processor e').
Proof.
  intros Hw. unfold Genotyper.extract_lengths.
  destruct (_ || _); [|by intros [= <-]].
  apply (for_each_invariant _ (λ e, only_warnings p (ex_processor e))); [|done].
  intros e1 i e2 H1 H. apply bind_Ok in H as (row & _ & H). revert H.
  apply (for_each_invariant _ (λ e, only_warnings p (ex_processor e))); [|done].
  intros e3 j e4 H3 H. apply bind_Ok in H as (aln & _ & H).
  by eapply extract_read_only_warnings.
Qed.

(** C4. In train mode, at a locus that gets as far as training and whose
    training does not converge: the failure counter is incremented once and
    the other three counters stay as they were, no stutter model comes out,
    and after the line about the failed training the function only writes
    the timing line, so that neither genotyper runs. *)
Theorem failed_training_skips_genotyping
    cfg alignments log_p1s log_p2s rg_names region ref_allele chrom_seq p e g :
  let haploid := bool_decide (chrom region ∈ haploid_chroms_ cfg) in
  read_stutter_models_ cfg = false →
  prepare_locus cfg region alignments log_p1s log_p2s rg_names p = Ok (Proceed e) →
  train (new_length_genotyper region haploid e rg_names)
    (MAX_EM_ITER cfg) (ABS_LL_CONVERGE cfg) (FRAC_LL_CONVERGE cfg) false = (false, g) →
  (acquire_stutter_model cfg region haploid e rg_names).1.1 = None
  ∧ ∃ excluded,
      analyze_reads_and_phasing cfg alignments log_p1s log_p2s rg_names region
        ref_allele chrom_seq p
      = Ok {| num_em_converge_ := num_em_converge_ p;
              num_em_fail_ := incr32 (num_em_fail_ p);
              num_genotype_success_ := num_genotype_success_ p;
              num_genotype_fail_ := num_genotype_fail_ p;
              trace :=
                trace p ++ ((λ name, Log (MsgExcludingRead name)) <$> excluded)
                ++ [Log MsgBuildingEM; NewEMStutterGenotyper; Log MsgTrainingEM; Train;
                    Log (MsgTrainingFailed (chrom region) (start region) (stop region)
                           (inf_reads e));
                    Log (MsgLocusTiming false false)] |}.
Proof.
  intros haploid Hmode Hprep Htrain.
  assert (Hacq : acquire_stutter_model cfg region haploid e rg_names
                 = (None, Some g,
                    emit (Log (MsgTrainingFailed (chrom region) (start region) (stop region)
                                 (inf_reads e)))
                      (incr_em_fail
                         (emit Train
                            (emit (Log MsgTrainingEM)
                               (emit NewEMStutterGenotyper
                                  (emit (Log MsgBuildingEM) (ex_processor e)))))))).
  { unfold Genotyper.acquire_stutter_model. rewrite Hmode.
    by rewrite Htrain. }
  split; [by rewrite Hacq|].
  assert (Hw : only_warnings p (ex_processor e)).
  { unfold Genotyper.prepare_locus in Hprep.
    destruct (_ <? _); [done|].
    apply bind_Ok in Hprep as (? & _ & Hprep). apply bind_Ok in Hprep as (e' & He & Hprep).
    destruct (_ <? _); [done|]. injection Hprep as ->.
    eapply extract_lengths_only_warnings; [|exact He]. apply only_warnings_refl. }
  destruct Hw as (W1 & W2 & W3 & W4 & excluded & Wt). exists excluded.
  unfold Genotyper.analyze_reads_and_phasing. rewrite Hprep. simpl.
  fold haploid. rewrite Hacq. simpl. unfold emit, incr_em_fail. simpl.
  rewrite W1, W2, W3, W4, Wt. do 2 f_equal.
  by rewrite <- !app_assoc.
Qed.

Lemma for_each_total_invariant {A S} (body : S → A → result S) (I : S → Prop) l : ∀ s,
  (∀ s a, a ∈ l → I s → ∃ s', body s a = Ok s' ∧ I s') →
  I s → ∃ s', for_each body l s = Ok s' ∧ I s'.
Proof.
  induction l as [|a l IH]; intros s Hbody Hs; simpl.
  - eauto.
  - destruct (Hbody s a) as (s1 & -> & H1); [by left|done|]. simpl.
    apply IH; [|done]. intros s2 b Hb. apply Hbody. by right.
Qed.

Lemma push_back_lookup {A} (v : list (list A)) i x k :
  push_back i x v !! k = (if decide (i = k) then (λ row, row ++ [x]) <$> v !! k else v !! k).
Proof.
  unfold push_back. case_decide as Hk.
  - subst. apply list_lookup_alter_eq.
  - by apply list_lookup_alter_ne.
Qed.

Lemma extract_read_no_phasing region log_p2s i j aln e :
  equal_likelihoods e →
  ∃ e', extract_read region [] log_p2s i j aln e = Ok e'
        ∧ equal_likelihoods e'
        ∧ only_warnings (ex_processor e) (ex_processor e').
Proof.
  intros He. unfold Genotyper.extract_read.
  destruct (ExtractCigar _ _ _ _) as [bp_diff|];
    [destruct (bp_diff <? _)|]; simpl; eexists; (split; [done|]).
  - split; [done|]. unfold only_warnings. simpl. split_and!; try done.
    by exists [Name aln].
  - split; [|apply only_warnings_refl].
    intros k lengths. simpl. rewrite !push_back_lookup.
    case_decide; [|apply He].
    destruct (str_bp_lengths e !! k) as [row|] eqn:Hrow; [|done].
    simpl. intros [= <-]. destruct (He k row Hrow) as [-> ->]. simpl.
    rewrite length_app. simpl. rewrite Nat.add_1_r.
    by rewrite replicate_S_end.
  - split; [done|apply only_warnings_refl].
Qed.

(** C8. When no phasing log-likelihoods are supplied ([log_p1s] is empty),
    the extraction of the lengths returns, and every length it recorded
    comes with the log-likelihood 0 for both haplotypes. *)
Theorem no_phasing_gives_equal_likelihoods cfg region alignments log_p2s p :
  ∃ e,
    extract_lengths cfg region alignments [] log_p2s
      (extraction_init (length alignments) p) = Ok e
    ∧ ∀ i lengths,
        str_bp_lengths e !! i = Some lengths →
        str_log_p1s e !! i = Some (replicate (length lengths) 0%float)
        ∧ str_log_p2s e !! i = Some (replicate (length lengths) 0%float).
Proof.
  assert (Hinit : equal_likelihoods (extraction_init (length alignments) p)).
  { intros i lengths. unfold extraction_init. simpl.
    intros [-> ?]%lookup_replicate. by rewrite lookup_replicate_2. }
  unfold Genotyper.extract_lengths. destruct (_ || _); [|eauto].
  apply (for_each_total_invariant _ equal_likelihoods); [|done].
  intros e i Hi He.
  apply elem_of_seq in Hi as [_ Hi]. simpl in Hi.
  destruct (lookup_lt_is_Some_2 alignments i Hi) as [row Hrow].
  rewrite (proj2 (at_index_Ok _ _ _) Hrow). simpl.
  apply (for_each_total_invariant _ equal_likelihoods); [|done].
  intros e1 j Hj He1. apply elem_of_seq in Hj as [_ Hj]. simpl in Hj.
  destruct (lookup_lt_is_Some_2 row j Hj) as [aln Haln].
  rewrite (proj2 (at_index2_Ok _ _ _ _)) by eauto. simpl.
  destruct (extract_read_no_phasing region log_p2s i j aln e1 He1) as (e2 & ? & ? & _).
  eauto.
Qed.

End AnalysisFacts.

(** * Further properties of duplicate removal *)

Section ExactFacts.

Variable std_sort : list ReadPair → list ReadPair.
Variable NDEBUG : bool.
Variable base_quality : BaseQuality.
Variable use_bam_rgs : bool.

Lemma same_libraries_refl m : same_libraries m m.
Proof. done. Qed.

Lemma resolve_library_exact m0 aln m library m' :
  same_libraries m0 m →
  resolve_library use_bam_rgs aln m = Ok (library, m') →
  library = library_of use_bam_rgs m0 aln
  ∧ same_libraries m0 m'
  ∧ m ⊆ m'
  ∧ (use_bam_rgs = true → m' = m)
  ∧ (use_bam_rgs = false → is_Some (m' !! Filename aln))
  ∧ (∀ key, is_Some (m' !! key) → is_Some (m !! key) ∨ key = Filename aln).
Proof.
  intros Hsame. unfold resolve_library, library_of. destruct use_bam_rgs.
  - unfold get_library. destruct (RG aln) as [rg|]; [|done].
    destruct (m !! rg) as [lib|] eqn:Hrg; [|done]. simpl. intros [= <- <-].
    split_and!; [by rewrite <- Hsame, Hrg|done..|auto].
  - unfold map_subscript. destruct (m !! Filename aln) as [lib|] eqn:Hf.
    + intros [= <- <-].
      split_and!; [by rewrite <- Hsame, Hf|done|done|done|eauto|auto].
    + intros [= <- <-]. split_and!.
      * by rewrite <- Hsame, Hf.
      * intros key. destruct (decide (key = Filename aln)) as [->|Hne].
        -- rewrite lookup_insert_eq, <- Hsame, Hf. done.
        -- rewrite lookup_insert_ne by done. apply Hsame.
      * by apply insert_subseteq.
      * done.
      * rewrite lookup_insert_eq. eauto.
      * intros key. destruct (decide (key = Filename aln)) as [->|Hne]; [auto|].
        rewrite lookup_insert_ne by done. auto.
Qed.

Lemma map_grows_nil m0 m : same_libraries m0 m → map_grows use_bam_rgs m0 m m [].
Proof.
  intros H. unfold map_grows. split_and!; try done; [|auto].
  intros _ aln Hin. by apply elem_of_nil in Hin.
Qed.

Lemma map_grows_step m0 m m1 m2 aln reads library :
  same_libraries m0 m →
  resolve_library use_bam_rgs aln m = Ok (library, m1) →
  map_grows use_bam_rgs m0 m1 m2 reads →
  map_grows use_bam_rgs m0 m m2 (aln :: reads).
Proof.
  intros Hsame Hres (G1 & G2 & G3 & G4 & G5).
  destruct (resolve_library_exact _ _ _ _ _ Hsame Hres) as (_ & R2 & R3 & R4 & R5 & R6).
  unfold map_grows. split_and!.
  - done.
  - by etrans.
  - intros Hrg. rewrite G3, R4; done.
  - intros Hf a [->|Hin]%elem_of_cons; [|by apply G4].
    destruct (R5 Hf) as [lib Hlib]. exists lib.
    by eapply lookup_weaken.
  - intros key [Hkey|(a & Hin & ->)]%G5.
    + destruct (R6 key Hkey) as [?| ->]; [auto|]. right. exists aln. split; [by left|done].
    + right. exists a. split; [by right|done].
Qed.

Lemma map_grows_trans m0 m m1 m2 reads1 reads2 :
  map_grows use_bam_rgs m0 m m1 reads1 → map_grows use_bam_rgs m0 m1 m2 reads2 →
  map_grows use_bam_rgs m0 m m2 (reads1 ++ reads2).
Proof.
  intros (G1 & G2 & G3 & G4 & G5) (H1 & H2 & H3 & H4 & H5).
  unfold map_grows. split_and!.
  - done.
  - by etrans.
  - intros Hrg. rewrite H3, G3; done.
  - intros Hf a [Hin|Hin]%elem_of_app; [|by apply H4].
    destruct (G4 Hf a Hin) as [lib Hlib]. exists lib. by eapply lookup_weaken.
  - intros key [Hkey|(a & Hin & ->)]%H5.
    + destruct (G5 key Hkey) as [?|(a & Hin & ->)]; [auto|].
      right. exists a. split; [|done]. apply elem_of_app. auto.
    + right. exists a. split; [|done]. apply elem_of_app. auto.
Qed.

Lemma add_paired_loop_exact m0 s i strs mates n : ∀ a acc acc',
  paired_strs_by_rg s !! i = Some strs →
  mate_pairs_by_rg s !! i = Some mates →
  same_libraries m0 acc.2 →
  for_each (add_paired use_bam_rgs i s) (seq a n) acc = Ok acc' →
  acc'.1 =
    acc.1 ++ zip_with (λ aln_1 aln_2,
                ReadPair_paired aln_1 aln_2 (library_of use_bam_rgs m0 aln_1))
               (take n (drop a strs)) (drop a mates)
  ∧ (length (take n (drop a strs)) ≤ length (drop a mates))%nat
  ∧ map_grows use_bam_rgs m0 acc.2 acc'.2 (take n (drop a strs)).
Proof.
  induction n as [|n IH]; intros a acc acc' Hs Hm Hsame H; simpl in H.
  - injection H as <-. simpl. rewrite app_nil_r.
    split_and!; [done|lia|by apply map_grows_nil].
  - apply bind_Ok in H as (acc1 & Hb & H). unfold add_paired in Hb.
    apply bind_Ok in Hb as (a1 & Ha1 & Hb).
    apply bind_Ok in Hb as ([library m] & Hlib & Hb).
    apply bind_Ok in Hb as (a3 & Ha3 & Hb). injection Hb as <-.
    apply at_index2_Ok in Ha1 as (row1 & Hr1 & Ha1), Ha3 as (row3 & Hr3 & Ha3).
    rewrite Hs in Hr1. rewrite Hm in Hr3. injection Hr1 as <-. injection Hr3 as <-.
    destruct (resolve_library_exact _ _ _ _ _ Hsame Hlib) as (-> & R2 & _).
    destruct (IH (S a) (acc.1 ++ [ReadPair_paired a1 a3 (library_of use_bam_rgs m0 a1)], m)
                acc' Hs Hm R2 H) as (E & L & G). simpl in E, G.
    rewrite (drop_S _ _ _ Ha1), (drop_S _ _ _ Ha3). simpl.
    rewrite E, <- app_assoc. split_and!; [done|lia|].
    by eapply map_grows_step.
Qed.

Lemma add_unpaired_loop_exact m0 s i unpaired n : ∀ a acc acc',
  unpaired_strs_by_rg s !! i = Some unpaired →
  same_libraries m0 acc.2 →
  for_each (add_unpaired use_bam_rgs i s) (seq a n) acc = Ok acc' →
  acc'.1 =
    acc.1 ++ ((λ aln_1, ReadPair_single aln_1 (library_of use_bam_rgs m0 aln_1))
              <$> take n (drop a unpaired))
  ∧ map_grows use_bam_rgs m0 acc.2 acc'.2 (take n (drop a unpaired)).
Proof.
  induction n as [|n IH]; intros a acc acc' Hu Hsame H; simpl in H.
  - injection H as <-. simpl. rewrite app_nil_r.
    split; [done|by apply map_grows_nil].
  - apply bind_Ok in H as (acc1 & Hb & H). unfold add_unpaired in Hb.
    apply bind_Ok in Hb as (a1 & Ha1 & Hb).
    apply bind_Ok in Hb as ([library m] & Hlib & Hb). injection Hb as <-.
    apply at_index2_Ok in Ha1 as (row1 & Hr1 & Ha1).
    rewrite Hu in Hr1. injection Hr1 as <-.
    destruct (resolve_library_exact _ _ _ _ _ Hsame Hlib) as (-> & R2 & _).
    destruct (IH (S a) (acc.1 ++ [ReadPair_single a1 (library_of use_bam_rgs m0 a1)], m)
                acc' Hu R2 H) as (E & G). simpl in E, G.
    rewrite (drop_S _ _ _ Ha1). simpl.
    rewrite E, <- app_assoc. split; [done|].
    by eapply map_grows_step.
Qed.

Lemma process_read_group_exact m0 s i s' :
  same_libraries m0 (rg_to_library s) →
  process_read_group std_sort NDEBUG base_quality use_bam_rgs s i = Ok s' →
  ∃ strs mates unpaired,
    group_exact std_sort base_quality use_bam_rgs m0 s s' i strs mates unpaired.
Proof.
  unfold process_read_group. intros Hsame H.
  apply bind_Ok in H as (? & _ & H).
  apply bind_Ok in H as (strs & Hs & H).
  apply bind_Ok in H as (acc1 & Hl1 & H).
  apply bind_Ok in H as (unpaired & Hu & H).
  apply bind_Ok in H as (acc2 & Hl2 & H).
  apply bind_Ok in H as (v1 & Hi1 & H).
  apply bind_Ok in H as (v2 & Hi2 & H).
  apply bind_Ok in H as (v3 & Hi3 & H).
  apply at_index_Ok in Hs, Hu.
  apply clear_Ok in Hi1 as [-> Hi1], Hi2 as [-> Hi2], Hi3 as [-> Hi3].
  destruct (lookup_lt_is_Some_2 _ _ Hi2) as [mates Hm].
  destruct (add_paired_loop_exact m0 s i strs mates (length strs) 0 ([], rg_to_library s)
              acc1 Hs Hm Hsame Hl1) as (E1 & L1 & G1).
  simpl in E1, G1. rewrite !drop_0 in *. rewrite firstn_all in *.
  destruct (add_unpaired_loop_exact m0 s i unpaired (length unpaired) 0 acc1 acc2
              Hu (proj1 G1) Hl2) as (E2 & G2).
  rewrite drop_0, firstn_all in *. rewrite E1 in E2.
  pose proof (map_grows_trans _ _ _ _ _ _ G1 G2) as G.
  exists strs, mates, unpaired. unfold group_exact, discarded, read_pairs_of.
  rewrite <- E2.
  destruct (std_sort acc2.1) as [|p rest] eqn:Hsort; simpl in H;
    injection H as <-; simpl.
  - done.
  - destruct (scan_spec base_quality i p rest
        {| best_index := 0;
           scan_paired := <[i:=[]]> (paired_strs_by_rg s);
           scan_mates := <[i:=[]]> (mate_pairs_by_rg s);
           scan_unpaired := <[i:=[]]> (unpaired_strs_by_rg s);
           scan_dup_count := dup_count s |} eq_refl) as (S1 & S2 & S3 & S4).
    simpl in S1, S2, S3, S4. rewrite S1, S2, S3, S4, !append_row_clear.
    split_and!; try done.
    f_equal. pose proof (retained_from_length base_quality rest p). lia.
Qed.

Lemma loop_exact n : ∀ s0 s,
  for_each (process_read_group std_sort NDEBUG base_quality use_bam_rgs) (seq 0 n) s0 = Ok s →
  groups_exact std_sort base_quality use_bam_rgs s0 s n.
Proof.
  induction n as [|n IH]; intros s0 s H.
  - simpl in H. injection H as <-. unfold groups_exact. simpl.
    split_and!; try done; [intros; lia|auto].
  - rewrite seq_S, for_each_app in H. apply bind_Ok in H as (s1 & H1 & H). simpl in H.
    apply bind_Ok in H as (s2 & H2 & H). injection H as ->.
    pose proof (loop_frame _ _ _ _ _ _ _ H1 n (le_n n)) as (F1 & F2 & F3).
    apply IH in H1 as (I1 & I2 & I3 & I4 & I5 & I6 & I7).
    apply (process_read_group_exact (rg_to_library s0)) in H2
      as (strs & mates & unpaired & G1 & G2 & G3 & G4 & G5 & G6 & G7 & G8 & G9
          & M1 & M2 & M3 & M4 & M5); [|done].
    rewrite F1 in G1. rewrite F2 in G2. rewrite F3 in G3.
    pose proof (lookup_lt_Some _ _ _ G1) as Hn1.
    pose proof (lookup_lt_Some _ _ _ G2) as Hn2.
    pose proof (lookup_lt_Some _ _ _ G3) as Hn3.
    assert (Hl1 : (n < length (paired_strs_by_rg s1))%nat).
    { apply lookup_lt_is_Some. rewrite F1. eauto. }
    assert (Hl2 : (n < length (mate_pairs_by_rg s1))%nat).
    { apply lookup_lt_is_Some. rewrite F2. eauto. }
    assert (Hl3 : (n < length (unpaired_strs_by_rg s1))%nat).
    { apply lookup_lt_is_Some. rewrite F3. eauto. }
    unfold groups_exact. rewrite G5, G6, G7. split_and!.
    + done.
    + by etrans.
    + intros Hrg. rewrite M3, I3; done.
    + congruence.
    + intros i Hi. destruct (decide (i = n)) as [->|Hne].
      * exists strs, mates, unpaired. rewrite !list_lookup_insert_eq by done.
        split_and!; try done.
      * rewrite !list_lookup_insert_ne by done.
        destruct (I5 i) as (strs' & mates' & unpaired' & J); [lia|].
        exists strs', mates', unpaired'. simpl in J.
        destruct J as (J1 & J2 & J3 & J4 & J5 & J6 & J7 & J8).
        split_and!; try done.
        intros Hf aln Hin. destruct (J8 Hf aln Hin) as [lib Hlib].
        exists lib. by eapply lookup_weaken.
    + intros key [Hkey|(aln & Hin & ->)]%M5.
      * destruct (I6 key Hkey) as [?|(i & strs' & unpaired' & aln & Hi & J)]; [auto|].
        right. exists i, strs', unpaired', aln. split; [lia|done].
      * right. exists n, strs, unpaired, aln. split_and!; try done. lia.
    + rewrite G8, I7, seq_S, fmap_app, sum_list_with_app. simpl.
      rewrite (Nat.add_comm _ (_ + 0)), Nat.add_0_r, Nat.iter_add.
      do 2 f_equal. unfold group_read_pairs. by rewrite G1, G2, G3.
Qed.

Lemma remove_pcr_duplicates_exact m strs_by_rg mates_by_rg unpaired_by_rg log out :
  remove_pcr_duplicates std_sort NDEBUG base_quality use_bam_rgs
    m strs_by_rg mates_by_rg unpaired_by_rg log = Ok out →
  ∃ s,
    groups_exact std_sort base_quality use_bam_rgs
      {| rg_to_library := m;
         paired_strs_by_rg := strs_by_rg;
         mate_pairs_by_rg := mates_by_rg;
         unpaired_strs_by_rg := unpaired_by_rg;
         dup_count := 0;
         logger := log |} s (length strs_by_rg)
    ∧ rg_to_library out = rg_to_library s
    ∧ paired_strs_by_rg out = paired_strs_by_rg s
    ∧ mate_pairs_by_rg out = mate_pairs_by_rg s
    ∧ unpaired_strs_by_rg out = unpaired_strs_by_rg s
    ∧ dup_count out = dup_count s
    ∧ logger out = log ++ [MsgRemovedDuplicates (dup_count s)].
Proof.
  unfold remove_pcr_duplicates. intros H.
  apply bind_Ok in H as (? & _ & H). apply bind_Ok in H as (s & Hs & H).
  injection H as <-. exists s. simpl.
  apply loop_exact in Hs as Hpost.
  split_and!; try done. f_equal.
  by destruct Hpost as (_ & _ & _ & -> & _).
Qed.

End ExactFacts.

(** ** More on what the scan keeps *)

Section RetainedMore.

Variable base_quality : BaseQuality.

Lemma retained_from_sublist rest : ∀ best,
  retained_from base_quality best rest `sublist_of` best :: rest.
Proof.
  induction rest as [|p rest IH]; intros best; simpl; [done|].
  destruct (duplicate p best).
  - destruct (_ <? _)%float.
    + apply sublist_cons. apply IH.
    + specialize (IH best). apply sublist_cons_r in IH as [IH|(k & -> & IH)].
      * by do 2 apply sublist_cons.
      * apply sublist_skip. by apply sublist_cons.
  - apply sublist_skip. apply IH.
Qed.

Lemma retained_sublist read_pairs :
  retained base_quality read_pairs `sublist_of` read_pairs.
Proof. destruct read_pairs; simpl; [done|]. apply retained_from_sublist. Qed.

(** Every pair has a kept pair of its signature. *)
Lemma retained_from_represents rest : ∀ best x,
  x ∈ best :: rest →
  ∃ y, y ∈ retained_from base_quality best rest ∧ signature y = signature x.
Proof.
  induction rest as [|p rest IH]; intros best x Hx; simpl.
  - apply list_elem_of_singleton in Hx as ->. exists best. split; [by left|done].
  - destruct (duplicate p best) eqn:Hd.
    + apply duplicate_signature in Hd.
      assert (∃ x', x' ∈ (if (quality base_quality best <? quality base_quality p)%float
                          then p else best) :: rest
                    ∧ signature x' = signature x) as (x' & Hx' & <-).
      { apply elem_of_cons in Hx as [->|[->|Hx]%elem_of_cons].
        - eexists. split; [by left|]. by destruct (_ <? _)%float.
        - eexists. split; [by left|]. by destruct (_ <? _)%float.
        - exists x. split; [by right|done]. }
      by apply IH.
    + apply elem_of_cons in Hx as [->|Hx].
      * exists best. split; [by left|done].
      * destruct (IH p x Hx) as (y & Hy & Hsig). exists y. split; [by right|done].
Qed.

Lemma retained_represents read_pairs x :
  x ∈ read_pairs →
  ∃ y, y ∈ retained base_quality read_pairs ∧ signature y = signature x.
Proof. destruct read_pairs; simpl; [by intros ?%elem_of_nil|]. apply retained_from_represents. Qed.

(** A vector without two pairs of one signature is kept whole. *)
Lemma retained_from_all rest : ∀ best,
  NoDup (signature <$> best :: rest) →
  retained_from base_quality best rest = best :: rest
  ∧ removed_from base_quality best rest = 0%nat.
Proof.
  induction rest as [|p rest IH]; intros best Hnd; simpl; [done|].
  rewrite !fmap_cons in Hnd. apply NoDup_cons in Hnd as [Hbest Hnd].
  assert (duplicate p best = false) as ->.
  { apply duplicate_false_signature. intros Heq. apply Hbest. rewrite <- Heq. by left. }
  destruct (IH p Hnd) as [-> ->]. done.
Qed.

Lemma retained_all read_pairs :
  NoDup (signature <$> read_pairs) → retained base_quality read_pairs = read_pairs.
Proof.
  destruct read_pairs as [|p rest]; simpl; [done|]. intros H.
  by destruct (retained_from_all rest p H).
Qed.

Lemma kept_partition kept :
  paired_of kept ++ unpaired_of kept ≡ₚ aln_one <$> kept.
Proof.
  unfold paired_of, unpaired_of. rewrite <- fmap_app. apply fmap_Permutation.
  induction kept as [|p kept IH]; [done|].
  rewrite !filter_cons. destruct (single_ended p);
    repeat (case_decide; try congruence); simpl.
  - rewrite <- Permutation_middle. by constructor.
  - by constructor.
Qed.

(** In a sorted vector the kept pairs stand in strictly increasing order. *)
Lemma strictly_sorted l :
  StronglySorted not_after l → NoDup (signature <$> l) →
  StronglySorted (λ a b, ReadPair_lt a b = true) l.
Proof.
  induction 1 as [|a l Hl IH Ha]; intros Hnd; constructor.
  - apply IH. rewrite fmap_cons in Hnd. by apply NoDup_cons in Hnd as [_ ?].
  - rewrite fmap_cons in Hnd. apply NoDup_cons in Hnd as [Hnot _].
    apply Forall_forall. intros b Hb.
    pose proof (proj1 (Forall_forall _ _) Ha b Hb) as Hab.
    apply not_after_compare in Hab.
    rewrite ReadPair_lt_compare.
    destruct (signature_compare a b) eqn:E; try done.
    apply signature_compare_eq in E. exfalso. apply Hnot. rewrite E.
    by apply list_elem_of_fmap_2.
Qed.

Lemma StronglySorted_sublist {A} (R : relation A) l k :
  l `sublist_of` k → StronglySorted R k → StronglySorted R l.
Proof.
  induction 1 as [|x l k Hsub IH|x l k Hsub IH]; intros Hk.
  - constructor.
  - apply StronglySorted_inv in Hk as [Hk Hx]. constructor; [by apply IH|].
    apply Forall_forall. intros y Hy. apply (proj1 (Forall_forall _ _) Hx).
    by eapply elem_of_sublist.
  - apply StronglySorted_inv in Hk as [Hk _]. by apply IH.
Qed.

Lemma retained_strictly_sorted read_pairs :
  Sorted not_after read_pairs →
  StronglySorted (λ a b, ReadPair_lt a b = true) (retained base_quality read_pairs).
Proof.
  intros Hs. apply strictly_sorted; [|by apply retained_NoDup].
  apply (StronglySorted_sublist _ _ read_pairs); [apply retained_sublist|].
  by apply Sorted_StronglySorted; [apply _|].
Qed.

Lemma filter_paired_singles (library : BamAlignment → string) (l : list BamAlignment) :
  filter (λ p, single_ended p = false) ((λ aln_1, ReadPair_single aln_1 (library aln_1)) <$> l)
  = [].
Proof.
  induction l as [|a l IH]; [done|]. rewrite fmap_cons, filter_cons.
  case_decide as H; [done|]. apply IH.
Qed.

Lemma aln_one_read_pairs_of use_bam_rgs m strs mates unpaired :
  (length strs ≤ length mates)%nat →
  aln_one <$> read_pairs_of use_bam_rgs m strs mates unpaired = strs ++ unpaired.
Proof.
  intros Hlen. unfold read_pairs_of. rewrite fmap_app. f_equal.
  - by apply fmap_zip_with_l.
  - rewrite <- list_fmap_compose. apply list_fmap_id.
Qed.

End RetainedMore.

(** ** The order and the vectors, further *)

Section OrderMore.

(** X1. [ReadPair::operator<] is a strict weak ordering whose classes of
    incomparable pairs are the sets [ReadPair::duplicate] forms: it is
    irreflexive and transitive, "not less" is transitive, and two pairs
    are duplicates exactly when neither is less than the other. *)
Theorem ReadPair_lt_strict_weak_order a b c :
  ReadPair_lt a a = false
  ∧ (ReadPair_lt a b = true → ReadPair_lt b c = true → ReadPair_lt a c = true)
  ∧ (ReadPair_lt a b = false → ReadPair_lt b c = false → ReadPair_lt a c = false)
  ∧ (duplicate a b = true ↔ ReadPair_lt a b = false ∧ ReadPair_lt b a = false).
Proof.
  split_and!.
  - apply (not_after_refl a).
  - rewrite !ReadPair_lt_compare. intros Hab Hbc.
    destruct (signature_compare a b) eqn:E1; try done.
    destruct (signature_compare b c) eqn:E2; try done.
    by rewrite (signature_compare_lt_trans a b c).
  - intros Hab Hbc. by apply (not_after_trans c b a).
  - rewrite duplicate_compare, !ReadPair_lt_compare, (signature_compare_antisym b a).
    destruct (signature_compare a b); simpl; split; (done || by intros []).
Qed.

End OrderMore.

Section VectorsMore.

Variable std_sort : list ReadPair → list ReadPair.
Hypothesis std_sort_permutation : ∀ l, std_sort l ≡ₚ l.
Hypothesis std_sort_sorted : ∀ l, Sorted not_after (std_sort l).
Variable NDEBUG : bool.
Variable base_quality : BaseQuality.
Variable use_bam_rgs : bool.

Local Abbreviation remove_pcr_duplicates :=
  (remove_pcr_duplicates std_sort NDEBUG base_quality use_bam_rgs).
Local Abbreviation kept_of m strs mates unpaired :=
  (retained base_quality (std_sort (read_pairs_of use_bam_rgs m strs mates unpaired))).

(** The vectors of a read group after the call, in terms of the vectors
    before it. *)
Lemma group_output m strs_by_rg mates_by_rg unpaired_by_rg log out i strs mates unpaired :
  remove_pcr_duplicates m strs_by_rg mates_by_rg unpaired_by_rg log = Ok out →
  strs_by_rg !! i = Some strs →
  mates_by_rg !! i = Some mates →
  unpaired_by_rg !! i = Some unpaired →
  (length strs ≤ length mates)%nat
  ∧ paired_strs_by_rg out !! i = Some (paired_of (kept_of m strs mates unpaired))
  ∧ mate_pairs_by_rg out !! i = Some (mates_of (kept_of m strs mates unpaired))
  ∧ unpaired_strs_by_rg out !! i = Some (unpaired_of (kept_of m strs mates unpaired)).
Proof.
  intros (s & Hpost & _ & E1 & E2 & E3 & _)%remove_pcr_duplicates_exact Hs Hm Hu.
  destruct Hpost as (_ & _ & _ & _ & Hlt & _). simpl in Hlt.
  destruct (Hlt i) as (strs' & mates' & unpaired' & J1 & J2 & J3 & J4 & J5 & J6 & J7 & _).
  { by eapply lookup_lt_Some. }
  rewrite Hs in J1. rewrite Hm in J2. rewrite Hu in J3.
  injection J1 as <-. injection J2 as <-. injection J3 as <-.
  rewrite E1, E2, E3. done.
Qed.

Lemma filter_sublist_mono {A} (P : A → Prop) `{!∀ x, Decision (P x)} (l k : list A) :
  l `sublist_of` k → filter P l `sublist_of` filter P k.
Proof.
  induction 1 as [|x l k Hsub IH|x l k Hsub IH]; [done| |].
  - rewrite !filter_cons. case_decide; [by apply sublist_skip|done].
  - rewrite filter_cons. case_decide; [by apply sublist_cons|done].
Qed.

Lemma kept_of_submseteq m strs mates unpaired :
  kept_of m strs mates unpaired ⊆+ read_pairs_of use_bam_rgs m strs mates unpaired.
Proof.
  trans (std_sort (read_pairs_of use_bam_rgs m strs mates unpaired)).
  - apply sublist_submseteq, retained_sublist.
  - apply Permutation_submseteq, std_sort_permutation.
Qed.

(** C1. After [remove_pcr_duplicates] returns, the three vectors of every
    read group hold exactly the pairs of a list [kept] of read pairs among
    the ones lines 79-86 build from the group's input, each with the library
    line 80 or 84 looks up for its STR read, and no two pairs of [kept] have
    the same (library, min start, max start) signature. *)
Theorem retained_pairs_have_distinct_signatures
    m strs_by_rg mates_by_rg unpaired_by_rg log out i strs' mates' unpaired' :
  remove_pcr_duplicates m strs_by_rg mates_by_rg unpaired_by_rg log = Ok out →
  paired_strs_by_rg out !! i = Some strs' →
  mate_pairs_by_rg out !! i = Some mates' →
  unpaired_strs_by_rg out !! i = Some unpaired' →
  ∃ kept strs mates unpaired,
    strs_by_rg !! i = Some strs
    ∧ mates_by_rg !! i = Some mates
    ∧ unpaired_by_rg !! i = Some unpaired
    ∧ kept ⊆+ read_pairs_of use_bam_rgs m strs mates unpaired
    ∧ strs' = paired_of kept
    ∧ mates' = mates_of kept
    ∧ unpaired' = unpaired_of kept
    ∧ NoDup (signature <$> kept).
Proof.
  intros Hrun H1 H2 H3.
  pose proof Hrun as (s & Hpost & E1 & _)%remove_pcr_duplicates_spec; [|done].
  destruct Hpost as (L1 & _ & _ & _ & Hlt & _). simpl in *.
  rewrite E1 in H1. apply lookup_lt_Some in H1 as Hi. rewrite L1 in Hi.
  rewrite <- E1 in H1.
  destruct (Hlt i Hi) as (strs & mates & unpaired & built & Hs & Hm & Hu & _).
  destruct (group_output _ _ _ _ _ _ _ _ _ _ Hrun Hs Hm Hu) as (_ & O1 & O2 & O3).
  exists (kept_of m strs mates unpaired), strs, mates, unpaired.
  split_and!; try done; try congruence.
  - apply kept_of_submseteq.
  - apply retained_NoDup, std_sort_sorted.
Qed.

(** X2. The function never makes up reads: in every read group the STR
    reads it returns (paired and unpaired together) are a sub-multiset of
    the STR reads it received, and the mates it returns a sub-multiset of
    the mates. *)
Theorem output_reads_come_from_input
    m strs_by_rg mates_by_rg unpaired_by_rg log out i strs mates unpaired :
  remove_pcr_duplicates m strs_by_rg mates_by_rg unpaired_by_rg log = Ok out →
  strs_by_rg !! i = Some strs →
  mates_by_rg !! i = Some mates →
  unpaired_by_rg !! i = Some unpaired →
  ∃ strs' mates' unpaired',
    paired_strs_by_rg out !! i = Some strs'
    ∧ mate_pairs_by_rg out !! i = Some mates'
    ∧ unpaired_strs_by_rg out !! i = Some unpaired'
    ∧ strs' ++ unpaired' ⊆+ strs ++ unpaired
    ∧ mates' ⊆+ mates.
Proof.
  intros Hrun Hs Hm Hu.
  destruct (group_output _ _ _ _ _ _ _ _ _ _ Hrun Hs Hm Hu) as (Hlen & O1 & O2 & O3).
  eexists _, _, _. split_and!; [done..| |].
  - rewrite kept_partition, <- (aln_one_read_pairs_of use_bam_rgs m strs mates unpaired Hlen).
    apply fmap_submseteq, kept_of_submseteq.
  - unfold mates_of.
    trans (aln_two <$> filter (λ p, single_ended p = false)
                         (read_pairs_of use_bam_rgs m strs mates unpaired)).
    + apply fmap_submseteq.
      trans (filter (λ p, single_ended p = false)
               (std_sort (read_pairs_of use_bam_rgs m strs mates unpaired))).
      * apply sublist_submseteq, filter_sublist_mono, retained_sublist.
      * apply Permutation_submseteq. by rewrite std_sort_permutation.
    + unfold read_pairs_of. rewrite filter_app, fmap_app.
      rewrite filter_paired_singles, app_nil_r.
      trans (aln_two <$> zip_with (λ aln_1 aln_2,
                           ReadPair_paired aln_1 aln_2 (library_of use_bam_rgs m aln_1))
                           strs mates).
      * apply fmap_submseteq, sublist_submseteq, sublist_filter.
      * apply sublist_submseteq. clear. revert mates.
        induction strs as [|a strs IH]; intros [|b mates]; simpl;
          [done|apply sublist_nil_l|done|]. apply sublist_skip, IH.
Qed.

(** X3. Every signature keeps exactly one pair: the signatures of the
    pairs kept from a read group are, each once, the signatures that occur
    among the pairs of the group. *)
Theorem every_signature_keeps_one_pair
    m strs_by_rg mates_by_rg unpaired_by_rg log out i strs mates unpaired :
  remove_pcr_duplicates m strs_by_rg mates_by_rg unpaired_by_rg log = Ok out →
  strs_by_rg !! i = Some strs →
  mates_by_rg !! i = Some mates →
  unpaired_by_rg !! i = Some unpaired →
  ∃ kept,
    paired_strs_by_rg out !! i = Some (paired_of kept)
    ∧ mate_pairs_by_rg out !! i = Some (mates_of kept)
    ∧ unpaired_strs_by_rg out !! i = Some (unpaired_of kept)
    ∧ kept ⊆+ read_pairs_of use_bam_rgs m strs mates unpaired
    ∧ signature <$> kept
      ≡ₚ remove_dups (signature <$> read_pairs_of use_bam_rgs m strs mates unpaired).
Proof.
  intros Hrun Hs Hm Hu.
  destruct (group_output _ _ _ _ _ _ _ _ _ _ Hrun Hs Hm Hu) as (Hlen & O1 & O2 & O3).
  exists (kept_of m strs mates unpaired).
  split_and!; [done..|apply kept_of_submseteq|].
  apply NoDup_Permutation.
  - apply retained_NoDup, std_sort_sorted.
  - apply NoDup_remove_dups.
  - intros sg. rewrite elem_of_remove_dups, !list_elem_of_fmap. split.
    + intros (q & -> & Hq). exists q. split; [done|].
      by eapply elem_of_submseteq; [|apply kept_of_submseteq].
    + intros (p & -> & Hp). rewrite <- (std_sort_permutation _) in Hp.
      destruct (retained_represents base_quality _ _ Hp) as (q & Hq & Hsig). eauto.
Qed.

(** X4. The pairs kept from a read group are added to its vectors in
    strictly increasing order of [ReadPair::operator<]. *)
Theorem retained_pairs_come_in_order
    m strs_by_rg mates_by_rg unpaired_by_rg log out i strs mates unpaired :
  remove_pcr_duplicates m strs_by_rg mates_by_rg unpaired_by_rg log = Ok out →
  strs_by_rg !! i = Some strs →
  mates_by_rg !! i = Some mates →
  unpaired_by_rg !! i = Some unpaired →
  ∃ kept,
    paired_strs_by_rg out !! i = Some (paired_of kept)
    ∧ mate_pairs_by_rg out !! i = Some (mates_of kept)
    ∧ unpaired_strs_by_rg out !! i = Some (unpaired_of kept)
    ∧ kept ⊆+ read_pairs_of use_bam_rgs m strs mates unpaired
    ∧ StronglySorted (λ p q, ReadPair_lt p q = true) kept.
Proof.
  intros Hrun Hs Hm Hu.
  destruct (group_output _ _ _ _ _ _ _ _ _ _ Hrun Hs Hm Hu) as (Hlen & O1 & O2 & O3).
  exists (kept_of m strs mates unpaired).
  split_and!; [done..|apply kept_of_submseteq|].
  apply retained_strictly_sorted, std_sort_sorted.
Qed.

Lemma discarded_NoDup read_pairs :
  NoDup (signature <$> read_pairs) →
  retained base_quality (std_sort read_pairs) = std_sort read_pairs
  ∧ discarded std_sort base_quality read_pairs = 0%nat.
Proof.
  intros Hnd.
  assert (retained base_quality (std_sort read_pairs) = std_sort read_pairs) as Heq.
  { apply retained_all. by rewrite std_sort_permutation. }
  split; [done|]. unfold discarded. rewrite Heq. lia.
Qed.

Lemma sum_list_zero {A} (f : A → nat) l : (∀ x, f x = 0%nat) → sum_list (f <$> l) = 0%nat.
Proof. intros Hf. induction l as [|x l IH]; [done|]. rewrite fmap_cons. simpl. by rewrite Hf. Qed.

(** X5. Where no two pairs of a read group have one signature, nothing is
    removed: the count reported is 0, and every read group comes back with
    the STR reads it had (paired and unpaired together, in the sorted
    order). *)
Theorem nothing_removed_without_duplicates
    m strs_by_rg mates_by_rg unpaired_by_rg log out :
  (∀ i, NoDup (signature <$> group_read_pairs use_bam_rgs m
                               strs_by_rg mates_by_rg unpaired_by_rg i)) →
  remove_pcr_duplicates m strs_by_rg mates_by_rg unpaired_by_rg log = Ok out →
  logger out = log ++ [MsgRemovedDuplicates 0]
  ∧ ∀ i strs mates unpaired,
      strs_by_rg !! i = Some strs →
      mates_by_rg !! i = Some mates →
      unpaired_by_rg !! i = Some unpaired →
      ∃ strs' unpaired',
        paired_strs_by_rg out !! i = Some strs'
        ∧ unpaired_strs_by_rg out !! i = Some unpaired'
        ∧ strs' ++ unpaired' ≡ₚ strs ++ unpaired.
Proof.
  intros Hnd Hrun. split.
  - apply remove_pcr_duplicates_exact in Hrun as (s & Hpost & _ & _ & _ & _ & _ & ->).
    destruct Hpost as (_ & _ & _ & _ & _ & _ & ->). simpl.
    rewrite sum_list_zero; [done|]. intros i. by apply discarded_NoDup.
  - intros i strs mates unpaired Hs Hm Hu.
    destruct (group_output _ _ _ _ _ _ _ _ _ _ Hrun Hs Hm Hu) as (Hlen & O1 & O2 & O3).
    eexists _, _. split_and!; [done..|].
    specialize (Hnd i). unfold group_read_pairs in Hnd. rewrite Hs, Hm, Hu in Hnd.
    rewrite kept_partition, (proj1 (discarded_NoDup _ Hnd)), std_sort_permutation.
    by rewrite aln_one_read_pairs_of.
Qed.

Lemma kept_of_elem m strs mates unpaired p :
  p ∈ kept_of m strs mates unpaired →
  (∃ j aln_1 aln_2,
      strs !! j = Some aln_1 ∧ mates !! j = Some aln_2
      ∧ p = ReadPair_paired aln_1 aln_2 (library_of use_bam_rgs m aln_1))
  ∨ (∃ aln_1, aln_1 ∈ unpaired ∧ p = ReadPair_single aln_1 (library_of use_bam_rgs m aln_1)).
Proof.
  intros Hp. eapply elem_of_submseteq in Hp; [|apply kept_of_submseteq].
  unfold read_pairs_of in Hp. apply elem_of_app in Hp as [Hp|Hp].
  - left. apply elem_of_lookup_zip_with in Hp as (j & a & b & -> & ? & ?). eauto 10.
  - right. apply list_elem_of_fmap in Hp as (a & -> & ?). eauto.
Qed.

Lemma unpaired_of_elem kept a :
  a ∈ unpaired_of kept → ∃ p, p ∈ kept ∧ single_ended p = true ∧ a = aln_one p.
Proof.
  unfold unpaired_of. intros (p & -> & Hp)%list_elem_of_fmap.
  apply list_elem_of_filter in Hp as [? ?]. eauto.
Qed.

(** X6. A minimum start of -1 marks a pair as single-ended: a pair comes
    back in the paired vectors only if the smaller of its two start
    positions is not -1, and an unpaired read that comes back was either
    unpaired when it came in or the STR read of a pair whose smaller start
    position is -1 (whose mate is not returned). *)
Theorem pairs_starting_at_minus_one_come_back_unpaired
    m strs_by_rg mates_by_rg unpaired_by_rg log out i strs mates unpaired
    strs' mates' unpaired' :
  remove_pcr_duplicates m strs_by_rg mates_by_rg unpaired_by_rg log = Ok out →
  strs_by_rg !! i = Some strs →
  mates_by_rg !! i = Some mates →
  unpaired_by_rg !! i = Some unpaired →
  paired_strs_by_rg out !! i = Some strs' →
  mate_pairs_by_rg out !! i = Some mates' →
  unpaired_strs_by_rg out !! i = Some unpaired' →
  (∀ k aln_1 aln_2,
     strs' !! k = Some aln_1 → mates' !! k = Some aln_2 →
     Z.min (Position aln_1) (Position aln_2) ≠ -1)
  ∧ (∀ aln_1,
       aln_1 ∈ unpaired' →
       aln_1 ∈ unpaired
       ∨ ∃ j aln_2,
           strs !! j = Some aln_1 ∧ mates !! j = Some aln_2
           ∧ Z.min (Position aln_1) (Position aln_2) = -1).
Proof.
  intros Hrun Hs Hm Hu H1 H2 H3.
  destruct (group_output _ _ _ _ _ _ _ _ _ _ Hrun Hs Hm Hu) as (Hlen & O1 & O2 & O3).
  rewrite H1 in O1. rewrite H2 in O2. rewrite H3 in O3.
  injection O1 as ->. injection O2 as ->. injection O3 as ->. split.
  - intros k aln_1 aln_2 Hk1 Hk2.
    destruct (kept_lookup _ _ _ _ Hk1 Hk2) as (p & Hp & Hse & -> & ->).
    apply kept_of_elem in Hp as [(j & a & b & _ & _ & ->)|(a & _ & ->)]; [|done].
    unfold single_ended in Hse. simpl in *. by apply Z.eqb_neq.
  - intros aln_1 (p & Hp & Hse & ->)%unpaired_of_elem.
    apply kept_of_elem in Hp as [(j & a & b & Ha & Hb & ->)|(a & Ha & ->)]; [|by left].
    right. exists j, b. unfold single_ended in Hse. simpl in *.
    split_and!; try done. by apply Z.eqb_eq.
Qed.

(** X7. The read groups keep their places: the three vectors come back
    with as many read groups as they had, and a read group without reads
    comes back without reads. *)
Theorem read_groups_keep_their_places
    m strs_by_rg mates_by_rg unpaired_by_rg log out :
  remove_pcr_duplicates m strs_by_rg mates_by_rg unpaired_by_rg log = Ok out →
  length (paired_strs_by_rg out) = length strs_by_rg
  ∧ length (mate_pairs_by_rg out) = length mates_by_rg
  ∧ length (unpaired_strs_by_rg out) = length unpaired_by_rg
  ∧ ∀ i,
      strs_by_rg !! i = Some [] → unpaired_by_rg !! i = Some [] →
      paired_strs_by_rg out !! i = Some []
      ∧ mate_pairs_by_rg out !! i = Some []
      ∧ unpaired_strs_by_rg out !! i = Some [].
Proof.
  intros Hrun.
  pose proof Hrun as (s & Hpost & E1 & E2 & E3 & _)%remove_pcr_duplicates_spec; [|done].
  destruct Hpost as (L1 & L2 & L3 & _ & Hlt & _). simpl in *.
  rewrite E1, E2, E3. split_and!; try done.
  intros i Hs Hu.
  destruct (Hlt i) as (strs & mates & unpaired & built & J1 & J2 & J3 & _).
  { by eapply lookup_lt_Some. }
  destruct (group_output _ _ _ _ _ _ _ _ _ _ Hrun Hs J2 Hu) as (_ & O1 & O2 & O3).
  rewrite <- E1, <- E2, <- E3, O1, O2, O3.
  assert (std_sort (read_pairs_of use_bam_rgs m [] mates []) = []) as ->; [|done].
  apply Permutation_nil_r. by rewrite std_sort_permutation.
Qed.

Lemma NoDup_fmap_elem {A B} (f : A → B) (l : list A) x y :
  NoDup (f <$> l) → x ∈ l → y ∈ l → f x = f y → x = y.
Proof.
  induction l as [|a l IH]; intros Hnd Hx Hy Hf; [by apply elem_of_nil in Hx|].
  rewrite fmap_cons in Hnd. apply NoDup_cons in Hnd as [Ha Hnd].
  apply elem_of_cons in Hx as [->|Hx], Hy as [->|Hy]; try done.
  - destruct Ha. rewrite Hf. by apply list_elem_of_fmap_2.
  - destruct Ha. rewrite <- Hf. by apply list_elem_of_fmap_2.
  - by apply IH.
Qed.

Lemma sorted_unique l1 l2 :
  StronglySorted not_after l1 → StronglySorted not_after l2 → l1 ≡ₚ l2 →
  NoDup (signature <$> l1) → l1 = l2.
Proof.
  intros H1 H2 Hperm Hnd. apply (StronglySorted_unique_strong not_after); try done.
  intros x1 x2 Hx1 Hx2 H12 H21. apply (NoDup_fmap_elem signature l1); try done.
  - by rewrite Hperm.
  - by apply not_after_antisym.
Qed.

Lemma filter_single_ended_partition kept :
  filter (λ p, single_ended p = false) kept ++ filter (λ p, single_ended p = true) kept
  ≡ₚ kept.
Proof.
  induction kept as [|p kept IH]; [done|].
  rewrite !filter_cons. destruct (single_ended p);
    repeat (case_decide; try congruence); simpl.
  - rewrite <- Permutation_middle. by constructor.
  - by constructor.
Qed.

Lemma read_pairs_of_elem m strs mates unpaired p :
  p ∈ read_pairs_of use_bam_rgs m strs mates unpaired →
  (∃ j aln_1 aln_2,
      strs !! j = Some aln_1 ∧ mates !! j = Some aln_2
      ∧ p = ReadPair_paired aln_1 aln_2 (library_of use_bam_rgs m aln_1))
  ∨ (∃ aln_1, aln_1 ∈ unpaired ∧ p = ReadPair_single aln_1 (library_of use_bam_rgs m aln_1)).
Proof.
  unfold read_pairs_of. intros [Hp|Hp]%elem_of_app.
  - left. apply elem_of_lookup_zip_with in Hp as (j & a & b & -> & ? & ?). eauto 10.
  - right. apply list_elem_of_fmap in Hp as (a & -> & ?). eauto.
Qed.

Lemma library_of_same m m' aln :
  same_libraries m m' → (use_bam_rgs = true → m' = m) →
  library_of use_bam_rgs m' aln = library_of use_bam_rgs m aln.
Proof.
  unfold library_of, same_libraries. intros Hsame Hrg.
  destruct use_bam_rgs; [by rewrite Hrg|]. apply Hsame.
Qed.

(** The vector [read_pairs] built from what was kept of a read group: the
    pairs that were kept, the single-ended ones last. *)
Lemma read_pairs_of_kept m m' strs mates unpaired kept :
  (∀ aln, library_of use_bam_rgs m' aln = library_of use_bam_rgs m aln) →
  (∀ p, p ∈ kept → p ∈ read_pairs_of use_bam_rgs m strs mates unpaired) →
  (∀ j aln_1 aln_2, strs !! j = Some aln_1 → mates !! j = Some aln_2 →
     Z.min (Position aln_1) (Position aln_2) ≠ -1) →
  read_pairs_of use_bam_rgs m' (paired_of kept) (mates_of kept) (unpaired_of kept)
  = filter (λ p, single_ended p = false) kept ++ filter (λ p, single_ended p = true) kept.
Proof.
  intros Hlib Hkept Hpos. unfold read_pairs_of, paired_of, mates_of, unpaired_of. f_equal.
  - rewrite zip_with_fmap_l, zip_with_fmap_r, zip_with_diag.
    rewrite <- (list_fmap_id (filter _ kept)) at 2. apply list_fmap_ext.
    intros i p [Hse Hp]%list_elem_of_lookup_2%list_elem_of_filter.
    apply Hkept, read_pairs_of_elem in Hp as [(j & a & b & _ & _ & ->)|(a & _ & ->)]; [|done].
    simpl. by rewrite Hlib.
  - rewrite <- list_fmap_compose.
    rewrite <- (list_fmap_id (filter _ kept)) at 2. apply list_fmap_ext.
    intros i p [Hse Hp]%list_elem_of_lookup_2%list_elem_of_filter.
    apply Hkept, read_pairs_of_elem in Hp as [(j & a & b & Ha & Hb & ->)|(a & _ & ->)].
    + unfold single_ended in Hse. simpl in Hse. apply Z.eqb_eq in Hse.
      by destruct (Hpos j a b).
    + simpl. by rewrite Hlib.
Qed.

(** What a second pass makes of the pairs kept of a read group. *)
Lemma second_pass_group m m' strs mates unpaired :
  (∀ aln, library_of use_bam_rgs m' aln = library_of use_bam_rgs m aln) →
  (∀ j aln_1 aln_2, strs !! j = Some aln_1 → mates !! j = Some aln_2 →
     Z.min (Position aln_1) (Position aln_2) ≠ -1) →
  let kept := kept_of m strs mates unpaired in
  let again := read_pairs_of use_bam_rgs m' (paired_of kept) (mates_of kept)
                 (unpaired_of kept) in
  NoDup (signature <$> again)
  ∧ retained base_quality (std_sort again) = kept.
Proof.
  intros Hlib Hpos kept again.
  assert (again ≡ₚ kept) as Hperm.
  { unfold again. rewrite (read_pairs_of_kept m m' strs mates unpaired); try done.
    - apply filter_single_ended_partition.
    - intros p Hp. eapply elem_of_submseteq; [exact Hp|apply kept_of_submseteq]. }
  assert (NoDup (signature <$> kept)) as Hnd by apply retained_NoDup, std_sort_sorted.
  assert (NoDup (signature <$> again)) as Hnd' by by rewrite Hperm.
  split; [done|].
  rewrite (proj1 (discarded_NoDup _ Hnd')). symmetry.
  apply sorted_unique; try done.
  - apply (StronglySorted_sublist _ _ (std_sort (read_pairs_of use_bam_rgs m strs mates unpaired)));
      [apply retained_sublist|].
    apply Sorted_StronglySorted; [apply _|apply std_sort_sorted].
  - apply Sorted_StronglySorted; [apply _|apply std_sort_sorted].
  - by rewrite std_sort_permutation.
Qed.

(** X8. Where no pair has -1 as the smaller of its two start positions, a
    second pass over what the function returned removes nothing: it reports
    a count of 0 and returns the three vectors as it received them. *)
Theorem second_pass_removes_nothing
    m strs_by_rg mates_by_rg unpaired_by_rg log out log' out' :
  (∀ i strs mates j aln_1 aln_2,
     strs_by_rg !! i = Some strs → mates_by_rg !! i = Some mates →
     strs !! j = Some aln_1 → mates !! j = Some aln_2 →
     Z.min (Position aln_1) (Position aln_2) ≠ -1) →
  remove_pcr_duplicates m strs_by_rg mates_by_rg unpaired_by_rg log = Ok out →
  remove_pcr_duplicates (rg_to_library out) (paired_strs_by_rg out) (mate_pairs_by_rg out)
    (unpaired_strs_by_rg out) log' = Ok out' →
  logger out' = log' ++ [MsgRemovedDuplicates 0]
  ∧ paired_strs_by_rg out' = paired_strs_by_rg out
  ∧ mate_pairs_by_rg out' = mate_pairs_by_rg out
  ∧ unpaired_strs_by_rg out' = unpaired_strs_by_rg out.
Proof.
  intros Hpos Hrun Hrun'.
  pose proof Hrun as (s & Hpost & Emap & _)%remove_pcr_duplicates_exact.
  destruct Hpost as (Hsame & _ & Hrg & _ & Hin & _). simpl in Hsame, Hrg, Hin.
  rewrite <- Emap in Hsame, Hrg.
  pose proof (λ aln, library_of_same m (rg_to_library out) aln Hsame Hrg) as Hlib.
  pose proof Hrun as (s1 & (L1 & _) & E1 & _)%remove_pcr_duplicates_spec; [|done].
  simpl in L1. rewrite <- E1 in L1.
  pose proof Hrun' as (s2 & (_ & _ & _ & Hframe & _) & F1 & F2 & F3 & _)%remove_pcr_duplicates_spec;
    [|done].
  simpl in Hframe. rewrite L1 in Hframe.
  assert (∀ i, (i < length strs_by_rg)%nat →
            ∃ strs' mates' unpaired',
              let again := read_pairs_of use_bam_rgs (rg_to_library out) strs' mates' unpaired' in
              paired_strs_by_rg out !! i = Some strs'
              ∧ mate_pairs_by_rg out !! i = Some mates'
              ∧ unpaired_strs_by_rg out !! i = Some unpaired'
              ∧ NoDup (signature <$> again)
              ∧ paired_of (retained base_quality (std_sort again)) = strs'
              ∧ mates_of (retained base_quality (std_sort again)) = mates'
              ∧ unpaired_of (retained base_quality (std_sort again)) = unpaired') as Hgroup.
  { intros i Hi. destruct (Hin i Hi) as (strs & mates & unpaired & Hs & Hm & Hu & _).
    destruct (group_output _ _ _ _ _ _ _ _ _ _ Hrun Hs Hm Hu) as (_ & G1 & G2 & G3).
    destruct (second_pass_group m (rg_to_library out) strs mates unpaired Hlib
                (λ j a b, Hpos i strs mates j a b Hs Hm)) as (Hnd & Heq).
    cbv zeta in *. eexists _, _, _.
    split_and!; [exact G1|exact G2|exact G3|exact Hnd|by rewrite Heq..]. }
  cbv zeta in Hgroup.
  split_and!.
  - apply remove_pcr_duplicates_exact in Hrun' as (s' & Hpost' & _ & _ & _ & _ & _ & ->).
    destruct Hpost' as (_ & _ & _ & _ & _ & _ & ->). simpl.
    rewrite sum_list_zero; [done|]. intros i. apply discarded_NoDup.
    unfold group_read_pairs.
    destruct (paired_strs_by_rg out !! i) as [strs'|] eqn:O1; [|apply NoDup_nil_2].
    destruct (Hgroup i) as (strs2 & mates2 & unpaired2 & G1 & G2 & G3 & Hnd & _).
    { rewrite <- L1. by eapply lookup_lt_Some. }
    rewrite O1 in G1. injection G1 as <-. by rewrite G2, G3.
  - apply list_eq. intros i. destruct (decide (i < length strs_by_rg)%nat) as [Hi|Hi].
    + destruct (Hgroup i Hi) as (strs' & mates' & unpaired' & G1 & G2 & G3 & _ & P & _).
      destruct (group_output _ _ _ _ _ _ _ _ _ _ Hrun' G1 G2 G3) as (_ & -> & _).
      by rewrite G1, P.
    + rewrite F1. destruct (Hframe i) as (-> & _); [lia|done].
  - apply list_eq. intros i. destruct (decide (i < length strs_by_rg)%nat) as [Hi|Hi].
    + destruct (Hgroup i Hi) as (strs' & mates' & unpaired' & G1 & G2 & G3 & _ & _ & P & _).
      destruct (group_output _ _ _ _ _ _ _ _ _ _ Hrun' G1 G2 G3) as (_ & _ & -> & _).
      by rewrite G2, P.
    + rewrite F2. destruct (Hframe i) as (_ & -> & _); [lia|done].
  - apply list_eq. intros i. destruct (decide (i < length strs_by_rg)%nat) as [Hi|Hi].
    + destruct (Hgroup i Hi) as (strs' & mates' & unpaired' & G1 & G2 & G3 & _ & _ & _ & P).
      destruct (group_output _ _ _ _ _ _ _ _ _ _ Hrun' G1 G2 G3) as (_ & _ & _ & ->).
      by rewrite G3, P.
    + rewrite F3. destruct (Hframe i) as (_ & _ & ->); [lia|done].
Qed.

End VectorsMore.

(** * The library map, and when the function returns *)

Section LibraryMapMore.

Variable std_sort : list ReadPair → list ReadPair.
Variable NDEBUG : bool.
Variable base_quality : BaseQuality.

Local Abbreviation remove_pcr_duplicates :=
  (remove_pcr_duplicates std_sort NDEBUG base_quality).

(** X9. With [use_bam_rgs] the map of libraries is only read: it comes back
    as it was given. *)
Theorem read_group_lookup_leaves_the_map
    m strs_by_rg mates_by_rg unpaired_by_rg log out :
  remove_pcr_duplicates true m strs_by_rg mates_by_rg unpaired_by_rg log = Ok out →
  rg_to_library out = m.
Proof.
  intros (s & Hpost & -> & _)%remove_pcr_duplicates_exact.
  destruct Hpost as (_ & _ & Hrg & _). by apply Hrg.
Qed.

(** X10. Without [use_bam_rgs] the lookup by file name writes to the map:
    after the call every file name of an STR read has an entry; the entries
    the map had are kept, and an entry it did not have is the file name of
    an STR read of the input with the empty library. *)
Theorem file_name_lookup_fills_the_map
    m strs_by_rg mates_by_rg unpaired_by_rg log out :
  remove_pcr_duplicates false m strs_by_rg mates_by_rg unpaired_by_rg log = Ok out →
  m ⊆ rg_to_library out
  ∧ (∀ i strs unpaired aln,
       strs_by_rg !! i = Some strs → unpaired_by_rg !! i = Some unpaired →
       aln ∈ strs ++ unpaired →
       is_Some (rg_to_library out !! Filename aln))
  ∧ (∀ key library,
       rg_to_library out !! key = Some library → m !! key = None →
       library = ""%string
       ∧ ∃ i strs unpaired aln,
           strs_by_rg !! i = Some strs ∧ unpaired_by_rg !! i = Some unpaired
           ∧ aln ∈ strs ++ unpaired ∧ key = Filename aln).
Proof.
  intros (s & Hpost & -> & _)%remove_pcr_duplicates_exact.
  destruct Hpost as (Hsame & Hsub & _ & _ & Hlt & Hkeys & _). simpl in *.
  split_and!; [done| |].
  - intros i strs unpaired aln Hs Hu Hin.
    destruct (Hlt i) as (strs' & mates' & unpaired' & J1 & _ & J3 & _ & _ & _ & _ & Hfile).
    { by eapply lookup_lt_Some. }
    rewrite Hs in J1. rewrite Hu in J3. injection J1 as <-. injection J3 as <-.
    by apply Hfile.
  - intros key library Hkey Hnew. split.
    + specialize (Hsame key). by rewrite Hkey, Hnew in Hsame.
    + destruct (Hkeys key) as [[? Hold]|(i & strs & unpaired & aln & _ & ? & ? & ? & ?)];
        [by eexists|congruence|eauto 10].
Qed.

End LibraryMapMore.

Section ProgressMore.

Variable std_sort : list ReadPair → list ReadPair.
Variable NDEBUG : bool.
Variable base_quality : BaseQuality.
Variable use_bam_rgs : bool.

Lemma resolve_library_progress m aln :
  has_library use_bam_rgs m aln →
  ∃ library m', resolve_library use_bam_rgs aln m = Ok (library, m')
                ∧ (use_bam_rgs = true → m' = m).
Proof.
  unfold has_library, resolve_library, get_library. intros Hlib.
  destruct use_bam_rgs.
  - destruct Hlib as (rg & library & -> & ->); [done|]. simpl. eauto.
  - destruct (map_subscript m (Filename aln)) as [library m']. exists library, m'.
    split; [done|]. done.
Qed.

Lemma add_paired_loop_progress s i strs mates m n : ∀ a acc,
  paired_strs_by_rg s !! i = Some strs →
  mate_pairs_by_rg s !! i = Some mates →
  (length strs ≤ length mates)%nat →
  (a + n ≤ length strs)%nat →
  (∀ aln, aln ∈ strs → has_library use_bam_rgs m aln) →
  (use_bam_rgs = true → acc.2 = m) →
  ∃ acc', for_each (add_paired use_bam_rgs i s) (seq a n) acc = Ok acc'
          ∧ (use_bam_rgs = true → acc'.2 = m).
Proof.
  induction n as [|n IH]; intros a acc Hs Hm Hlen Hn Hlib Hacc; simpl; [eauto|].
  destruct (lookup_lt_is_Some_2 strs a) as [aln_1 H1]; [lia|].
  destruct (lookup_lt_is_Some_2 mates a) as [aln_2 H2]; [lia|].
  destruct (resolve_library_progress acc.2 aln_1) as (library & m' & Hres & Hm').
  { intros Hrg. rewrite (Hacc Hrg). apply Hlib; [|done]. by eapply list_elem_of_lookup_2. }
  assert (add_paired use_bam_rgs i s acc a
          = Ok (acc.1 ++ [ReadPair_paired aln_1 aln_2 library], m')) as ->.
  { unfold add_paired.
    rewrite (proj2 (at_index2_Ok (paired_strs_by_rg s) i a aln_1)) by eauto. simpl.
    rewrite Hres. simpl.
    by rewrite (proj2 (at_index2_Ok (mate_pairs_by_rg s) i a aln_2)) by eauto. }
  simpl. apply IH; try done; [lia|]. simpl. intros Hrg. rewrite Hm' by done. auto.
Qed.

Lemma add_unpaired_loop_progress s i unpaired m n : ∀ a acc,
  unpaired_strs_by_rg s !! i = Some unpaired →
  (a + n ≤ length unpaired)%nat →
  (∀ aln, aln ∈ unpaired → has_library use_bam_rgs m aln) →
  (use_bam_rgs = true → acc.2 = m) →
  ∃ acc', for_each (add_unpaired use_bam_rgs i s) (seq a n) acc = Ok acc'
          ∧ (use_bam_rgs = true → acc'.2 = m).
Proof.
  induction n as [|n IH]; intros a acc Hu Hn Hlib Hacc; simpl; [eauto|].
  destruct (lookup_lt_is_Some_2 unpaired a) as [aln_1 H1]; [lia|].
  destruct (resolve_library_progress acc.2 aln_1) as (library & m' & Hres & Hm').
  { intros Hrg. rewrite (Hacc Hrg). apply Hlib; [|done]. by eapply list_elem_of_lookup_2. }
  assert (add_unpaired use_bam_rgs i s acc a
          = Ok (acc.1 ++ [ReadPair_single aln_1 library], m')) as ->.
  { unfold add_unpaired.
    rewrite (proj2 (at_index2_Ok (unpaired_strs_by_rg s) i a aln_1)) by eauto. simpl.
    by rewrite Hres. }
  simpl. apply IH; try done; [lia|]. simpl. intros Hrg. rewrite Hm' by done. auto.
Qed.

Lemma process_read_group_progress s i strs mates unpaired :
  paired_strs_by_rg s !! i = Some strs →
  mate_pairs_by_rg s !! i = Some mates →
  unpaired_strs_by_rg s !! i = Some unpaired →
  length strs = length mates →
  (∀ aln, aln ∈ strs ++ unpaired → has_library use_bam_rgs (rg_to_library s) aln) →
  ∃ s', process_read_group std_sort NDEBUG base_quality use_bam_rgs s i = Ok s'.
Proof.
  intros Hs Hm Hu Hlen Hlib. unfold process_read_group.
  pose proof (proj2 (at_index_Ok _ _ _) Hs) as Es.
  pose proof (proj2 (at_index_Ok _ _ _) Hm) as Em.
  pose proof (proj2 (at_index_Ok _ _ _) Hu) as Eu.
  rewrite Es, Em, Eu. simpl.
  assert ((if NDEBUG then Ok () else assert NDEBUG (length strs =? length mates)%nat) = Ok ())
    as ->.
  { unfold assert. destruct NDEBUG; [done|]. by rewrite Hlen, Nat.eqb_refl. }
  simpl.
  destruct (add_paired_loop_progress s i strs mates (rg_to_library s) (length strs) 0
              ([], rg_to_library s)) as (acc1 & -> & Hmap1); try done; [lia| |].
  { intros aln Hin. apply Hlib, elem_of_app. by left. }
  simpl.
  destruct (add_unpaired_loop_progress s i unpaired (rg_to_library s) (length unpaired) 0 acc1)
    as (acc2 & -> & Hmap2); try done.
  { intros aln Hin. apply Hlib, elem_of_app. by right. }
  simpl. unfold clear. rewrite Es, Em, Eu. simpl.
  destruct (length (std_sort acc2.1) =? 0)%nat; eauto.
Qed.

Lemma loop_progress n : ∀ s0,
  (n ≤ length (paired_strs_by_rg s0))%nat →
  well_sized (paired_strs_by_rg s0) (mate_pairs_by_rg s0) (unpaired_strs_by_rg s0) →
  (∀ i strs unpaired aln,
     paired_strs_by_rg s0 !! i = Some strs →
     unpaired_strs_by_rg s0 !! i = Some unpaired →
     aln ∈ strs ++ unpaired → has_library use_bam_rgs (rg_to_library s0) aln) →
  ∃ s, for_each (process_read_group std_sort NDEBUG base_quality use_bam_rgs) (seq 0 n) s0
       = Ok s.
Proof.
  induction n as [|n IH]; intros s0 Hn (L2 & L3 & Hall) Hlib; [simpl; eauto|].
  rewrite seq_S, for_each_app.
  destruct (IH s0) as (s1 & H1); [lia|done..|].
  rewrite H1. simpl.
  destruct (loop_frame std_sort NDEBUG base_quality _ _ _ _ H1 n (le_n n)) as (F1 & F2 & F3).
  destruct (loop_exact _ _ _ _ _ _ _ H1) as (_ & _ & Hrg & _).
  destruct (lookup_lt_is_Some_2 (paired_strs_by_rg s0) n) as [strs Hs]; [lia|].
  destruct (lookup_lt_is_Some_2 (mate_pairs_by_rg s0) n) as [mates Hm]; [lia|].
  destruct (lookup_lt_is_Some_2 (unpaired_strs_by_rg s0) n) as [unpaired Hu]; [lia|].
  pose proof (Forall2_lookup_lr _ _ _ _ _ _ Hall Hs Hm) as Hlen.
  destruct (process_read_group_progress s1 n strs mates unpaired) as (s2 & ->);
    [congruence..| |by eauto].
  intros aln Hin Hmode. rewrite (Hrg Hmode). by eapply Hlib.
Qed.

(** X11. The function returns whenever the vectors have the sizes its
    assertions ask for and, with [use_bam_rgs], every STR read has an RG tag
    whose read group is in the map; without [use_bam_rgs] the sizes are
    enough. *)
Theorem remove_pcr_duplicates_returns
    m strs_by_rg mates_by_rg unpaired_by_rg log :
  well_sized strs_by_rg mates_by_rg unpaired_by_rg →
  (∀ i strs unpaired aln,
     strs_by_rg !! i = Some strs → unpaired_by_rg !! i = Some unpaired →
     aln ∈ strs ++ unpaired → has_library use_bam_rgs m aln) →
  ∃ out,
    remove_pcr_duplicates std_sort NDEBUG base_quality use_bam_rgs
      m strs_by_rg mates_by_rg unpaired_by_rg log = Ok out.
Proof.
  intros Hsize Hlib. unfold remove_pcr_duplicates.
  assert (assert NDEBUG
            ((length strs_by_rg =? length mates_by_rg)%nat
             && (length strs_by_rg =? length unpaired_by_rg)%nat) = Ok ()) as ->.
  { destruct Hsize as (L2 & L3 & _). unfold assert. destruct NDEBUG; [done|].
    by rewrite <- L2, <- L3, Nat.eqb_refl. }
  simpl.
  destruct (loop_progress (length strs_by_rg)
              {| rg_to_library := m;
                 paired_strs_by_rg := strs_by_rg;
                 mate_pairs_by_rg := mates_by_rg;
                 unpaired_strs_by_rg := unpaired_by_rg;
                 dup_count := 0;
                 logger := log |}) as (s & Hs); try done.
  simpl in Hs. rewrite Hs. simpl. eauto.
Qed.

End ProgressMore.

Section AssertionsMore.

Variable std_sort : list ReadPair → list ReadPair.
Variable base_quality : BaseQuality.
Variable use_bam_rgs : bool.

Lemma loop_sizes n : ∀ s0 s,
  for_each (process_read_group std_sort false base_quality use_bam_rgs) (seq 0 n) s0 = Ok s →
  ∀ i strs mates,
    (i < n)%nat →
    paired_strs_by_rg s0 !! i = Some strs →
    mate_pairs_by_rg s0 !! i = Some mates →
    length strs = length mates.
Proof.
  induction n as [|n IH]; intros s0 s H i strs mates Hi Hs Hm; [lia|].
  rewrite seq_S, for_each_app in H. apply bind_Ok in H as (s1 & H1 & H). simpl in H.
  apply bind_Ok in H as (s2 & H2 & _).
  destruct (decide (i = n)) as [->|Hne]; [|apply (IH _ _ H1 i); [lia|done..]].
  destruct (loop_frame std_sort false base_quality _ _ _ _ H1 n (le_n n)) as (F1 & F2 & _).
  unfold process_read_group in H2. apply bind_Ok in H2 as (? & Hassert & _).
  apply bind_Ok in Hassert as (strs' & Hs' & Hassert).
  apply bind_Ok in Hassert as (mates' & Hm' & Hassert).
  apply at_index_Ok in Hs', Hm'. rewrite F1, Hs in Hs'. rewrite F2, Hm in Hm'.
  injection Hs' as <-. injection Hm' as <-.
  unfold assert in Hassert. simpl in Hassert.
  destruct (length strs =? length mates)%nat eqn:Hlen; [|done].
  by apply Nat.eqb_eq.
Qed.

(** X12. In a build that checks its assertions the function returns only
    for vectors of matching sizes: as many read groups in each of the three
    vectors, and in every read group as many mates as paired STR reads. *)
Theorem checked_build_returns_only_for_matching_sizes
    m strs_by_rg mates_by_rg unpaired_by_rg log out :
  remove_pcr_duplicates std_sort false base_quality use_bam_rgs
    m strs_by_rg mates_by_rg unpaired_by_rg log = Ok out →
  well_sized strs_by_rg mates_by_rg unpaired_by_rg.
Proof.
  unfold remove_pcr_duplicates. intros H.
  apply bind_Ok in H as (? & Hassert & H). apply bind_Ok in H as (s & Hs & _).
  unfold assert in Hassert. simpl in Hassert.
  destruct (_ && _) eqn:Hsizes; [|done].
  apply andb_prop in Hsizes as [L2%Nat.eqb_eq L3%Nat.eqb_eq].
  split_and!; [done..|].
  apply Forall2_same_length_lookup. split; [done|].
  intros i strs mates Hi Hm.
  apply (loop_sizes _ _ _ Hs i); [|done..]. by eapply lookup_lt_Some.
Qed.

End AssertionsMore.

(** * Further properties of the analysis of a locus *)

Section ExtractionMore.

Variable StutterModel : Type.
Variable ExtractCigar : list CigarOp → Z → Z → Z → option Z.
Variable NDEBUG : bool.

Local Abbreviation extract_read := (extract_read ExtractCigar).
Local Abbreviation extract_lengths := (extract_lengths StutterModel ExtractCigar).
Local Abbreviation prepare_locus := (prepare_locus StutterModel ExtractCigar NDEBUG).
Local Abbreviation informative := (informative ExtractCigar).
Local Abbreviation excluded := (excluded ExtractCigar).
Local Abbreviation without_size := (without_size ExtractCigar).
Local Abbreviation informative_indices := (informative_indices ExtractCigar).
Local Abbreviation lengths_of := (lengths_of ExtractCigar).
Local Abbreviation excluded_warnings := (excluded_warnings ExtractCigar).
Local Abbreviation extracted := (extracted ExtractCigar).

Implicit Types (cfg : config StutterModel) (region : Region) (p : processor)
  (e : extraction) (alignments : list (list BamAlignment))
  (log_p1s log_p2s : list (list float)) (rg_names : list string).

Lemma alter_append_nil {A} i (v : list (list A)) : alter (λ row, row ++ []) i v = v.
Proof. apply list_alter_id. intros row. apply app_nil_r. Qed.

Lemma alter_append_app {A} i (v : list (list A)) l1 l2 :
  alter (λ row, row ++ l2) i (alter (λ row, row ++ l1) i v)
  = alter (λ row, row ++ (l1 ++ l2)) i v.
Proof.
  rewrite list_alter_alter_eq. apply list_alter_ext; [|done].
  intros row _. simpl. by rewrite app_assoc.
Qed.

Lemma extracted_0 region log_p1s log_p2s row i e : extracted region log_p1s log_p2s row i 0 e e.
Proof.
  exists [], []. unfold informative_indices, excluded_warnings.
  simpl. rewrite !alter_append_nil, app_nil_r. split_and!; try done; constructor.
Qed.

(** One pass through the body of the loop over [j]. *)
Lemma extract_read_cases region log_p1s log_p2s i j aln e e' :
  extract_read region log_p1s log_p2s i j aln e = Ok e' →
  ∃ new1 new2,
    str_bp_lengths e'
    = alter (λ lengths, lengths ++ omap (informative region) [aln]) i (str_bp_lengths e)
    ∧ str_log_p1s e' = alter (λ log_ps, log_ps ++ new1) i (str_log_p1s e)
    ∧ str_log_p2s e' = alter (λ log_ps, log_ps ++ new2) i (str_log_p2s e)
    ∧ Forall2 (phase_of log_p1s log_p1s i)
        (if informative region aln is Some _ then [j] else []) new1
    ∧ Forall2 (phase_of log_p1s log_p2s i)
        (if informative region aln is Some _ then [j] else []) new2
    ∧ inf_reads e' = Nat.iter (length (omap (informative region) [aln])) incr32 (inf_reads e)
    ∧ skip_count e'
      = Nat.iter (if without_size region aln then 1 else 0)%nat incr32 (skip_count e)
    ∧ trace (ex_processor e')
      = trace (ex_processor e)
        ++ (if excluded region aln then [Log (MsgExcludingRead (Name aln))] else []).
Proof.
  unfold Genotyper.extract_read, informative, excluded,
    without_size, bp_diff_of, phase_of. simpl.
  destruct (ExtractCigar _ _ _ _) as [bp_diff|]; [destruct (bp_diff <? _)|].
  - intros [= <-]. exists [], []. simpl. rewrite !alter_append_nil.
    split_and!; try done; constructor.
  - destruct (length log_p1s =? 0)%nat eqn:Hsize.
    + intros [= <-]. exists [0%float], [0%float]. simpl. rewrite app_nil_r.
      split_and!; try done; by repeat constructor.
    + intros H. apply bind_Ok in H as (log_p1 & H1 & H). apply bind_Ok in H as (log_p2 & H2 & H).
      injection H as <-. exists [log_p1], [log_p2]. simpl. rewrite app_nil_r.
      apply at_index2_Ok in H1 as (r1 & H1 & H1'), H2 as (r2 & H2 & H2').
      split_and!; try done; repeat constructor; [by rewrite H1|by rewrite H2].
  - intros [= <-]. exists [], []. simpl. rewrite !alter_append_nil, app_nil_r.
    split_and!; try done; constructor.
Qed.

(** The loop over [j] (lines 30-49). *)
Lemma extract_row_spec region alignments log_p1s log_p2s i row n : ∀ e e',
  alignments !! i = Some row →
  (n ≤ length row)%nat →
  for_each (λ e j, aln ← at_index2 alignments i j;
                   extract_read region log_p1s log_p2s i j aln e) (seq 0 n) e = Ok e' →
  extracted region log_p1s log_p2s row i n e e'.
Proof.
  induction n as [|n IH]; intros e e' Hrow Hn H.
  - simpl in H. injection H as <-. apply extracted_0.
  - rewrite seq_S, for_each_app in H. apply bind_Ok in H as (e1 & H1 & H). simpl in H.
    apply bind_Ok in H as (e2 & H2 & H). injection H as ->.
    apply bind_Ok in H2 as (aln & Haln & H2).
    apply at_index2_Ok in Haln as (row' & Hrow' & Haln).
    rewrite Hrow in Hrow'. injection Hrow' as <-.
    apply IH in H1 as (a1 & a2 & I1 & I2 & I3 & I4 & I5 & I6 & I7 & I8); [|done|lia].
    apply extract_read_cases in H2 as (b1 & b2 & J1 & J2 & J3 & J4 & J5 & J6 & J7 & J8).
    exists (a1 ++ b1), (a2 ++ b2).
    rewrite (take_S_r _ _ _ Haln), omap_app.
    unfold informative_indices, excluded_warnings.
    rewrite seq_S, !filter_app, fmap_app, !length_app. simpl in J1, J6 |- *.
    rewrite J1, J2, J3, I1, I2, I3, !alter_append_app.
    assert (filter (λ j, is_Some (row !! j ≫= informative region)) [n]
            = if informative region aln is Some _ then [n] else []) as ->.
    { rewrite filter_cons, filter_nil. rewrite Haln. simpl.
      destruct (informative region aln); case_decide as Hd; try done; by destruct Hd. }
    assert (length (filter (λ aln, without_size region aln = true) [aln])
            = if without_size region aln then 1 else 0)%nat as ->.
    { rewrite filter_cons, filter_nil.
      destruct (without_size region aln); case_decide; done. }
    assert ((λ aln, Log (MsgExcludingRead (Name aln)))
              <$> filter (λ aln, excluded region aln = true) [aln]
            = if excluded region aln then [Log (MsgExcludingRead (Name aln))] else []) as ->.
    { rewrite filter_cons, filter_nil.
      destruct (excluded region aln); case_decide; done. }
    split_and!; try done.
    + by apply Forall2_app.
    + by apply Forall2_app.
    + rewrite J6, I6, <- Nat.iter_add. f_equal. lia.
    + rewrite J7, I7, <- Nat.iter_add. f_equal. lia.
    + by rewrite J8, I8, app_assoc.
Qed.

(** The loop over the read groups (lines 29-50), after [n] of them. *)
Lemma extract_rows_spec region alignments log_p1s log_p2s n : ∀ e0 e,
  (n ≤ length alignments)%nat →
  for_each
    (λ e i,
       row ← at_index alignments i;
       for_each (λ e j, aln ← at_index2 alignments i j;
                        extract_read region log_p1s log_p2s i j aln e)
         (seq 0 (length row)) e)
    (seq 0 n) e0 = Ok e →
  (∀ i, (n ≤ i)%nat →
     str_bp_lengths e !! i = str_bp_lengths e0 !! i
     ∧ str_log_p1s e !! i = str_log_p1s e0 !! i
     ∧ str_log_p2s e !! i = str_log_p2s e0 !! i)
  ∧ (∀ i row, (i < n)%nat → alignments !! i = Some row →
       ∃ new1 new2,
         str_bp_lengths e !! i
         = (λ lengths, lengths ++ omap (informative region) row) <$> str_bp_lengths e0 !! i
         ∧ str_log_p1s e !! i = (λ log_ps, log_ps ++ new1) <$> str_log_p1s e0 !! i
         ∧ str_log_p2s e !! i = (λ log_ps, log_ps ++ new2) <$> str_log_p2s e0 !! i
         ∧ Forall2 (phase_of log_p1s log_p1s i)
             (informative_indices region row (length row)) new1
         ∧ Forall2 (phase_of log_p1s log_p2s i)
             (informative_indices region row (length row)) new2)
  ∧ length (str_bp_lengths e) = length (str_bp_lengths e0)
  ∧ length (str_log_p1s e) = length (str_log_p1s e0)
  ∧ length (str_log_p2s e) = length (str_log_p2s e0)
  ∧ inf_reads e
    = Nat.iter (length (omap (informative region) (concat (take n alignments))))
        incr32 (inf_reads e0)
  ∧ skip_count e
    = Nat.iter (length (filter (λ aln, without_size region aln = true)
                          (concat (take n alignments))))
        incr32 (skip_count e0)
  ∧ trace (ex_processor e)
    = trace (ex_processor e0) ++ excluded_warnings region (concat (take n alignments)).
Proof.
  induction n as [|n IH]; intros e0 e Hn H.
  - simpl in H. injection H as <-. unfold excluded_warnings. simpl. rewrite app_nil_r.
    split_and!; try done. intros; lia.
  - rewrite seq_S, for_each_app in H. apply bind_Ok in H as (e1 & H1 & H). simpl in H.
    apply bind_Ok in H as (e2 & H2 & H). injection H as ->.
    apply bind_Ok in H2 as (row & Hrow & H2). apply at_index_Ok in Hrow.
    apply IH in H1 as (F & G & L1 & L2 & L3 & C1 & C2 & C3); [|lia].
    apply extract_row_spec with (row := row) in H2
      as (b1 & b2 & J1 & J2 & J3 & J4 & J5 & J6 & J7 & J8); [|done..].
    rewrite firstn_all in J1, J6, J7, J8.
    destruct (F n (le_n n)) as (F1 & F2 & F3).
    rewrite (take_S_r _ _ _ Hrow), concat_app. simpl. rewrite app_nil_r.
    unfold excluded_warnings in *.
    rewrite omap_app, !filter_app, fmap_app, !length_app.
    split_and!.
    + intros i Hi. rewrite J1, J2, J3, !list_lookup_alter_ne by lia. apply F. lia.
    + intros i row' Hi Hrow'. destruct (decide (i = n)) as [->|Hne].
      * rewrite Hrow in Hrow'. injection Hrow' as <-. exists b1, b2.
        rewrite J1, J2, J3, !list_lookup_alter_eq, F1, F2, F3. done.
      * rewrite J1, J2, J3, !list_lookup_alter_ne by done. apply G; [lia|done].
    + by rewrite J1, length_alter.
    + by rewrite J2, length_alter.
    + by rewrite J3, length_alter.
    + rewrite J6, C1, <- Nat.iter_add. f_equal. lia.
    + rewrite J7, C2, <- Nat.iter_add. f_equal. lia.
    + by rewrite J8, C3, app_assoc.
Qed.

Lemma length_informative_indices region row n :
  (n ≤ length row)%nat →
  length (informative_indices region row n) = length (omap (informative region) (take n row)).
Proof.
  unfold informative_indices. induction n as [|n IH]; intros Hn; [done|].
  destruct (lookup_lt_is_Some_2 row n) as [aln Haln]; [lia|].
  rewrite seq_S, filter_app, (take_S_r _ _ _ Haln), omap_app, !length_app, IH by lia.
  f_equal. simpl. rewrite filter_cons, filter_nil, Haln. simpl.
  destruct (informative region aln); case_decide as Hd; try done; by destruct Hd.
Qed.

Lemma length_omap_concat {A B} (f : A → option B) (l : list (list A)) :
  length (omap f (concat l)) = sum_list (length <$> ((λ row, omap f row) <$> l)).
Proof.
  induction l as [|row l IH]; [done|]. simpl. rewrite omap_app, length_app.
  by rewrite IH.
Qed.

(** Lines 28-51 where the extraction runs, on the locals as lines 21-27
    leave them. *)
Lemma extract_lengths_spec cfg region alignments log_p1s log_p2s p e :
  read_stutter_models_ cfg = false ∨ use_seq_aligner_ cfg = false →
  extract_lengths cfg region alignments log_p1s log_p2s
    (extraction_init (length alignments) p) = Ok e →
  str_bp_lengths e = lengths_of region <$> alignments
  ∧ (∀ i row, alignments !! i = Some row →
       ∃ log_p1 log_p2,
         str_log_p1s e !! i = Some log_p1
         ∧ str_log_p2s e !! i = Some log_p2
         ∧ Forall2 (phase_of log_p1s log_p1s i)
             (informative_indices region row (length row)) log_p1
         ∧ Forall2 (phase_of log_p1s log_p2s i)
             (informative_indices region row (length row)) log_p2)
  ∧ length (str_log_p1s e) = length alignments
  ∧ length (str_log_p2s e) = length alignments
  ∧ inf_reads e = wrap32 (count_reads (str_bp_lengths e))
  ∧ skip_count e
    = wrap32 (Z.of_nat (length (filter (λ aln, without_size region aln = true)
                                  (concat alignments))))
  ∧ trace (ex_processor e) = trace p ++ excluded_warnings region (concat alignments).
Proof.
  intros Hguard H. unfold Genotyper.extract_lengths in H.
  assert (negb (read_stutter_models_ cfg) || negb (use_seq_aligner_ cfg) = true) as Hg.
  { destruct Hguard as [-> | ->]; [done|]. apply orb_true_r. }
  rewrite Hg in H.
  apply extract_rows_spec in H as (_ & G & L1 & L2 & L3 & C1 & C2 & C3); [|done].
  rewrite firstn_all in C1, C2, C3. simpl in *.
  rewrite length_replicate in L1. rewrite length_replicate in L2.
  rewrite length_replicate in L3.
  assert (str_bp_lengths e = lengths_of region <$> alignments) as Hlengths.
  { apply list_eq. intros i. rewrite list_lookup_fmap.
    destruct (alignments !! i) as [row|] eqn:Hrow.
    - destruct (G i row) as (new1 & new2 & -> & _); [by eapply lookup_lt_Some|done|].
      rewrite lookup_replicate_2 by (by eapply lookup_lt_Some). done.
    - apply lookup_ge_None. rewrite L1. by apply lookup_ge_None. }
  split_and!; try done.
  - intros i row Hrow.
    destruct (G i row) as (new1 & new2 & _ & -> & -> & F1 & F2);
      [by eapply lookup_lt_Some|done|].
    rewrite lookup_replicate_2 by (by eapply lookup_lt_Some). simpl. eauto 10.
  - rewrite C1, iter_incr32 by (unfold int32_range; lia).
    rewrite Hlengths. unfold count_reads. by rewrite length_omap_concat.
  - rewrite C2, iter_incr32 by (unfold int32_range; lia). done.
Qed.

(** X13. Where the extraction runs and returns, the lengths it hands on
    are, read group by read group and in the order of the reads, the bp
    differences [ExtractCigar] gave that are not below the threshold;
    [inf_reads] is their number and [skip_count] the number of reads
    [ExtractCigar] gave no size for (both as 32-bit integers). *)
Theorem extraction_keeps_the_lengths_above_the_threshold
    cfg region alignments log_p1s log_p2s p e :
  read_stutter_models_ cfg = false ∨ use_seq_aligner_ cfg = false →
  extract_lengths cfg region alignments log_p1s log_p2s
    (extraction_init (length alignments) p) = Ok e →
  str_bp_lengths e = lengths_of region <$> alignments
  ∧ inf_reads e = wrap32 (count_reads (str_bp_lengths e))
  ∧ skip_count e
    = wrap32 (Z.of_nat (length (filter (λ aln, without_size region aln = true)
                                  (concat alignments)))).
Proof.
  intros Hguard H.
  by destruct (extract_lengths_spec _ _ _ _ _ _ _ Hguard H) as (? & _ & _ & _ & ? & ? & _).
Qed.

(** X14. The phasing values stay with their reads: in every read group the
    two vectors of phasing log-likelihoods handed on have one entry for each
    length, in the same order, and the entry for read [j] is [log_p1s[i][j]]
    (or [log_p2s[i][j]]), or 0 in both where [log_p1s] is empty. *)
Theorem phasing_values_stay_with_their_reads
    cfg region alignments log_p1s log_p2s p e i row :
  read_stutter_models_ cfg = false ∨ use_seq_aligner_ cfg = false →
  extract_lengths cfg region alignments log_p1s log_p2s
    (extraction_init (length alignments) p) = Ok e →
  alignments !! i = Some row →
  ∃ lengths log_p1 log_p2,
    str_bp_lengths e !! i = Some lengths
    ∧ str_log_p1s e !! i = Some log_p1
    ∧ str_log_p2s e !! i = Some log_p2
    ∧ length log_p1 = length lengths
    ∧ length log_p2 = length lengths
    ∧ Forall2 (phase_of log_p1s log_p1s i) (informative_indices region row (length row)) log_p1
    ∧ Forall2 (phase_of log_p1s log_p2s i) (informative_indices region row (length row)) log_p2.
Proof.
  intros Hguard H Hrow.
  destruct (extract_lengths_spec _ _ _ _ _ _ _ Hguard H) as (Hlen & Hph & _).
  destruct (Hph i row Hrow) as (log_p1 & log_p2 & H1 & H2 & F1 & F2).
  exists (lengths_of region row), log_p1, log_p2.
  pose proof (length_informative_indices region row (length row) (le_n _)) as Hsame.
  rewrite firstn_all in Hsame.
  split_and!; try done.
  - by rewrite Hlen, list_lookup_fmap, Hrow.
  - unfold lengths_of; rewrite <- Hsame; symmetry; by eapply Forall2_length.
  - unfold lengths_of; rewrite <- Hsame; symmetry; by eapply Forall2_length.
Qed.

(** X15. The extraction writes one warning for each read whose bp
    difference is below the threshold, in the order of the reads, and
    nothing else; the four counters keep their values. *)
Theorem one_warning_for_each_excluded_read
    cfg region alignments log_p1s log_p2s p e :
  read_stutter_models_ cfg = false ∨ use_seq_aligner_ cfg = false →
  extract_lengths cfg region alignments log_p1s log_p2s
    (extraction_init (length alignments) p) = Ok e →
  trace (ex_processor e) = trace p ++ excluded_warnings region (concat alignments)
  ∧ num_em_converge_ (ex_processor e) = num_em_converge_ p
  ∧ num_em_fail_ (ex_processor e) = num_em_fail_ p
  ∧ num_genotype_success_ (ex_processor e) = num_genotype_success_ p
  ∧ num_genotype_fail_ (ex_processor e) = num_genotype_fail_ p.
Proof.
  intros Hguard H.
  destruct (extract_lengths_spec _ _ _ _ _ _ _ Hguard H) as (_ & _ & _ & _ & _ & _ & Htrace).
  eapply extract_lengths_only_warnings in H as (? & ? & ? & ? & _);
    [|apply only_warnings_refl].
  done.
Qed.



End ExtractionMore.

Section AnalysisMore.

Variable StutterModel : Type.
Variable EMStutterGenotyper : Type.
Variable SeqStutterGenotyper : Type.
Variable ExtractCigar : list CigarOp → Z → Z → Z → option Z.
Variable new_EMStutterGenotyper :
  string → Z → Z → bool → list (list Z) → list (list float) → list (list float) →
  list string → Z → Z → EMStutterGenotyper.
Variable train : EMStutterGenotyper → Z → float → float → bool → bool * EMStutterGenotyper.
Variable get_stutter_model : EMStutterGenotyper → StutterModel.
Variable set_stutter_model : EMStutterGenotyper → StutterModel → EMStutterGenotyper.
Variable length_genotype : EMStutterGenotyper → bool → bool * EMStutterGenotyper.
Variable new_SeqStutterGenotyper :
  Region → bool → list (list BamAlignment) → list (list float) → list (list float) →
  list string → string → StutterModel → bool → SeqStutterGenotyper.
Variable seq_genotype : SeqStutterGenotyper → bool * SeqStutterGenotyper.
Variable NDEBUG : bool.

Local Abbreviation extract_lengths := (extract_lengths StutterModel ExtractCigar).
Local Abbreviation prepare_locus := (prepare_locus StutterModel ExtractCigar NDEBUG).
Local Abbreviation acquire_stutter_model :=
  (acquire_stutter_model StutterModel EMStutterGenotyper new_EMStutterGenotyper train
     get_stutter_model).
Local Abbreviation new_length_genotyper :=
  (new_length_genotyper EMStutterGenotyper new_EMStutterGenotyper).
Local Abbreviation genotype_locus :=
  (genotype_locus StutterModel EMStutterGenotyper SeqStutterGenotyper
     new_EMStutterGenotyper set_stutter_model length_genotype new_SeqStutterGenotyper
     seq_genotype).
Local Abbreviation analyze_reads_and_phasing :=
  (analyze_reads_and_phasing StutterModel EMStutterGenotyper SeqStutterGenotyper
     ExtractCigar new_EMStutterGenotyper train get_stutter_model set_stutter_model
     length_genotype new_SeqStutterGenotyper seq_genotype NDEBUG).
Local Abbreviation excluded_warnings := (excluded_warnings ExtractCigar).
Local Abbreviation without_size := (without_size ExtractCigar).

Implicit Types (cfg : config StutterModel) (region : Region) (p : processor)
  (e : extraction) (alignments : list (list BamAlignment))
  (log_p1s log_p2s : list (list float)) (rg_names : list string).

Lemma without_warnings kind (names : list string) :
  (∀ name, kind (Log (MsgExcludingRead name)) = false) →
  without kind ((λ name, Log (MsgExcludingRead name)) <$> names).
Proof. intros Hkind. apply Forall_fmap, Forall_true. intros name. apply Hkind. Qed.

(** Lines 12-56: what the two checks and the extraction leave. *)
Lemma prepare_locus_cases cfg region alignments log_p1s log_p2s rg_names p r :
  prepare_locus cfg region alignments log_p1s log_p2s rg_names p = Ok r →
  match r with
  | Skipped p' =>
      same_counters p p'
      ∧ ∃ names total,
          total < MIN_TOTAL_READS cfg
          ∧ trace p' = trace p ++ ((λ name, Log (MsgExcludingRead name)) <$> names)
                       ++ [Log (MsgSkippingLocus total (MIN_TOTAL_READS cfg))]
  | Proceed e => only_warnings p (ex_processor e)
  end.
Proof.
  unfold Genotyper.prepare_locus. destruct (_ <? _) eqn:Hfirst.
  - intros [= <-]. split; [done|]. exists [], (count_total_reads alignments).
    split; [lia|done].
  - intros H. apply bind_Ok in H as (? & _ & H). apply bind_Ok in H as (e & He & H).
    eapply extract_lengths_only_warnings in He as Hw; [|apply only_warnings_refl].
    simpl in Hw. destruct Hw as (W1 & W2 & W3 & W4 & names & W5).
    destruct (wrap32 (count_total_reads alignments - skip_count e) <? MIN_TOTAL_READS cfg)
      eqn:Hsecond; injection H as <-.
    + split; [done|]. eexists names, _. split; [apply Z.ltb_lt, Hsecond|].
      simpl. by rewrite W5, <- app_assoc.
    + unfold only_warnings. eauto 10.
Qed.

Local Ltac trace_kind :=
  unfold without; rewrite ?Forall_app; repeat split;
  try (apply Forall_fmap, Forall_true; done); repeat constructor.

(** What a call that returns leaves, whichever way it took. *)
Lemma analyze_Ok_facts
    cfg alignments log_p1s log_p2s rg_names region ref_allele chrom_seq p p' :
  analyze_reads_and_phasing cfg alignments log_p1s log_p2s rg_names region
    ref_allele chrom_seq p = Ok p' →
  ∃ new,
    trace p' = trace p ++ new
    ∧ at_most_one_incremented (num_em_converge_ p) (num_em_converge_ p')
        (num_em_fail_ p) (num_em_fail_ p')
    ∧ at_most_one_incremented (num_genotype_success_ p) (num_genotype_success_ p')
        (num_genotype_fail_ p) (num_genotype_fail_ p')
    ∧ (read_stutter_models_ cfg = true →
       num_em_converge_ p' = num_em_converge_ p ∧ num_em_fail_ p' = num_em_fail_ p)
    ∧ (output_str_gts_ cfg = false →
       num_genotype_success_ p' = num_genotype_success_ p
       ∧ num_genotype_fail_ p' = num_genotype_fail_ p)
    ∧ (use_seq_aligner_ cfg = true → without length_genotyping_event new)
    ∧ (use_seq_aligner_ cfg = false → without seq_genotyper_event new)
    ∧ (read_stutter_models_ cfg = true → without training_event new)
    ∧ (read_stutter_models_ cfg = false → without loaded_model_event new)
    ∧ (without genotypes_record_event new
       ∨ num_genotype_success_ p' = incr32 (num_genotype_success_ p))
    ∧ ∃ msg, last new = Some (Log msg) ∧ closing_line msg = true.
Proof.
  intros H. unfold Genotyper.analyze_reads_and_phasing in H.
  apply bind_Ok in H as (r & Hprep & H). apply prepare_locus_cases in Hprep.
  destruct r as [p1|e].
  - injection H as <-. destruct Hprep as ((C1 & C2 & C3 & C4) & names & total & _ & Htrace).
    eexists. split; [exact Htrace|]. rewrite C1, C2, C3, C4.
    unfold at_most_one_incremented.
    split_and!; auto; try (intros _; trace_kind).
    + left. trace_kind.
    + eexists. by rewrite last_snoc.
  - destruct Hprep as (C1 & C2 & C3 & C4 & names & Htrace).
    unfold Genotyper.acquire_stutter_model, Genotyper.genotype_locus in H.
    destruct cfg. simpl in *.
    destruct read_stutter_models_0, use_seq_aligner_0, output_stutter_models_0,
      output_alleles_0, output_str_gts_0, recalc_stutter_model_0;
      simpl in H; repeat case_match; simplify_eq; try discriminate H;
      injection H as <-; simpl;
      rewrite ?C1, ?C2, ?C3, ?C4, Htrace, <- ?app_assoc; simpl;
      (eexists; split; [reflexivity|]);
      unfold at_most_one_incremented;
      (split_and!;
       [ by auto | by auto
       | by auto | by auto
       | intros ?; by trace_kind | intros ?; by trace_kind
       | intros ?; by trace_kind | intros ?; by trace_kind
       | first [left; by trace_kind | by right]
       | eexists; by rewrite last_app_cons ]).
Qed.

(** X17. A call that returns moves the counters by at most one: of the two
    training counters at most one is incremented, once, and neither where
    models are read from the dictionary; of the two genotyping counters at
    most one is incremented, once, and neither where no genotypes are
    asked for. *)
Theorem counters_move_by_at_most_one
    cfg alignments log_p1s log_p2s rg_names region ref_allele chrom_seq p p' :
  analyze_reads_and_phasing cfg alignments log_p1s log_p2s rg_names region
    ref_allele chrom_seq p = Ok p' →
  at_most_one_incremented (num_em_converge_ p) (num_em_converge_ p')
    (num_em_fail_ p) (num_em_fail_ p')
  ∧ at_most_one_incremented (num_genotype_success_ p) (num_genotype_success_ p')
      (num_genotype_fail_ p) (num_genotype_fail_ p')
  ∧ (read_stutter_models_ cfg = true →
     num_em_converge_ p' = num_em_converge_ p ∧ num_em_fail_ p' = num_em_fail_ p)
  ∧ (output_str_gts_ cfg = false →
     num_genotype_success_ p' = num_genotype_success_ p
     ∧ num_genotype_fail_ p' = num_genotype_fail_ p).
Proof.
  intros (new & _ & ? & ? & ? & ? & _)%analyze_Ok_facts. done.
Qed.

(** X18. One way of genotyping and one source of the model for a locus: the
    trace only grows, and what is added holds nothing of the length-based
    genotyping where the sequence-based genotyper is used, nothing of the
    sequence-based genotyper where it is not, no training where models are
    read from the dictionary, and no use of the dictionary where they are
    trained. *)
Theorem one_genotyper_and_one_model_source
    cfg alignments log_p1s log_p2s rg_names region ref_allele chrom_seq p p' :
  analyze_reads_and_phasing cfg alignments log_p1s log_p2s rg_names region
    ref_allele chrom_seq p = Ok p' →
  ∃ new,
    trace p' = trace p ++ new
    ∧ (use_seq_aligner_ cfg = true → without length_genotyping_event new)
    ∧ (use_seq_aligner_ cfg = false → without seq_genotyper_event new)
    ∧ (read_stutter_models_ cfg = true → without training_event new)
    ∧ (read_stutter_models_ cfg = false → without loaded_model_event new).
Proof.
  intros (new & ? & _ & _ & _ & _ & ? & ? & ? & ? & _)%analyze_Ok_facts. eauto 10.
Qed.

(** X19. A VCF record with genotypes is written only for a locus whose
    genotyping succeeded: where the call adds such an entry to the trace,
    [num_genotype_success_] has been incremented. *)
Theorem genotypes_are_written_only_after_success
    cfg alignments log_p1s log_p2s rg_names region ref_allele chrom_seq p p' :
  analyze_reads_and_phasing cfg alignments log_p1s log_p2s rg_names region
    ref_allele chrom_seq p = Ok p' →
  ∃ new,
    trace p' = trace p ++ new
    ∧ (without genotypes_record_event new
       ∨ num_genotype_success_ p' = incr32 (num_genotype_success_ p)).
Proof.
  intros (new & ? & _ & _ & _ & _ & _ & _ & _ & _ & ? & _)%analyze_Ok_facts. eauto.
Qed.

(** X20. The last thing a call that returns does is to write to the log:
    the line about the skipped locus or the timing line. *)
Theorem every_locus_ends_with_a_closing_line
    cfg alignments log_p1s log_p2s rg_names region ref_allele chrom_seq p p' :
  analyze_reads_and_phasing cfg alignments log_p1s log_p2s rg_names region
    ref_allele chrom_seq p = Ok p' →
  ∃ msg, last (trace p') = Some (Log msg) ∧ closing_line msg = true.
Proof.
  intros (new & -> & _ & _ & _ & _ & _ & _ & _ & _ & _ & msg & Hlast & ?)%analyze_Ok_facts.
  exists msg. split; [|done]. by rewrite last_app, Hlast.
Qed.

Lemma for_each_not_Fatal {A S} (body : S → A → result S) l : ∀ s msg,
  (∀ s a msg, body s a ≠ Fatal msg) → for_each body l s ≠ Fatal msg.
Proof.
  induction l as [|a l IH]; intros s msg Hbody; simpl; [done|].
  destruct (body s a) as [s1| | |] eqn:Hs; simpl; try done.
  - by apply IH.
  - by destruct (Hbody s a msg0).
Qed.

Lemma at_index_not_Fatal {A} (v : list A) i msg : at_index v i ≠ Fatal msg.
Proof. unfold at_index. by destruct (v !! i). Qed.

Lemma at_index2_not_Fatal {A} (v : list (list A)) i j msg : at_index2 v i j ≠ Fatal msg.
Proof.
  unfold at_index2, at_index. destruct (v !! i) as [row|]; simpl; [|done].
  by destruct (row !! j).
Qed.

Lemma prepare_locus_not_Fatal cfg region alignments log_p1s log_p2s rg_names p msg :
  prepare_locus cfg region alignments log_p1s log_p2s rg_names p ≠ Fatal msg.
Proof.
  unfold Genotyper.prepare_locus. destruct (_ <? _); [done|].
  unfold assert. destruct NDEBUG; simpl.
  2: destruct (_ && _); simpl; [|done].
  all: destruct (extract_lengths _ _ _ _ _ _) as [e| | |] eqn:He; simpl; try done;
    try (by destruct (_ <? _)).
  all: exfalso; revert He; unfold Genotyper.extract_lengths;
    destruct (negb _ || negb _); [|done];
    apply for_each_not_Fatal; intros e1 i msg1;
    destruct (at_index alignments i) as [row| | |] eqn:Hrow; simpl; try done;
    [|by apply at_index_not_Fatal in Hrow];
    apply for_each_not_Fatal; intros e2 j msg2;
    destruct (at_index2 alignments i j) as [aln| | |] eqn:Haln; simpl; try done;
    [|by apply at_index2_not_Fatal in Haln];
    unfold Genotyper.extract_read; repeat case_match; try done;
    destruct (at_index2 log_p1s i j) as [x1| | |] eqn:Hx1; simpl; try done;
    [|by apply at_index2_not_Fatal in Hx1];
    destruct (at_index2 log_p2s i j) as [x2| | |] eqn:Hx2; simpl; try done;
    by apply at_index2_not_Fatal in Hx2.
Qed.

(** X21. The one fatal error of the function is the option that is not
    implemented: a call ends the run only with [recalc_stutter_model_] set,
    for a locus genotyped by the sequence-based genotyper with genotypes
    asked for. *)
Theorem only_the_recalc_option_is_fatal
    cfg alignments log_p1s log_p2s rg_names region ref_allele chrom_seq p msg :
  analyze_reads_and_phasing cfg alignments log_p1s log_p2s rg_names region
    ref_allele chrom_seq p = Fatal msg →
  recalc_stutter_model_ cfg = true
  ∧ use_seq_aligner_ cfg = true
  ∧ output_str_gts_ cfg = true
  ∧ msg = "recalc_stutter_model option not yet implemented"%string.
Proof.
  unfold Genotyper.analyze_reads_and_phasing.
  destruct (prepare_locus _ _ _ _ _ _ _) as [r| | |] eqn:Hprep; simpl; try done.
  2: by apply prepare_locus_not_Fatal in Hprep.
  destruct r as [p1|e]; [done|].
  unfold Genotyper.acquire_stutter_model, Genotyper.genotype_locus.
  destruct cfg. simpl.
  destruct read_stutter_models_0, use_seq_aligner_0, output_stutter_models_0,
    output_alleles_0, output_str_gts_0, recalc_stutter_model_0;
    simpl; repeat case_match; simplify_eq; simpl; try done;
    unfold printErrorAndDie; by intros [= <-].
Qed.

(** X22. With [recalc_stutter_model_] set, the sequence-based genotyper in
    use and genotypes asked for, a locus that has a stutter model and is
    genotyped with success ends the run. *)
Theorem recalc_option_ends_the_run_after_success
    cfg alignments log_p1s log_p2s rg_names region ref_allele chrom_seq p e model g :
  let haploid := bool_decide (chrom region ∈ haploid_chroms_ cfg) in
  recalc_stutter_model_ cfg = true →
  use_seq_aligner_ cfg = true →
  output_str_gts_ cfg = true →
  prepare_locus cfg region alignments log_p1s log_p2s rg_names p = Ok (Proceed e) →
  (acquire_stutter_model cfg region haploid e rg_names).1.1 = Some model →
  seq_genotype (new_SeqStutterGenotyper region haploid alignments log_p1s log_p2s rg_names
                  chrom_seq model (have_ref_vcf_ cfg)) = (true, g) →
  analyze_reads_and_phasing cfg alignments log_p1s log_p2s rg_names region
    ref_allele chrom_seq p
  = Fatal "recalc_stutter_model option not yet implemented".
Proof.
  intros haploid Hrecalc Hseq Hgts Hprep Hmodel Hok.
  unfold Genotyper.analyze_reads_and_phasing. rewrite Hprep. simpl.
  fold haploid.
  destruct (acquire_stutter_model cfg region haploid e rg_names) as [[m lg] p1].
  simpl in Hmodel. subst m. unfold Genotyper.genotype_locus.
  rewrite Hseq, Hgts, Hrecalc, Hok. simpl. by destruct (output_alleles_ cfg).
Qed.

(** X23. Where models are read from the dictionary and it holds none for
    the region, the locus is not genotyped: the call looks the model up,
    writes the warning and the timing line, and leaves the counters. *)
Theorem locus_without_stored_model_is_not_genotyped
    cfg alignments log_p1s log_p2s rg_names region ref_allele chrom_seq p e :
  read_stutter_models_ cfg = true →
  stutter_models_ cfg !! (chrom region, start region, stop region) = None →
  prepare_locus cfg region alignments log_p1s log_p2s rg_names p = Ok (Proceed e) →
  ∃ p',
    analyze_reads_and_phasing cfg alignments log_p1s log_p2s rg_names region
      ref_allele chrom_seq p = Ok p'
    ∧ same_counters p p'
    ∧ trace p'
      = trace (ex_processor e)
        ++ [FindStutterModel region;
            Log (MsgNoStutterModel (chrom region) (start region) (stop region));
            Log (MsgLocusTiming false false)].
Proof.
  intros Hread Hnone Hprep.
  unfold Genotyper.analyze_reads_and_phasing. rewrite Hprep. simpl.
  apply prepare_locus_cases in Hprep as (C1 & C2 & C3 & C4 & _).
  unfold Genotyper.acquire_stutter_model. rewrite Hread, Hnone. simpl.
  eexists. split; [done|]. unfold same_counters. simpl.
  split; [done|]. by rewrite <- !app_assoc.
Qed.

(** X24. The second check counts the reads without the ones
    [ExtractCigar] gave no size for: a locus that passes the first check and
    has too few reads left is skipped after the extraction, with the
    warnings of the extraction and the line about the skipped locus as the
    only things done, and the counters as they were. *)
Theorem too_few_sized_reads_skips_locus
    cfg alignments log_p1s log_p2s rg_names region ref_allele chrom_seq p e :
  let total_reads := count_total_reads alignments in
  ¬ total_reads < MIN_TOTAL_READS cfg →
  (NDEBUG = false →
   length alignments = length log_p1s ∧ length alignments = length log_p2s
   ∧ length alignments = length rg_names) →
  read_stutter_models_ cfg = false ∨ use_seq_aligner_ cfg = false →
  extract_lengths cfg region alignments log_p1s log_p2s
    (extraction_init (length alignments) p) = Ok e →
  wrap32 (total_reads - skip_count e) < MIN_TOTAL_READS cfg →
  ∃ p',
    analyze_reads_and_phasing cfg alignments log_p1s log_p2s rg_names region
      ref_allele chrom_seq p = Ok p'
    ∧ same_counters p p'
    ∧ skip_count e
      = wrap32 (Z.of_nat (length (filter (λ aln, without_size region aln = true)
                                    (concat alignments))))
    ∧ trace p'
      = trace p ++ excluded_warnings region (concat alignments)
        ++ [Log (MsgSkippingLocus (wrap32 (total_reads - skip_count e))
                   (MIN_TOTAL_READS cfg))].
Proof.
  intros total_reads Hfirst Hsizes Hguard He Hsecond.
  destruct (extract_lengths_spec _ _ _ _ _ _ _ _ _ Hguard He)
    as (_ & _ & _ & _ & _ & Hskip & Htrace).
  eapply extract_lengths_only_warnings in He as Hw; [|apply only_warnings_refl].
  destruct Hw as (C1 & C2 & C3 & C4 & _). simpl in *.
  unfold Genotyper.analyze_reads_and_phasing, Genotyper.prepare_locus.
  fold total_reads.
  destruct (total_reads <? MIN_TOTAL_READS cfg) eqn:E1; [lia|].
  assert (assert NDEBUG
            ((length alignments =? length log_p1s)%nat
             && (length alignments =? length log_p2s)%nat
             && (length alignments =? length rg_names)%nat) = Ok ()) as ->.
  { unfold assert. destruct NDEBUG; [done|].
    destruct Hsizes as (<- & <- & <-); [done|]. by rewrite Nat.eqb_refl. }
  simpl. rewrite He. simpl.
  destruct (wrap32 (total_reads - skip_count e) <? MIN_TOTAL_READS cfg) eqn:E2; [|lia].
  simpl. eexists. split; [done|]. unfold same_counters. simpl.
  split_and!; try done. by rewrite Htrace, <- app_assoc.
Qed.

End AnalysisMore.

(** * The properties on the worked inputs *)

Import Examples.

(** stdpp's merge sort has the two guarantees of [std::sort]. *)
Lemma example_sort_permutation l : Examples.std_sort l ≡ₚ l.
Proof. apply merge_sort_Permutation. Qed.

Lemma example_sort_sorted l : Sorted not_after (Examples.std_sort l).
Proof. apply Sorted_merge_sort. apply _. Qed.



Lemma retained_pairs_have_distinct_signatures_witness :
  ∃ kept strs mates unpaired,
    [[str_a; str_b]] !! 0%nat = Some strs
    ∧ [[mate_a; mate_b]] !! 0%nat = Some mates
    ∧ [[str_c; str_d; str_e]] !! 0%nat = Some unpaired
    ∧ kept ⊆+ read_pairs_of true rg_to_library strs mates unpaired
    ∧ [str_b] = paired_of kept
    ∧ [mate_b] = mates_of kept
    ∧ [str_e] = unpaired_of kept
    ∧ NoDup (signature <$> kept).
Proof.
  eapply (retained_pairs_have_distinct_signatures std_sort example_sort_permutation
            example_sort_sorted false base_quality true rg_to_library
            [[str_a; str_b]] [[mate_a; mate_b]] [[str_c; str_d; str_e]] []).
  - vm_compute. reflexivity.
  - reflexivity.
  - reflexivity.
  - reflexivity.
Defined.

(** The vectors as they came in do not meet the conclusion of C1: the two
    pairs have one signature, with the library the map gives both. *)
Example unchanged_vectors_repeat_a_signature :
  ¬ ∃ kept,
      kept ⊆+ read_pairs_of true rg_to_library [str_a; str_b] [mate_a; mate_b]
                [str_c; str_d; str_e]
      ∧ [str_a; str_b] = paired_of kept
      ∧ NoDup (signature <$> kept).
Proof.
  intros (kept & Hsub & Hpaired & Hnd). unfold paired_of in Hpaired.
  assert (signature <$> filter (λ p, single_ended p = false) kept
          = [("lib1"%string, 5, 9); ("lib1"%string, 5, 9)]) as Hsig.
  { assert (∀ p, p ∈ filter (λ p, single_ended p = false) kept →
              signature p = ("lib1"%string, 5, 9)) as Hall.
    { intros p [Hse Hp]%list_elem_of_filter.
      eapply elem_of_submseteq in Hp; [|exact Hsub].
      repeat (apply elem_of_cons in Hp as [->|Hp]); try done.
      by apply elem_of_nil in Hp. }
    destruct (filter _ kept) as [|p [|q [|r rest]]]; try discriminate Hpaired.
    rewrite !fmap_cons, fmap_nil, (Hall p), (Hall q); [done|..].
    - apply elem_of_cons. right. apply list_elem_of_here.
    - apply list_elem_of_here. }
  apply (sublist_NoDup (signature <$> filter (λ p, single_ended p = false) kept)) in Hnd;
    [|apply fmap_sublist, sublist_filter].
  rewrite Hsig in Hnd. apply NoDup_cons in Hnd as [Hin _].
  apply Hin, list_elem_of_here.
Qed.

Lemma mates_stay_with_their_reads_witness :
  length [str_b] = length [mate_b]
  ∧ ∀ k aln_1 aln_2,
      [str_b] !! k = Some aln_1 → [mate_b] !! k = Some aln_2 →
      ∃ strs mates j,
        [[str_a; str_b]] !! 0%nat = Some strs ∧ [[mate_a; mate_b]] !! 0%nat = Some mates
        ∧ strs !! j = Some aln_1 ∧ mates !! j = Some aln_2.
Proof.
  eapply (mates_stay_with_their_reads std_sort example_sort_permutation
            false base_quality true rg_to_library
            [[str_a; str_b]] [[mate_a; mate_b]] [[str_c; str_d; str_e]] []).
  - vm_compute. reflexivity.
  - reflexivity.
  - reflexivity.
Defined.

Lemma dup_count_counts_discarded_pairs_witness :
  ∃ out,
    remove_pcr_duplicates std_sort false base_quality true rg_to_library
      [[str_a; str_b]] [[mate_a; mate_b]] [[str_c; str_d; str_e]] [] = Ok out
    ∧ logger out = [MsgRemovedDuplicates 3].
Proof.
  eexists. split.
  - vm_compute. reflexivity.
  - apply (dup_count_counts_discarded_pairs std_sort example_sort_permutation
             false base_quality true rg_to_library
             [[str_a; str_b]] [[mate_a; mate_b]] [[str_c; str_d; str_e]] []).
    + vm_compute. reflexivity.
    + vm_compute. reflexivity.
Defined.

(** C5 as stated fails: three unpaired reads of one signature are one
    duplicate set, and the count reported for them is 2. *)
Lemma dup_count_is_not_the_number_of_sets :
  remove_pcr_duplicates std_sort false base_quality true rg_to_library
    [[]] [[]] [[str_c; str_c; str_c]] []
  = Ok {| PcrDuplicates.rg_to_library := rg_to_library;
          paired_strs_by_rg := [[]];
          mate_pairs_by_rg := [[]];
          unpaired_strs_by_rg := [[str_c]];
          dup_count := 2;
          logger := [MsgRemovedDuplicates 2] |}
  ∧ duplicate_sets (signature <$> [single_c; single_c; single_c]) = 1
  ∧ 2 ≠ duplicate_sets (signature <$> [single_c; single_c; single_c]).
Proof. split_and!; vm_compute; (reflexivity || discriminate). Qed.

(** C6 as stated fails: without [use_bam_rgs] a read that has no RG tag and
    whose file has no library in the map goes through, with the empty
    library that [operator[]] inserts. *)
Lemma missing_library_is_not_fatal_without_bam_rgs :
  RG untagged = None
  ∧ (∅ : gmap string string) !! Filename untagged = None
  ∧ remove_pcr_duplicates std_sort false base_quality false ∅ [[]] [[]] [[untagged]] []
    = Ok {| PcrDuplicates.rg_to_library := {[ "sample.bam"%string := ""%string ]};
            paired_strs_by_rg := [[]];
            mate_pairs_by_rg := [[]];
            unpaired_strs_by_rg := [[untagged]];
            dup_count := 0;
            logger := [MsgRemovedDuplicates 0] |}.
Proof. split_and!; vm_compute; reflexivity. Qed.

Lemma missing_library_is_fatal_witness :
  ∃ msg,
    remove_pcr_duplicates std_sort false base_quality true rg_to_library
      [[str_a]] [[mate_a]] [[untagged]] [] = Fatal msg.
Proof.
  apply (missing_library_is_fatal std_sort false base_quality rg_to_library
           [[str_a]] [[mate_a]] [[untagged]] [] 0%nat [str_a] [untagged] untagged).
  - reflexivity.
  - reflexivity.
  - repeat constructor.
  - reflexivity.
  - reflexivity.
  - right. apply list_elem_of_here.
  - left. reflexivity.
Defined.

Lemma too_few_reads_skips_locus_witness :
  analyze_reads_and_phasing unit unit unit ExtractCigar new_EMStutterGenotyper train
    get_stutter_model set_stutter_model length_genotype new_SeqStutterGenotyper seq_genotype
    false (cfg 10 false false) [[str_c; str_d; str_e]] [[]] [[]] ["rg1"%string] region "" "" processor0
  = Ok {| num_em_converge_ := 0; num_em_fail_ := 0;
          num_genotype_success_ := 0; num_genotype_fail_ := 0;
          trace := [Log (MsgSkippingLocus 3 10)] |}.
Proof.
  apply (too_few_reads_skips_locus unit unit unit ExtractCigar new_EMStutterGenotyper train
           get_stutter_model set_stutter_model length_genotype new_SeqStutterGenotyper
           seq_genotype false (cfg 10 false false) [[str_c; str_d; str_e]]).
  - unfold int32_range. simpl. lia.
  - vm_compute. reflexivity.
Defined.

Lemma failed_training_skips_genotyping_witness :
  (acquire_stutter_model unit unit new_EMStutterGenotyper train get_stutter_model
     (cfg 1 false false) region false extraction4 ["rg1"%string]).1.1 = None
  ∧ ∃ excluded,
      analyze_reads_and_phasing unit unit unit ExtractCigar new_EMStutterGenotyper train
        get_stutter_model set_stutter_model length_genotype new_SeqStutterGenotyper
        seq_genotype false (cfg 1 false false) [[at4]] [[(-1)%float]] [[(-2)%float]]
        ["rg1"%string] region "" "" processor0
      = Ok {| num_em_converge_ := 0;
              num_em_fail_ := incr32 0;
              num_genotype_success_ := 0;
              num_genotype_fail_ := 0;
              trace :=
                [] ++ ((λ name, Log (MsgExcludingRead name)) <$> excluded)
                ++ [Log MsgBuildingEM; NewEMStutterGenotyper; Log MsgTrainingEM; Train;
                    Log (MsgTrainingFailed "chr1" 10 13 1);
                    Log (MsgLocusTiming false false)] |}.
Proof.
  apply (failed_training_skips_genotyping unit unit unit ExtractCigar new_EMStutterGenotyper
           train get_stutter_model set_stutter_model length_genotype new_SeqStutterGenotyper
           seq_genotype false (cfg 1 false false) [[at4]] [[(-1)%float]] [[(-2)%float]]
           ["rg1"%string] region "" "" processor0 extraction4 tt).
  - reflexivity.
  - vm_compute. reflexivity.
  - reflexivity.
Defined.

Lemma bp_diff_at_the_exclusion_threshold_witness :
  extract_read ExtractCigar region [] [] 0 0 at4 extraction0
  = Ok {| str_bp_lengths := [[-4]];
          str_log_p1s := [[0%float]];
          str_log_p2s := [[0%float]];
          inf_reads := 1;
          skip_count := 0;
          ex_processor := processor0 |}
  ∧ extract_read ExtractCigar region [] [] 0 0 at5 extraction0
    = Ok {| str_bp_lengths := [[]];
            str_log_p1s := [[]];
            str_log_p2s := [[]];
            inf_reads := 0;
            skip_count := 0;
            ex_processor :=
              {| num_em_converge_ := 0; num_em_fail_ := 0;
                 num_genotype_success_ := 0; num_genotype_fail_ := 0;
                 trace := [Log (MsgExcludingRead "r5")] |} |}.
Proof.
  split.
  - apply (bp_diff_at_the_exclusion_threshold ExtractCigar region [] [] 0%nat 0%nat at4
             extraction0 (-4)); [unfold int32_range; simpl; lia|reflexivity|reflexivity].
  - apply (bp_diff_at_the_exclusion_threshold ExtractCigar region [] [] 0%nat 0%nat at5
             extraction0 (-5)); [unfold int32_range; simpl; lia|reflexivity|reflexivity].
Defined.

Lemma loaded_models_and_seq_genotyper_skip_extraction_witness :
  (∀ e, extract_lengths unit ExtractCigar (cfg 1 true true) region [[at5]] [[]] [[]] e = Ok e)
  ∧ (¬ count_total_reads [[at5]] < 1 →
     prepare_locus unit ExtractCigar false (cfg 1 true true) region [[at5]] [[]] [[]]
       ["rg1"%string] processor0
     = Ok (Proceed extraction0)).
Proof.
  apply (loaded_models_and_seq_genotyper_skip_extraction unit ExtractCigar false
           (cfg 1 true true) [[at5]] [[]] [[]] ["rg1"%string] region processor0);
    reflexivity.
Defined.

Lemma best_quality_pair_is_retained_witness :
  ∃ k best,
    [pair_a; pair_b] !! k = Some best
    ∧ (∀ p, p ∈ [pair_a; pair_b] →
         (quality base_quality best <? quality base_quality p)%float = false)
    ∧ (∀ j p, (j < k)%nat → [pair_a; pair_b] !! j = Some p →
         (quality base_quality best <=? quality base_quality p)%float = false)
    ∧ let kept := retained base_quality [] ++ best :: retained base_quality [single_c] in
      let c' := scan base_quality 0 ([] ++ [pair_a; pair_b] ++ [single_c]) scan0 in
      scan_paired c' = append_row 0 (paired_of kept) (scan_paired scan0)
      ∧ scan_mates c' = append_row 0 (mates_of kept) (scan_mates scan0)
      ∧ scan_unpaired c' = append_row 0 (unpaired_of kept) (scan_unpaired scan0).
Proof.
  apply (best_quality_pair_is_retained base_quality 0%nat [] [pair_a; pair_b] [single_c] scan0).
  - discriminate.
  - intros p q Hp Hq.
    apply elem_of_cons in Hp as [->|Hp%list_elem_of_singleton];
      apply elem_of_cons in Hq as [->|Hq%list_elem_of_singleton]; subst; reflexivity.
  - intros x p Hx. discriminate Hx.
  - intros p y Hp Hy. injection Hy as <-.
    apply elem_of_cons in Hp as [->|Hp%list_elem_of_singleton]; subst; discriminate.
  - reflexivity.
Defined.

(** The scenario of the specification: two pairs of one signature and
    library "lib1", with summed log-probabilities -2 and -1; the second is
    kept and the count is 1. *)
Example two_duplicate_pairs :
  remove_pcr_duplicates std_sort false base_quality true rg_to_library
    [[str_a; str_b]] [[mate_a; mate_b]] [[]] []
  = Ok {| PcrDuplicates.rg_to_library := rg_to_library;
          paired_strs_by_rg := [[str_b]];
          mate_pairs_by_rg := [[mate_b]];
          unpaired_strs_by_rg := [[]];
          dup_count := 1;
          logger := [MsgRemovedDuplicates 1] |}.
Proof. vm_compute. reflexivity. Qed.

(** A read group with a single pair keeps it and counts nothing; an empty
    read group stays empty. *)
Example single_pair_and_empty_group :
  remove_pcr_duplicates std_sort false base_quality true rg_to_library
    [[str_a]; []] [[mate_a]; []] [[]; []] []
  = Ok {| PcrDuplicates.rg_to_library := rg_to_library;
          paired_strs_by_rg := [[str_a]; []];
          mate_pairs_by_rg := [[mate_a]; []];
          unpaired_strs_by_rg := [[]; []];
          dup_count := 0;
          logger := [MsgRemovedDuplicates 0] |}.
Proof. vm_compute. reflexivity. Qed.

(** Without phasing log-likelihoods a read that yields a length gets the
    log-likelihood 0 for both haplotypes. *)
Example length_without_phasing :
  extract_lengths unit ExtractCigar (cfg 1 false false) region [[at4; at5]] [] [] extraction0
  = Ok {| str_bp_lengths := [[-4]];
          str_log_p1s := [[0%float]];
          str_log_p2s := [[0%float]];
          inf_reads := 1;
          skip_count := 0;
          ex_processor :=
            {| num_em_converge_ := 0; num_em_fail_ := 0;
               num_genotype_success_ := 0; num_genotype_fail_ := 0;
               trace := [Log (MsgExcludingRead "r5")] |} |}.
Proof. vm_compute. reflexivity. Qed.


(** * The further properties on the worked inputs *)

Import MoreExamples.

Lemma output_reads_come_from_input_witness :
  ∃ strs' mates' unpaired',
    paired_strs_by_rg out_by_rg !! 0%nat = Some strs'
    ∧ mate_pairs_by_rg out_by_rg !! 0%nat = Some mates'
    ∧ unpaired_strs_by_rg out_by_rg !! 0%nat = Some unpaired'
    ∧ strs' ++ unpaired' ⊆+ [str_a; str_b] ++ [str_c; str_d; str_e]
    ∧ mates' ⊆+ [mate_a; mate_b].
Proof.
  apply (output_reads_come_from_input std_sort example_sort_permutation false base_quality
           true rg_to_library strs_by_rg mates_by_rg unpaired_by_rg [] out_by_rg 0%nat).
  - vm_compute. reflexivity.
  - reflexivity.
  - reflexivity.
  - reflexivity.
Defined.

Lemma every_signature_keeps_one_pair_witness :
  ∃ kept,
    paired_strs_by_rg out_by_rg !! 0%nat = Some (paired_of kept)
    ∧ mate_pairs_by_rg out_by_rg !! 0%nat = Some (mates_of kept)
    ∧ unpaired_strs_by_rg out_by_rg !! 0%nat = Some (unpaired_of kept)
    ∧ kept ⊆+ read_pairs_of true rg_to_library [str_a; str_b] [mate_a; mate_b]
                [str_c; str_d; str_e]
    ∧ signature <$> kept
      ≡ₚ remove_dups (signature <$> read_pairs_of true rg_to_library [str_a; str_b]
                                      [mate_a; mate_b] [str_c; str_d; str_e]).
Proof.
  apply (every_signature_keeps_one_pair std_sort example_sort_permutation example_sort_sorted
           false base_quality true rg_to_library strs_by_rg mates_by_rg unpaired_by_rg []
           out_by_rg 0%nat).
  - vm_compute. reflexivity.
  - reflexivity.
  - reflexivity.
  - reflexivity.
Defined.

Lemma retained_pairs_come_in_order_witness :
  ∃ kept,
    paired_strs_by_rg out_by_rg !! 0%nat = Some (paired_of kept)
    ∧ mate_pairs_by_rg out_by_rg !! 0%nat = Some (mates_of kept)
    ∧ unpaired_strs_by_rg out_by_rg !! 0%nat = Some (unpaired_of kept)
    ∧ kept ⊆+ read_pairs_of true rg_to_library [str_a; str_b] [mate_a; mate_b]
                [str_c; str_d; str_e]
    ∧ StronglySorted (λ p q, ReadPair_lt p q = true) kept.
Proof.
  apply (retained_pairs_come_in_order std_sort example_sort_permutation example_sort_sorted
           false base_quality true rg_to_library strs_by_rg mates_by_rg unpaired_by_rg []
           out_by_rg 0%nat).
  - vm_compute. reflexivity.
  - reflexivity.
  - reflexivity.
  - reflexivity.
Defined.

Lemma nothing_removed_without_duplicates_witness :
  logger out_distinct = [] ++ [MsgRemovedDuplicates 0]
  ∧ ∀ i strs mates unpaired,
      [[str_a]; []] !! i = Some strs →
      [[mate_a]; []] !! i = Some mates →
      [[str_c]; []] !! i = Some unpaired →
      ∃ strs' unpaired',
        paired_strs_by_rg out_distinct !! i = Some strs'
        ∧ unpaired_strs_by_rg out_distinct !! i = Some unpaired'
        ∧ strs' ++ unpaired' ≡ₚ strs ++ unpaired.
Proof.
  apply (nothing_removed_without_duplicates std_sort example_sort_permutation false
           base_quality true rg_to_library [[str_a]; []] [[mate_a]; []] [[str_c]; []] []
           out_distinct).
  - intros [|[|i]].
    + apply (bool_decide_unpack _). vm_compute. exact I.
    + apply NoDup_nil_2.
    + apply NoDup_nil_2.
  - vm_compute. reflexivity.
Defined.

Lemma pairs_starting_at_minus_one_come_back_unpaired_witness :
  (∀ k aln_1 aln_2,
     [] !! k = Some aln_1 → [] !! k = Some aln_2 →
     Z.min (Position aln_1) (Position aln_2) ≠ -1)
  ∧ (∀ aln_1,
       aln_1 ∈ [str_m] →
       aln_1 ∈ []
       ∨ ∃ j aln_2,
           [str_m] !! j = Some aln_1 ∧ [mate_a] !! j = Some aln_2
           ∧ Z.min (Position aln_1) (Position aln_2) = -1).
Proof.
  apply (pairs_starting_at_minus_one_come_back_unpaired std_sort example_sort_permutation
           false base_quality true rg_to_library [[str_m]] [[mate_a]] [[]] []
           out_unmapped 0%nat).
  - vm_compute. reflexivity.
  - reflexivity.
  - reflexivity.
  - reflexivity.
  - reflexivity.
  - reflexivity.
  - reflexivity.
Defined.

Lemma read_groups_keep_their_places_witness :
  length (paired_strs_by_rg out_distinct) = length [[str_a]; []]
  ∧ length (mate_pairs_by_rg out_distinct) = length [[mate_a]; []]
  ∧ length (unpaired_strs_by_rg out_distinct) = length [[str_c]; []]
  ∧ ∀ i,
      [[str_a]; []] !! i = Some [] → [[str_c]; []] !! i = Some [] →
      paired_strs_by_rg out_distinct !! i = Some []
      ∧ mate_pairs_by_rg out_distinct !! i = Some []
      ∧ unpaired_strs_by_rg out_distinct !! i = Some [].
Proof.
  apply (read_groups_keep_their_places std_sort example_sort_permutation false base_quality
           true rg_to_library [[str_a]; []] [[mate_a]; []] [[str_c]; []] [] out_distinct).
  vm_compute. reflexivity.
Defined.

Lemma second_pass_removes_nothing_witness :
  logger out_again = [] ++ [MsgRemovedDuplicates 0]
  ∧ paired_strs_by_rg out_again = paired_strs_by_rg out_by_rg
  ∧ mate_pairs_by_rg out_again = mate_pairs_by_rg out_by_rg
  ∧ unpaired_strs_by_rg out_again = unpaired_strs_by_rg out_by_rg.
Proof.
  apply (second_pass_removes_nothing std_sort example_sort_permutation example_sort_sorted
           false base_quality true rg_to_library strs_by_rg mates_by_rg unpaired_by_rg []
           out_by_rg [] out_again).
  - intros [|i] strs mates j aln_1 aln_2 Hs Hm H1 H2; [|destruct i; discriminate Hs].
    injection Hs as <-. injection Hm as <-.
    destruct j as [|[|j]]; [| |destruct j; discriminate H1];
      injection H1 as <-; injection H2 as <-; discriminate.
  - vm_compute. reflexivity.
  - vm_compute. reflexivity.
Defined.

Lemma read_group_lookup_leaves_the_map_witness :
  PcrDuplicates.rg_to_library out_by_rg = rg_to_library.
Proof.
  apply (read_group_lookup_leaves_the_map std_sort false base_quality rg_to_library
           strs_by_rg mates_by_rg unpaired_by_rg [] out_by_rg).
  vm_compute. reflexivity.
Defined.

Lemma file_name_lookup_fills_the_map_witness :
  (∅ : gmap string string) ⊆ PcrDuplicates.rg_to_library out_by_file
  ∧ (∀ i strs unpaired aln,
       strs_by_rg !! i = Some strs → unpaired_by_rg !! i = Some unpaired →
       aln ∈ strs ++ unpaired →
       is_Some (PcrDuplicates.rg_to_library out_by_file !! Filename aln))
  ∧ (∀ key library,
       PcrDuplicates.rg_to_library out_by_file !! key = Some library →
       (∅ : gmap string string) !! key = None →
       library = ""%string
       ∧ ∃ i strs unpaired aln,
           strs_by_rg !! i = Some strs ∧ unpaired_by_rg !! i = Some unpaired
           ∧ aln ∈ strs ++ unpaired ∧ key = Filename aln).
Proof.
  apply (file_name_lookup_fills_the_map std_sort false base_quality ∅
           strs_by_rg mates_by_rg unpaired_by_rg [] out_by_file).
  vm_compute. reflexivity.
Defined.

Lemma remove_pcr_duplicates_returns_witness :
  ∃ out,
    remove_pcr_duplicates std_sort false base_quality true rg_to_library
      strs_by_rg mates_by_rg unpaired_by_rg [] = Ok out.
Proof.
  apply (remove_pcr_duplicates_returns std_sort false base_quality true rg_to_library
           strs_by_rg mates_by_rg unpaired_by_rg []).
  - split_and!; [reflexivity|reflexivity|]. repeat constructor.
  - intros [|i] strs unpaired aln Hs Hu Hin _; [|destruct i; discriminate Hs].
    injection Hs as <-. injection Hu as <-. exists "rg1"%string, "lib1"%string.
    repeat (apply elem_of_cons in Hin as [->|Hin]); try (split; reflexivity).
    by apply elem_of_nil in Hin.
Defined.

Lemma checked_build_returns_only_for_matching_sizes_witness :
  well_sized strs_by_rg mates_by_rg unpaired_by_rg.
Proof.
  apply (checked_build_returns_only_for_matching_sizes std_sort base_quality true
           rg_to_library strs_by_rg mates_by_rg unpaired_by_rg [] out_by_rg).
  vm_compute. reflexivity.
Defined.

Lemma extraction_keeps_the_lengths_above_the_threshold_witness :
  str_bp_lengths extraction45 = lengths_of ExtractCigar region <$> [[at4; at5]]
  ∧ inf_reads extraction45 = wrap32 (count_reads (str_bp_lengths extraction45))
  ∧ skip_count extraction45
    = wrap32 (Z.of_nat (length (filter (λ aln, without_size ExtractCigar region aln = true)
                                  (concat [[at4; at5]])))).
Proof.
  apply (extraction_keeps_the_lengths_above_the_threshold unit ExtractCigar
           (cfg 1 false false) region [[at4; at5]] log_p1s log_p2s processor0 extraction45).
  - left. reflexivity.
  - vm_compute. reflexivity.
Defined.

Lemma phasing_values_stay_with_their_reads_witness :
  ∃ lengths log_p1 log_p2,
    str_bp_lengths extraction45 !! 0%nat = Some lengths
    ∧ str_log_p1s extraction45 !! 0%nat = Some log_p1
    ∧ str_log_p2s extraction45 !! 0%nat = Some log_p2
    ∧ length log_p1 = length lengths
    ∧ length log_p2 = length lengths
    ∧ Forall2 (phase_of log_p1s log_p1s 0)
        (informative_indices ExtractCigar region [at4; at5] (length [at4; at5])) log_p1
    ∧ Forall2 (phase_of log_p1s log_p2s 0)
        (informative_indices ExtractCigar region [at4; at5] (length [at4; at5])) log_p2.
Proof.
  apply (phasing_values_stay_with_their_reads unit ExtractCigar (cfg 1 false false) region
           [[at4; at5]] log_p1s log_p2s processor0 extraction45 0%nat [at4; at5]).
  - left. reflexivity.
  - vm_compute. reflexivity.
  - reflexivity.
Defined.

Lemma one_warning_for_each_excluded_read_witness :
  trace (ex_processor extraction45)
  = trace processor0 ++ excluded_warnings ExtractCigar region (concat [[at4; at5]])
  ∧ num_em_converge_ (ex_processor extraction45) = num_em_converge_ processor0
  ∧ num_em_fail_ (ex_processor extraction45) = num_em_fail_ processor0
  ∧ num_genotype_success_ (ex_processor extraction45) = num_genotype_success_ processor0
  ∧ num_genotype_fail_ (ex_processor extraction45) = num_genotype_fail_ processor0.
Proof.
  apply (one_warning_for_each_excluded_read unit ExtractCigar (cfg 1 false false) region
           [[at4; at5]] log_p1s log_p2s processor0 extraction45).
  - left. reflexivity.
  - vm_compute. reflexivity.
Defined.


Lemma counters_move_by_at_most_one_witness :
  ∃ p',
    analyze (cfg 1 false false) [[at4; at5]] log_p1s log_p2s = Ok p'
    ∧ at_most_one_incremented (num_em_converge_ processor0) (num_em_converge_ p')
        (num_em_fail_ processor0) (num_em_fail_ p')
    ∧ at_most_one_incremented (num_genotype_success_ processor0) (num_genotype_success_ p')
        (num_genotype_fail_ processor0) (num_genotype_fail_ p')
    ∧ (read_stutter_models_ (cfg 1 false false) = true →
       num_em_converge_ p' = num_em_converge_ processor0
       ∧ num_em_fail_ p' = num_em_fail_ processor0)
    ∧ (output_str_gts_ (cfg 1 false false) = false →
       num_genotype_success_ p' = num_genotype_success_ processor0
       ∧ num_genotype_fail_ p' = num_genotype_fail_ processor0).
Proof.
  eexists. split; [vm_compute; reflexivity|].
  apply (counters_move_by_at_most_one unit unit unit ExtractCigar new_EMStutterGenotyper
           train get_stutter_model set_stutter_model length_genotype new_SeqStutterGenotyper
           seq_genotype false (cfg 1 false false) [[at4; at5]] log_p1s log_p2s
           ["rg1"%string] region ""%string ""%string processor0).
  vm_compute. reflexivity.
Defined.

Lemma one_genotyper_and_one_model_source_witness :
  ∃ p' new,
    analyze (cfg_loaded true false) [[at4]] [[]] [[]] = Ok p'
    ∧ trace p' = trace processor0 ++ new
    ∧ (use_seq_aligner_ (cfg_loaded true false) = true → without length_genotyping_event new)
    ∧ (use_seq_aligner_ (cfg_loaded true false) = false → without seq_genotyper_event new)
    ∧ (read_stutter_models_ (cfg_loaded true false) = true → without training_event new)
    ∧ (read_stutter_models_ (cfg_loaded true false) = false →
       without loaded_model_event new).
Proof.
  eexists.
  assert (analyze (cfg_loaded true false) [[at4]] [[]] [[]] = Ok _) as Hrun
    by (vm_compute; reflexivity).
  destruct (one_genotyper_and_one_model_source unit unit unit ExtractCigar
              new_EMStutterGenotyper train get_stutter_model set_stutter_model
              length_genotype new_SeqStutterGenotyper seq_genotype false
              (cfg_loaded true false) [[at4]] [[]] [[]] ["rg1"%string] region
              ""%string ""%string processor0 _ Hrun) as (new & Hnew).
  exists new. split; [exact Hrun|exact Hnew].
Defined.

Lemma genotypes_are_written_only_after_success_witness :
  ∃ p' new,
    analyze (cfg_loaded false false) [[at4; at5]] log_p1s log_p2s = Ok p'
    ∧ trace p' = trace processor0 ++ new
    ∧ (without genotypes_record_event new
       ∨ num_genotype_success_ p' = incr32 (num_genotype_success_ processor0)).
Proof.
  eexists.
  assert (analyze (cfg_loaded false false) [[at4; at5]] log_p1s log_p2s = Ok _) as Hrun
    by (vm_compute; reflexivity).
  destruct (genotypes_are_written_only_after_success unit unit unit ExtractCigar
              new_EMStutterGenotyper train get_stutter_model set_stutter_model
              length_genotype new_SeqStutterGenotyper seq_genotype false
              (cfg_loaded false false) [[at4; at5]] log_p1s log_p2s ["rg1"%string] region
              ""%string ""%string processor0 _ Hrun) as (new & Hnew).
  exists new. split; [exact Hrun|exact Hnew].
Defined.

Lemma every_locus_ends_with_a_closing_line_witness :
  ∃ p' msg,
    analyze (cfg 1 true false) [[at4; at5]] log_p1s log_p2s = Ok p'
    ∧ last (trace p') = Some (Log msg) ∧ closing_line msg = true.
Proof.
  eexists.
  assert (analyze (cfg 1 true false) [[at4; at5]] log_p1s log_p2s = Ok _) as Hrun
    by (vm_compute; reflexivity).
  destruct (every_locus_ends_with_a_closing_line unit unit unit ExtractCigar
              new_EMStutterGenotyper train get_stutter_model set_stutter_model
              length_genotype new_SeqStutterGenotyper seq_genotype false
              (cfg 1 true false) [[at4; at5]] log_p1s log_p2s ["rg1"%string] region
              ""%string ""%string processor0 _ Hrun) as (msg & Hmsg).
  exists msg. split; [exact Hrun|exact Hmsg].
Defined.

Lemma only_the_recalc_option_is_fatal_witness :
  recalc_stutter_model_ (cfg_loaded true true) = true
  ∧ use_seq_aligner_ (cfg_loaded true true) = true
  ∧ output_str_gts_ (cfg_loaded true true) = true
  ∧ "recalc_stutter_model option not yet implemented"%string
    = "recalc_stutter_model option not yet implemented"%string.
Proof.
  apply (only_the_recalc_option_is_fatal unit unit unit ExtractCigar new_EMStutterGenotyper
           train get_stutter_model set_stutter_model length_genotype new_SeqStutterGenotyper
           seq_genotype false (cfg_loaded true true) [[at4]] [[]] [[]] ["rg1"%string] region
           ""%string ""%string processor0).
  vm_compute. reflexivity.
Defined.

Lemma recalc_option_ends_the_run_after_success_witness :
  analyze (cfg_loaded true true) [[at4]] [[]] [[]]
  = Fatal "recalc_stutter_model option not yet implemented".
Proof.
  apply (recalc_option_ends_the_run_after_success unit unit unit ExtractCigar
           new_EMStutterGenotyper train get_stutter_model set_stutter_model length_genotype
           new_SeqStutterGenotyper seq_genotype false (cfg_loaded true true) [[at4]] [[]] [[]]
           ["rg1"%string] region ""%string ""%string processor0 extraction0 tt tt).
  - reflexivity.
  - reflexivity.
  - reflexivity.
  - vm_compute. reflexivity.
  - vm_compute. reflexivity.
  - reflexivity.
Defined.

Lemma locus_without_stored_model_is_not_genotyped_witness :
  ∃ p',
    analyze (cfg 1 true false) [[at4; at5]] log_p1s log_p2s = Ok p'
    ∧ same_counters processor0 p'
    ∧ trace p'
      = trace (ex_processor extraction45)
        ++ [FindStutterModel region;
            Log (MsgNoStutterModel (chrom region) (start region) (stop region));
            Log (MsgLocusTiming false false)].
Proof.
  apply (locus_without_stored_model_is_not_genotyped unit unit unit ExtractCigar
           new_EMStutterGenotyper train get_stutter_model set_stutter_model length_genotype
           new_SeqStutterGenotyper seq_genotype false (cfg 1 true false) [[at4; at5]]
           log_p1s log_p2s ["rg1"%string] region ""%string ""%string processor0 extraction45).
  - reflexivity.
  - reflexivity.
  - vm_compute. reflexivity.
Defined.

Lemma too_few_sized_reads_skips_locus_witness :
  ∃ p',
    analyze_reads_and_phasing unit unit unit ExtractCigar_mapped new_EMStutterGenotyper train
      get_stutter_model set_stutter_model length_genotype new_SeqStutterGenotyper seq_genotype
      false (cfg 2 false false) [[at4; str_m]] log_p1s log_p2s ["rg1"%string] region
      ""%string ""%string processor0 = Ok p'
    ∧ same_counters processor0 p'
    ∧ skip_count extraction4m
      = wrap32 (Z.of_nat (length (filter
                                    (λ aln, without_size ExtractCigar_mapped region aln = true)
                                    (concat [[at4; str_m]]))))
    ∧ trace p'
      = trace processor0
        ++ excluded_warnings ExtractCigar_mapped region (concat [[at4; str_m]])
        ++ [Log (MsgSkippingLocus
                   (wrap32 (count_total_reads [[at4; str_m]] - skip_count extraction4m))
                   (MIN_TOTAL_READS (cfg 2 false false)))].
Proof.
  apply (too_few_sized_reads_skips_locus unit unit unit ExtractCigar_mapped
           new_EMStutterGenotyper train get_stutter_model set_stutter_model length_genotype
           new_SeqStutterGenotyper seq_genotype false (cfg 2 false false) [[at4; str_m]]
           log_p1s log_p2s ["rg1"%string] region ""%string ""%string processor0 extraction4m).
  - vm_compute. discriminate.
  - intros _. split_and!; reflexivity.
  - left. reflexivity.
  - vm_compute. reflexivity.
  - vm_compute. reflexivity.
Defined.
